(** * BPM-Detector: the tempo estimation core, embedded and verified

    Shallow embedding of [bpm_core.py] (class [BPMAnalyzer]) and of the
    microphone loop of [analyzer.py] ([BPMGUIApp._mic_monitor_thread]).

    Numbers.  Beat times are computed by the source from integer frame
    indices ([i * hop_size / sample_rate]), and every tempo candidate is
    range-checked, so everything downstream of beat detection is modelled
    over exact rationals [Q] (the rounding of binary floating point is not
    modelled).  The signal path in front of it can produce not-a-number
    values (a silent buffer is divided by its peak 0), so it is modelled
    over [fval], rationals extended with the infinities and [NaN]. *)

From Stdlib Require Import List ZArith QArith Qabs Qminmax Lia Lqa Bool Permutation Sorted.
Import ListNotations.
Open Scope Q_scope.

(** ** Python results: a value or a raised exception *)

Inductive exn : Type :=
| ValueError
| ZeroDivisionError.

Inductive result (A : Type) : Type :=
| Ok (a : A)
| Raise (e : exn).
Arguments Ok {A} a.
Arguments Raise {A} e.

Definition bind {A B : Type} (r : result A) (k : A -> result B) : result B :=
  match r with
  | Ok a => k a
  | Raise e => Raise e
  end.

Notation "x <- r ;; k" := (bind r (fun x => k))
  (at level 61, r at next level, right associativity).

(** ** Python sequences: [range] and slicing *)

Module Py.

(** [range(n)] *)
Definition range (n : Z) : list Z := map Z.of_nat (seq 0 (Z.to_nat n)).

(** [range(start, stop)] *)
Definition range2 (start stop : Z) : list Z :=
  map (fun k => (start + Z.of_nat k)%Z) (seq 0 (Z.to_nat (stop - start))).

(** [range(start, stop, step)]; Python raises [ValueError] for a zero step. *)
Definition range3 (start stop step : Z) : result (list Z) :=
  if (step =? 0)%Z then Raise ValueError
  else
    let count :=
      if (0 <? step)%Z then ((stop - start + step - 1) / step)%Z
      else ((start - stop - step - 1) / (- step))%Z in
    Ok (map (fun k => (start + Z.of_nat k * step)%Z) (seq 0 (Z.to_nat count))).

(** A slice bound is clamped into [0, len]; a negative one counts from the
    end. *)
Definition clamp (len i : Z) : Z :=
  if (i <? 0)%Z then Z.max 0 (i + len) else Z.min i len.

(** [l[i:j]] *)
Definition slice {A : Type} (l : list A) (i j : Z) : list A :=
  let n := Z.of_nat (length l) in
  let a := clamp n i in
  let b := clamp n j in
  firstn (Z.to_nat (b - a)) (skipn (Z.to_nat a) l).

(** [l[i:]] *)
Definition slice_from {A : Type} (l : list A) (i : Z) : list A :=
  skipn (Z.to_nat (clamp (Z.of_nat (length l)) i)) l.

(** [l[:j]] *)
Definition slice_to {A : Type} (l : list A) (j : Z) : list A :=
  firstn (Z.to_nat (clamp (Z.of_nat (length l)) j)) l.

(** [l[i]] for an index the surrounding loop keeps within [0, len). *)
Definition item (l : list Q) (i : Z) : Q := nth (Z.to_nat i) l 0.

(** [len(l)] *)
Definition len {A : Type} (l : list A) : Z := Z.of_nat (length l).

End Py.

(** ** numpy reductions over rationals

    [np.mean] and [np.median] of an empty array are nan in numpy; the
    analyzer only applies them to non-empty lists, where the definitions
    below are the documented values. *)

Module Np.

Fixpoint insert (x : Q) (l : list Q) : list Q :=
  match l with
  | [] => [x]
  | y :: t => if Qle_bool x y then x :: y :: t else y :: insert x t
  end.

(** [np.sort] *)
Fixpoint sort (l : list Q) : list Q :=
  match l with
  | [] => []
  | x :: t => insert x (sort t)
  end.

(** [np.sum] *)
Definition sum (l : list Q) : Q := fold_right Qplus 0 l.

(** [np.mean] *)
Definition mean (l : list Q) : Q := sum l / inject_Z (Py.len l).

(** [np.median]: the middle of the sorted data, or the mean of the two
    middle values. *)
Definition median (l : list Q) : Q :=
  let s := sort l in
  let n := length l in
  if Nat.even n
  then (nth (n / 2 - 1) s 0 + nth (n / 2) s 0) / 2
  else nth (n / 2) s 0.

(** [np.percentile(l, p)] with the default linear interpolation: the
    virtual index [(n - 1) * p / 100] is split into its floor and its
    fractional part, and the two neighbouring order statistics are
    interpolated. *)
Definition percentile (l : list Q) (p : Z) : Q :=
  let s := sort l in
  let n := Py.len l in
  let pos := ((n - 1) * p)%Z in
  let lo := (pos / 100)%Z in
  let hi := Z.min (lo + 1) (n - 1) in
  let t := inject_Z (pos mod 100) / 100 in
  let a := Py.item s lo in
  let b := Py.item s hi in
  a + (b - a) * t.

(** [np.max(np.abs(l))]; [np.max] raises [ValueError] on an empty array. *)
Definition max_abs (l : list Q) : result Q :=
  match l with
  | [] => Raise ValueError
  | x :: t => Ok (fold_left Qmax (map Qabs t) (Qabs x))
  end.

End Np.

(** ** [bpm_core.py]: class [BPMAnalyzer] *)

Record BPMAnalyzer : Type := mkBPMAnalyzer {
  frame_size : Z;
  hop_size : Z;
  beat_threshold_multiplier : Q;
  bpm_smoothing_window : Z;
  spectral_flux_threshold : Q
}.

(** [BPMAnalyzer.__init__], lines 14-21: the two arguments and three
    constants are stored. *)
Definition configured (frame_size hop_size : Z) : BPMAnalyzer :=
  {| frame_size := frame_size;
     hop_size := hop_size;
     beat_threshold_multiplier := 13 # 10;
     bpm_smoothing_window := 3;
     spectral_flux_threshold := 15 # 100 |}.

(** The constructor call [BPMAnalyzer(frame_size, hop_size)]: the body of
    [__init__] has no check and no [raise]. *)
Definition init (frame_size hop_size : Z) : result BPMAnalyzer :=
  Ok (configured frame_size hop_size).

(** [BPMAnalyzer()] with the default arguments. *)
Definition default_analyzer : BPMAnalyzer := configured 2048 512.

(** [BPMAnalyzer._calculate_bpm_candidates] *)
Definition intervals_of (beats : list Q) : list Q :=
  map (fun i => Py.item beats i - Py.item beats (i - 1))
      (Py.range2 1 (Py.len beats)).

Definition ratios : list Q := [1 # 2; 1; 2].

Definition candidates_of_interval (interval : Q) : list Q :=
  if Qlt_le_dec 0 interval
  then
    let base_bpm := 60 / interval in
    filter (fun candidate => Qle_bool 40 candidate && Qle_bool candidate 220)
           (map (fun ratio => base_bpm * ratio) ratios)
  else [].

Definition _calculate_bpm_candidates (beats : list Q) : list Q :=
  if (Py.len beats <? 2)%Z then []
  else flat_map candidates_of_interval (intervals_of beats).

(** [BPMAnalyzer._filter_outliers_iqr] *)
Definition _filter_outliers_iqr (values : list Q) : list Q :=
  match values with
  | [] => []
  | _ =>
    let q1 := Np.percentile values 25 in
    let q3 := Np.percentile values 75 in
    let iqr := q3 - q1 in
    let lower_bound := q1 - (3 # 2) * iqr in
    let upper_bound := q3 + (3 # 2) * iqr in
    filter (fun v => Qle_bool lower_bound v && Qle_bool v upper_bound) values
  end.

(** [BPMAnalyzer._moving_average] *)
Definition _moving_average (values : list Q) (window_size : Z) : list Q :=
  if (Py.len values <? window_size)%Z then values
  else
    map (fun i => Np.mean (Py.slice values i (i + window_size)))
        (Py.range (Py.len values - window_size + 1)).

(** Lines 49-55 of [analyze_audio_data]: the moving average and the mean. *)
Definition smooth_filtered (self : BPMAnalyzer) (filtered_bpm : list Q) : Q :=
  if (bpm_smoothing_window self <=? Py.len filtered_bpm)%Z
  then Np.mean (_moving_average filtered_bpm (bpm_smoothing_window self))
  else Np.mean filtered_bpm.

(** Lines 43-55 of [analyze_audio_data]: the aggregation of the candidates
    into one estimate. *)
Definition aggregate (self : BPMAnalyzer) (bpm_candidates : list Q) : Q :=
  let filtered_bpm := _filter_outliers_iqr bpm_candidates in
  match filtered_bpm with
  | [] =>
    match bpm_candidates with
    | [] => 0
    | _ => Np.median bpm_candidates
    end
  | _ => smooth_filtered self filtered_bpm
  end.

(** Lines 37-55 of [analyze_audio_data]: everything after beat detection. *)
Definition analyze_beats (self : BPMAnalyzer) (beats : list Q) : Q :=
  match beats with
  | [] => 0
  | _ => aggregate self (_calculate_bpm_candidates beats)
  end.

(** [BPMAnalyzer._detect_beats_improved], lines 112-120: the refractory
    merge.  [refined_beats[-1]] is the beat accepted last. *)
Definition min_beat_interval : Q := 5 # 100.

Definition refine_step (refined_beats : list Q) (beat : Q) : list Q :=
  match refined_beats with
  | [] => refined_beats ++ [beat]
  | _ =>
    if Qlt_le_dec min_beat_interval (beat - last refined_beats 0)
    then refined_beats ++ [beat]
    else refined_beats
  end.

Definition refine_beats (beats : list Q) : list Q :=
  fold_left refine_step beats [].

(** ** The signal path: values that may be infinite or not a number

    Finite values are exact rationals; signed zeros are not told apart. *)

Inductive fval : Type :=
| Fin (q : Q)
| Inf (negative : bool)
| NaN.

Module F.

Definition sign (q : Q) : fval :=
  if Qlt_le_dec 0 q then Inf false
  else if Qlt_le_dec q 0 then Inf true
  else NaN.

Definition neg (x : fval) : fval :=
  match x with
  | Fin a => Fin (- a)
  | Inf s => Inf (negb s)
  | NaN => NaN
  end.

Definition add (x y : fval) : fval :=
  match x, y with
  | Fin a, Fin b => Fin (a + b)
  | Fin _, Inf s => Inf s
  | Inf s, Fin _ => Inf s
  | Inf s, Inf s' => if Bool.eqb s s' then Inf s else NaN
  | _, _ => NaN
  end.

Definition sub (x y : fval) : fval := add x (neg y).

Definition mul (x y : fval) : fval :=
  match x, y with
  | Fin a, Fin b => Fin (a * b)
  | Fin a, Inf s => if s then neg (sign a) else sign a
  | Inf s, Fin a => if s then neg (sign a) else sign a
  | Inf s, Inf s' => Inf (xorb s s')
  | _, _ => NaN
  end.

Definition div (x y : fval) : fval :=
  match x, y with
  | Fin a, Fin b => if Qeq_bool b 0 then sign a else Fin (a / b)
  | Fin _, Inf _ => Fin 0
  | Inf s, Fin b => if Qlt_le_dec b 0 then Inf (negb s) else Inf s
  | _, _ => NaN
  end.

(** [x > y]; every comparison with nan is false. *)
Definition gt (x y : fval) : bool :=
  match x, y with
  | Fin a, Fin b => if Qlt_le_dec b a then true else false
  | Fin _, Inf s => s
  | Inf s, Fin _ => negb s
  | Inf s, Inf s' => negb s && s'
  | _, _ => false
  end.

(** [np.maximum], which propagates nan. *)
Definition maximum (x y : fval) : fval :=
  match x, y with
  | NaN, _ => NaN
  | _, NaN => NaN
  | _, _ => if gt y x then y else x
  end.

Definition abs (x : fval) : fval :=
  match x with
  | Fin a => Fin (Qabs a)
  | Inf _ => Inf false
  | NaN => NaN
  end.

Definition sq (x : fval) : fval := mul x x.

(** [np.sum] *)
Definition sum (l : list fval) : fval := fold_right add (Fin 0) l.

(** [np.mean]; the mean of an empty array is 0/0. *)
Definition mean (l : list fval) : fval :=
  div (sum l) (Fin (inject_Z (Py.len l))).

(** [np.max] of a non-empty array. *)
Definition max (x : fval) (l : list fval) : fval := fold_left maximum l x.

(** [l[i]] for an index the surrounding loop keeps within [0, len). *)
Definition item (l : list fval) (i : Z) : fval := nth (Z.to_nat i) l NaN.

Fixpoint map2 (f : fval -> fval -> fval) (l l' : list fval) : list fval :=
  match l, l' with
  | x :: t, y :: t' => f x y :: map2 f t t'
  | _, _ => []
  end.

End F.

Section Detector.

(** The two operations of the signal path that leave the rationals: the
    square root of a non-negative number, and the magnitude spectrum
    [np.abs(np.fft.rfft(frame * np.hanning(frame_size)))] of one frame.
    Whatever they compute, the results below hold. *)
Variable sqrtQ : Q -> Q.
Variable magnitude_spectrum : list fval -> list fval.

Definition fsqrt (x : fval) : fval :=
  match x with
  | Fin a => if Qlt_le_dec a 0 then NaN else Fin (sqrtQ a)
  | Inf false => Inf false
  | Inf true => NaN
  | NaN => NaN
  end.

(** [np.std] *)
Definition fstd (l : list fval) : fval :=
  let m := F.mean l in
  fsqrt (F.mean (map (fun x => F.sq (F.abs (F.sub x m))) l)).

(** Line 69: [audio_data / np.max(np.abs(audio_data))] *)
Definition normalize (audio_data : list Q) : result (list fval) :=
  p <- Np.max_abs audio_data ;;
  Ok (map (fun x => F.div (Fin x) (Fin p)) audio_data).

(** The frames of the loops of lines 73 and 136: [audio_data[i:i + frame_size]]
    for [i] in [range(0, len(audio_data) - frame_size, hop_size)].  With a
    positive frame and hop size every frame has [frame_size] samples, as
    the product with [np.hanning(frame_size)] of line 138 needs; the
    results on the frames are stated for such sizes. *)
Definition frames (self : BPMAnalyzer) (audio_data : list fval)
  : result (list (list fval)) :=
  starts <- Py.range3 0 (Py.len audio_data - frame_size self) (hop_size self) ;;
  Ok (map (fun i => Py.slice audio_data i (i + frame_size self)) starts).

(** Lines 72-75: the energy envelope. *)
Definition energy_of (self : BPMAnalyzer) (audio_data : list fval)
  : result (list fval) :=
  fs <- frames self audio_data ;;
  Ok (map (fun frame => fsqrt (F.mean (map F.sq frame))) fs).

(** [BPMAnalyzer._calculate_spectral_flux], the loop of lines 136-151. *)
Fixpoint flux_loop (fs : list (list fval)) (prev_magnitude : option (list fval))
  : list fval :=
  match fs with
  | [] => []
  | frame :: rest =>
    let magnitude := magnitude_spectrum frame in
    match prev_magnitude with
    | Some prev =>
      let diff := F.map2 (fun m p => F.maximum (Fin 0) (F.sub m p)) magnitude prev in
      F.sum (map F.sq diff) :: flux_loop rest (Some magnitude)
    | None => flux_loop rest (Some magnitude)
    end
  end.

(** Lines 153-159: the flux is divided by its maximum if that is
    positive. *)
Definition _calculate_spectral_flux (self : BPMAnalyzer) (audio_data : list fval)
  : result (list fval) :=
  fs <- frames self audio_data ;;
  let flux := flux_loop fs None in
  match flux with
  | [] => Ok flux
  | x :: t =>
    let max_flux := F.max x t in
    if F.gt max_flux (Fin 0)
    then Ok (map (fun v => F.div v max_flux) flux)
    else Ok flux
  end.

(** Lines 82-83 *)
Definition combine (energy spectral_flux : list fval) : list fval :=
  let min_length := Z.min (Py.len energy) (Py.len spectral_flux) in
  F.map2 (fun e f => F.add (F.mul (Fin (7 # 10)) e) (F.mul (Fin (3 # 10)) f))
         (Py.slice_to energy min_length) (Py.slice_to spectral_flux min_length).

(** Lines 86-97: the adaptive threshold of frame [i]. *)
Definition window_size : Z := 30.

Definition threshold_at (self : BPMAnalyzer) (combined_onset : list fval) (i : Z)
  : fval :=
  let start_idx := Z.max 0 (i - window_size) in
  let end_idx := Z.min (Py.len combined_onset) (i + 1) in
  let window := Py.slice combined_onset start_idx end_idx in
  let local_mean := F.mean window in
  let local_std := if (start_idx <? end_idx)%Z then fstd window else Fin 0 in
  F.add local_mean (F.mul (Fin (beat_threshold_multiplier self)) local_std).

Definition dynamic_threshold (self : BPMAnalyzer) (combined_onset : list fval)
  : list fval :=
  map (threshold_at self combined_onset) (Py.range (Py.len combined_onset)).

(** Lines 103-105 *)
Definition is_peak (combined_onset thresholds : list fval) (i : Z) : bool :=
  F.gt (F.item combined_onset i) (F.item combined_onset (i - 1))
  && F.gt (F.item combined_onset i) (F.item combined_onset (i + 1))
  && F.gt (F.item combined_onset i) (F.item thresholds i).

(** Line 109: [i * self.hop_size / sample_rate], a division of Python
    integers. *)
Definition beat_time (self : BPMAnalyzer) (sample_rate i : Z) : result Q :=
  if (sample_rate =? 0)%Z then Raise ZeroDivisionError
  else Ok (inject_Z (i * hop_size self) / inject_Z sample_rate).

(** Lines 100-110 *)
Fixpoint peaks_loop (self : BPMAnalyzer) (combined_onset thresholds : list fval)
  (sample_rate : Z) (indices : list Z) : result (list Q) :=
  match indices with
  | [] => Ok []
  | i :: rest =>
    if is_peak combined_onset thresholds i
    then
      t <- beat_time self sample_rate i ;;
      ts <- peaks_loop self combined_onset thresholds sample_rate rest ;;
      Ok (t :: ts)
    else peaks_loop self combined_onset thresholds sample_rate rest
  end.

(** [BPMAnalyzer._detect_beats_improved] *)
Definition _detect_beats_improved (self : BPMAnalyzer) (audio_data : list Q)
  (sample_rate : Z) : result (list Q) :=
  audio <- normalize audio_data ;;
  energy <- energy_of self audio ;;
  spectral_flux <- _calculate_spectral_flux self audio ;;
  let combined_onset := combine energy spectral_flux in
  let thresholds := dynamic_threshold self combined_onset in
  beats <- peaks_loop self combined_onset thresholds sample_rate
             (Py.range2 1 (Py.len combined_onset - 1)) ;;
  Ok (refine_beats beats).

(** [BPMAnalyzer.analyze_audio_data] *)
Definition analyze_audio_data (self : BPMAnalyzer) (audio_data : list Q)
  (sample_rate : Z) : result Q :=
  beats <- _detect_beats_improved self audio_data sample_rate ;;
  Ok (analyze_beats self beats).

End Detector.

(** ** [analyzer.py]: the microphone loop of [BPMGUIApp]

    The fields of [BPMGUIApp] that the loop reads and writes.  [__init__]
    sets [mic_sample_rate = 44100] and [mic_bpm = 0], and
    [_start_mic_monitoring] empties the buffer and the history, so every
    field exists when the loop runs. *)

Record BPMGUIApp : Type := mkBPMGUIApp {
  mic_buffer : list Q;
  mic_bpm_history : list Q;
  mic_sample_rate : Z;
  mic_bpm : Q;
  mic_start_time : Q;
  mic_last_bpm_sample_ts : Q;
  mic_bpm_sample_interval : Q;
  mic_time_bpm_pairs : list (Q * Q)
}.

Definition set_mic_buffer (app : BPMGUIApp) (b : list Q) : BPMGUIApp :=
  {| mic_buffer := b;
     mic_bpm_history := mic_bpm_history app;
     mic_sample_rate := mic_sample_rate app;
     mic_bpm := mic_bpm app;
     mic_start_time := mic_start_time app;
     mic_last_bpm_sample_ts := mic_last_bpm_sample_ts app;
     mic_bpm_sample_interval := mic_bpm_sample_interval app;
     mic_time_bpm_pairs := mic_time_bpm_pairs app |}.

Definition set_mic_bpm_history (app : BPMGUIApp) (h : list Q) : BPMGUIApp :=
  {| mic_buffer := mic_buffer app;
     mic_bpm_history := h;
     mic_sample_rate := mic_sample_rate app;
     mic_bpm := mic_bpm app;
     mic_start_time := mic_start_time app;
     mic_last_bpm_sample_ts := mic_last_bpm_sample_ts app;
     mic_bpm_sample_interval := mic_bpm_sample_interval app;
     mic_time_bpm_pairs := mic_time_bpm_pairs app |}.

Definition set_mic_bpm (app : BPMGUIApp) (v : Q) : BPMGUIApp :=
  {| mic_buffer := mic_buffer app;
     mic_bpm_history := mic_bpm_history app;
     mic_sample_rate := mic_sample_rate app;
     mic_bpm := v;
     mic_start_time := mic_start_time app;
     mic_last_bpm_sample_ts := mic_last_bpm_sample_ts app;
     mic_bpm_sample_interval := mic_bpm_sample_interval app;
     mic_time_bpm_pairs := mic_time_bpm_pairs app |}.

(** The state in which [_start_mic_monitoring] leaves the fields at wall
    time [now]: empty buffer and history, the series [(0, 0)]. *)
Definition start_mic_monitoring (app : BPMGUIApp) (now interval : Q) : BPMGUIApp :=
  {| mic_buffer := [];
     mic_bpm_history := [];
     mic_sample_rate := mic_sample_rate app;
     mic_bpm := mic_bpm app;
     mic_start_time := now;
     mic_last_bpm_sample_ts := now;
     mic_bpm_sample_interval := interval;
     mic_time_bpm_pairs := [(0, 0)] |}.

(** [audio_callback], lines 1650 and 1666-1669: the chunk is appended and
    the buffer cut to its last [mic_sample_rate * 10] samples.  (Writing
    the chunk to the WAV file does not touch these fields.) *)
Definition audio_callback (app : BPMGUIApp) (indata : list Q) : BPMGUIApp :=
  let buffer := mic_buffer app ++ indata in
  let max_buffer_size := (mic_sample_rate app * 10)%Z in
  if (max_buffer_size <? Py.len buffer)%Z
  then set_mic_buffer app (Py.slice_from buffer (- max_buffer_size))
  else set_mic_buffer app buffer.

(** Lines 1690-1692 and 1766-1768: division by the peak if it is
    positive. *)
Definition normalize_window (analysis_buffer : list Q) : result (list Q) :=
  max_val <- Np.max_abs analysis_buffer ;;
  if Qlt_le_dec 0 max_val
  then Ok (map (fun x => x / max_val) analysis_buffer)
  else Ok analysis_buffer.

(** Lines 1727-1733: the 3-point median filter over the history. *)
Definition median_filter (history : list Q) : list Q :=
  map (fun i =>
         if ((i =? 0) || (i =? Py.len history - 1))%Z
         then Py.item history i
         else Np.median (Py.slice history (i - 1) (i + 2)))
      (Py.range (Py.len history)).

(** Lines 1736-1739: the exponential moving average. *)
Definition alpha : Q := 3 # 10.

Definition ema (median_filtered : list Q) : Q :=
  fold_left (fun ema_bpm bpm => alpha * bpm + (1 - alpha) * ema_bpm)
            (Py.slice_from median_filtered 1)
            (Py.item median_filtered 0).

(** Lines 1715-1743: the consensus value enters the history, which keeps
    its last 20 entries, and the live value is recomputed from it. *)
Definition history_size : Z := 20.

Definition push_history (history : list Q) (current_bpm : Q) : list Q :=
  let history := history ++ [current_bpm] in
  if (history_size <? Py.len history)%Z
  then Py.slice_from history (- history_size)
  else history.

Definition smooth (history : list Q) : Q :=
  if (3 <=? Py.len history)%Z
  then ema (median_filter history)
  else Np.median history.

(** Lines 1753-1762 and 1772-1780: a point of the series is recorded once
    the sampling interval has elapsed. *)
Definition record_sample (app : BPMGUIApp) (now_ts : Q) : BPMGUIApp :=
  if Qle_bool (mic_bpm_sample_interval app) (now_ts - mic_last_bpm_sample_ts app)
  then
    {| mic_buffer := mic_buffer app;
       mic_bpm_history := mic_bpm_history app;
       mic_sample_rate := mic_sample_rate app;
       mic_bpm := mic_bpm app;
       mic_start_time := mic_start_time app;
       mic_last_bpm_sample_ts := now_ts;
       mic_bpm_sample_interval := mic_bpm_sample_interval app;
       mic_time_bpm_pairs :=
         mic_time_bpm_pairs app ++ [(now_ts - mic_start_time app, mic_bpm app)] |}
  else app.

Section Monitor.

Variable sqrtQ : Q -> Q.
Variable magnitude_spectrum : list fval -> list fval.

(** [self.analyzer.analyze_audio_data]; [self.analyzer] is [BPMAnalyzer()]. *)
Definition analyze (segment : list Q) (sample_rate : Z) : result Q :=
  analyze_audio_data sqrtQ magnitude_spectrum default_analyzer segment sample_rate.

(** Lines 1695-1707: the estimates of the three segments, the positive
    ones kept. *)
Fixpoint segment_loop (analysis_buffer : list Q) (sample_rate : Z)
  (segment_samples overlap_samples : Z) (indices : list Z) : result (list Q) :=
  match indices with
  | [] => Ok []
  | i :: rest =>
    let start_idx :=
      Z.max 0 (Py.len analysis_buffer - segment_samples - i * overlap_samples) in
    let end_idx := (start_idx + segment_samples)%Z in
    let segment := Py.slice analysis_buffer start_idx end_idx in
    segment_bpm <- analyze segment sample_rate ;;
    bpms <- segment_loop analysis_buffer sample_rate segment_samples
              overlap_samples rest ;;
    if Qlt_le_dec 0 segment_bpm then Ok (segment_bpm :: bpms) else Ok bpms
  end.

Definition segment_bpms (app : BPMGUIApp) : result (list Q) :=
  let sr := mic_sample_rate app in
  analysis_buffer <- normalize_window (Py.slice_from (mic_buffer app) (- sr * 7)) ;;
  let segment_samples := (5 * sr)%Z in
  let overlap_samples := Z.quot (5 * sr) 2 in
  segment_loop analysis_buffer sr segment_samples overlap_samples (Py.range 3).

(** Lines 1685-1762: one pass of the loop once the buffer holds 7 s. *)
Definition stable_update (app : BPMGUIApp) (now_ts : Q) : result BPMGUIApp :=
  bpms <- segment_bpms app ;;
  let app :=
    match bpms with
    | [] =>
      if Qeq_bool (mic_bpm app) 0 then set_mic_bpm app 0 else app
    | _ =>
      let current_bpm := Np.median bpms in
      let app := set_mic_bpm_history app
                   (push_history (mic_bpm_history app) current_bpm) in
      set_mic_bpm app (smooth (mic_bpm_history app))
    end in
  Ok (record_sample app now_ts).

(** Lines 1763-1780: one pass of the loop while the buffer holds between
    2 s and 7 s. *)
Definition quick_update (app : BPMGUIApp) (now_ts : Q) : result BPMGUIApp :=
  let sr := mic_sample_rate app in
  analysis_buffer <- normalize_window (Py.slice_from (mic_buffer app) (- (sr * 2))) ;;
  quick_bpm <- analyze analysis_buffer sr ;;
  if Qlt_le_dec 0 quick_bpm
  then Ok (record_sample (set_mic_bpm app quick_bpm) now_ts)
  else Ok app.

(** Lines 1683-1780: one pass of the [while self.mic_recording] loop. *)
Definition monitor_pass (app : BPMGUIApp) (now_ts : Q) : result BPMGUIApp :=
  if (mic_sample_rate app * 7 <=? Py.len (mic_buffer app))%Z
  then stable_update app now_ts
  else if (mic_sample_rate app * 2 <=? Py.len (mic_buffer app))%Z
  then quick_update app now_ts
  else Ok app.

End Monitor.

(** ** Monitoring sessions *)

Section Session.

Variable sqrtQ : Q -> Q.
Variable magnitude_spectrum : list fval -> list fval.

(** The states of a monitoring session: [_start_mic_monitoring] at the
    sample rate 44100 of [__init__], then chunks arriving and passes of the
    polling loop, in any order. *)
Inductive session : BPMGUIApp -> Prop :=
| session_start (app : BPMGUIApp) (now interval : Q) :
    mic_sample_rate app = 44100%Z ->
    session (start_mic_monitoring app now interval)
| session_chunk (app : BPMGUIApp) (indata : list Q) :
    session app -> session (audio_callback app indata)
| session_pass (app app' : BPMGUIApp) (now_ts : Q) :
    session app ->
    monitor_pass sqrtQ magnitude_spectrum app now_ts = Ok app' ->
    session app'.

End Session.

(** ** The specification's wording, for comparison with the code *)

Module Spec.

(** The fence [Q1 - 1.5 IQR, Q3 + 1.5 IQR] of the candidates. *)
Definition fence (candidates : list Q) : Q * Q :=
  let q1 := Np.percentile candidates 25 in
  let q3 := Np.percentile candidates 75 in
  (q1 - (3 # 2) * (q3 - q1), q3 + (3 # 2) * (q3 - q1)).

Definition within (bounds : Q * Q) (v : Q) : Prop :=
  fst bounds <= v /\ v <= snd bounds.

Definition withinb (bounds : Q * Q) (v : Q) : bool :=
  Qle_bool (fst bounds) v && Qle_bool v (snd bounds).

(** The means of the 3-wide windows that slide by one over the sequence. *)
Fixpoint window_means (l : list Q) : list Q :=
  match l with
  | a :: ((b :: c :: _) as t) => Np.mean [a; b; c] :: window_means t
  | _ => []
  end.

(** The aggregator of section 4.4. *)
Definition aggregator (candidates : list Q) : Q :=
  let kept := filter (withinb (fence candidates)) candidates in
  match kept with
  | [] => Np.median candidates
  | _ =>
    if (3 <=? length kept)%nat
    then Np.mean (window_means kept)
    else Np.mean kept
  end.

(** A tempo within [40, 220]. *)
Definition in_range (v : Q) : Prop := 40 <= v /\ v <= 220.

Definition in_rangeb (v : Q) : bool := Qle_bool 40 v && Qle_bool v 220.

(** The candidates of one positive interval: 60/interval times each of the
    ratios 0.5, 1 and 2, those in range kept. *)
Definition of_interval (interval : Q) : list Q :=
  filter in_rangeb
    [60 / interval * (1 # 2); 60 / interval * 1; 60 / interval * 2].

(** The candidate generator of section 4.3, over the consecutive pairs. *)
Fixpoint candidates (beats : list Q) : list Q :=
  match beats with
  | a :: ((b :: _) as t) =>
    (if Qlt_le_dec 0 (b - a) then of_interval (b - a) else []) ++ candidates t
  | _ => []
  end.

(** The refractory merge as section 4.2 words it: a candidate is dropped
    when it comes less than 50 ms after the beat accepted last. *)
Fixpoint merge_lt (accepted : Q) (rest : list Q) : list Q :=
  match rest with
  | [] => []
  | b :: t =>
    if Qlt_le_dec (b - accepted) (5 # 100)
    then merge_lt accepted t
    else b :: merge_lt b t
  end.

Definition refractory_lt (beats : list Q) : list Q :=
  match beats with
  | [] => []
  | b :: t => b :: merge_lt b t
  end.

(** The same merge with the boundary on the other side: a candidate is
    dropped when it comes at most 50 ms after the beat accepted last. *)
Fixpoint merge_le (accepted : Q) (rest : list Q) : list Q :=
  match rest with
  | [] => []
  | b :: t =>
    if Qlt_le_dec (5 # 100) (b - accepted)
    then b :: merge_le b t
    else merge_le accepted t
  end.

Definition refractory_le (beats : list Q) : list Q :=
  match beats with
  | [] => []
  | b :: t => b :: merge_le b t
  end.

(** Consecutive beats more than 50 ms apart. *)
Definition apart (a b : Q) : Prop := 5 # 100 < b - a.

(** The median of three values. *)
Definition median3 (a b c : Q) : Q := Qmax (Qmin a b) (Qmin (Qmax a b) c).

(** The 3-point median filter of section 4.5: the endpoints pass through,
    an interior entry becomes the median of itself and its neighbours. *)
Fixpoint filter_interior (prev : Q) (l : list Q) : list Q :=
  match l with
  | [] => []
  | x :: t =>
    match t with
    | [] => [x]
    | y :: _ => median3 prev x y :: filter_interior x t
    end
  end.

Definition median_filter3 (history : list Q) : list Q :=
  match history with
  | [] => []
  | a :: t => a :: filter_interior a t
  end.

(** new = 0.3 value + 0.7 previous, folded from the first value on. *)
Definition ema_step (previous value : Q) : Q :=
  (3 # 10) * value + (7 # 10) * previous.

Definition ema_fold (l : list Q) : Q :=
  match l with
  | [] => 0
  | a :: t => fold_left ema_step t a
  end.

Definition live_bpm (history : list Q) : Q :=
  if (3 <=? length history)%nat
  then ema_fold (median_filter3 history)
  else Np.median history.

End Spec.

(** ** Notions used in the statements *)

(** A value between two bounds. *)
Definition bounded (lo hi v : Q) : Prop := lo <= v /\ v <= hi.

(** The last [k] elements of a list. *)
Definition lastn {A : Type} (k : nat) (l : list A) : list A :=
  skipn (length l - k) l.

(** A signal of which every value is nan. *)
Definition all_nan (l : list fval) : Prop := Forall (fun v => v = NaN) l.

(** Seven seconds at 1000 Hz: silence with four clicks, at samples 600,
    1600, 2100 and 3100. *)
Definition clicks : list Q :=
  repeat 0 600 ++ [1] ++ repeat 0 999 ++ [1] ++ repeat 0 499 ++ [1]
  ++ repeat 0 999 ++ [1] ++ repeat 0 3899.

(** What holds between the passes of a session. *)
Definition session_invariant (app : BPMGUIApp) : Prop :=
  mic_sample_rate app = 44100%Z
  /\ (Py.len (mic_buffer app) <= 10 * mic_sample_rate app)%Z
  /\ (length (mic_bpm_history app) <= 20)%nat
  /\ (mic_bpm_history app = []
      \/ ((mic_sample_rate app * 7 <= Py.len (mic_buffer app))%Z
          /\ mic_bpm app == Spec.live_bpm (mic_bpm_history app))).

(** ** Runs of the microphone loop *)

Section Run.

Variable sqrtQ : Q -> Q.
Variable magnitude_spectrum : list fval -> list fval.

(** One step between two states of the loop: a chunk arrives, or the
    polling loop makes a pass. *)
Inductive mic_step (app : BPMGUIApp) : BPMGUIApp -> Prop :=
| step_chunk (indata : list Q) : mic_step app (audio_callback app indata)
| step_pass (now_ts : Q) (app' : BPMGUIApp) :
    monitor_pass sqrtQ magnitude_spectrum app now_ts = Ok app' ->
    mic_step app app'.

(** Any number of steps. *)
Inductive mic_run (app : BPMGUIApp) : BPMGUIApp -> Prop :=
| run_here : mic_run app app
| run_step (app1 app2 : BPMGUIApp) :
    mic_run app app1 -> mic_step app1 app2 -> mic_run app app2.

End Run.

(** A value that is the sentinel 0 or a tempo within [40, 220]. *)
Definition estimate (v : Q) : Prop := v == 0 \/ Spec.in_range v.

(** Every value the loop holds is an estimate. *)
Definition estimates_only (app : BPMGUIApp) : Prop :=
  estimate (mic_bpm app)
  /\ Forall Spec.in_range (mic_bpm_history app)
  /\ Forall (fun p => estimate (snd p)) (mic_time_bpm_pairs app).

(** Two consecutive points of the series lie at least the sampling
    interval apart. *)
Definition spaced (interval : Q) (p q : Q * Q) : Prop :=
  fst p + interval <= fst q.

(** The series is spaced, and its last point was recorded at
    [mic_last_bpm_sample_ts]. *)
Definition series_ok (app : BPMGUIApp) : Prop :=
  Sorted (spaced (mic_bpm_sample_interval app)) (mic_time_bpm_pairs app)
  /\ exists earlier p,
       mic_time_bpm_pairs app = earlier ++ [p]
       /\ fst p == mic_last_bpm_sample_ts app - mic_start_time app.

(** A list obtained from another by deleting elements. *)
Inductive subsequence {A : Type} : list A -> list A -> Prop :=
| sub_nil : subsequence [] []
| sub_keep (x : A) (l l' : list A) :
    subsequence l l' -> subsequence (x :: l) (x :: l')
| sub_drop (x : A) (l l' : list A) :
    subsequence l l' -> subsequence l (x :: l').

(** [n] beats, the first at [t0], each [d] after the one before. *)
Definition steady_beats (t0 d : Q) (n : nat) : list Q :=
  map (fun k => t0 + inject_Z (Z.of_nat k) * d) (seq 0 n).

(** ** [analyzer.py]: [BPMGUIApp._perform_final_mic_analysis] *)

(** Lines 1864-1880: the consensus of the positive segment estimates.
    With at least 3 of them they are sorted, the smallest and the largest
    dropped when there are more than 3, and the median taken. *)
Definition final_consensus (segment_bpms : list Q) : Q :=
  match segment_bpms with
  | [] => 0
  | _ =>
    if (3 <=? Py.len segment_bpms)%Z
    then
      let sorted_bpms := Np.sort segment_bpms in
      let valid_bpms :=
        if (3 <? Py.len sorted_bpms)%Z
        then Py.slice sorted_bpms 1 (-1)
        else sorted_bpms in
      Np.median valid_bpms
    else Np.median segment_bpms
  end.

(** Lines 1840-1845: the number of segments; the division of line 1842
    raises [ZeroDivisionError] for a zero overlap. *)
Definition final_num_segments (len segment_samples overlap_samples : Z)
  : result Z :=
  if (segment_samples <=? len)%Z
  then
    if (overlap_samples =? 0)%Z then Raise ZeroDivisionError
    else
      let num_segments :=
        Z.max 1 (Z.quot (len - segment_samples) overlap_samples + 1) in
      Ok (Z.min num_segments 5)
  else Ok 0%Z.

(** Line 1849: where segment [i] starts. *)
Definition final_start (len segment_samples overlap_samples i : Z) : Z :=
  Z.min (i * overlap_samples) (len - segment_samples).

Section FinalAnalysis.

Variable sqrtQ : Q -> Q.
Variable magnitude_spectrum : list fval -> list fval.

(** Lines 1848-1856: the positive estimates of the segments. *)
Fixpoint final_loop (full_buffer : list Q) (sample_rate : Z)
  (segment_samples overlap_samples : Z) (indices : list Z) : result (list Q) :=
  match indices with
  | [] => Ok []
  | i :: rest =>
    let start_idx :=
      final_start (Py.len full_buffer) segment_samples overlap_samples i in
    let end_idx := (start_idx + segment_samples)%Z in
    let segment := Py.slice full_buffer start_idx end_idx in
    segment_bpm <- analyze sqrtQ magnitude_spectrum segment sample_rate ;;
    bpms <- final_loop full_buffer sample_rate segment_samples overlap_samples
              rest ;;
    if Qlt_le_dec 0 segment_bpm then Ok (segment_bpm :: bpms) else Ok bpms
  end.

(** Lines 1832-1862: the estimates that enter the consensus; without a
    positive segment estimate the whole buffer is analyzed at once. *)
Definition final_estimates (full_buffer : list Q) (sample_rate : Z)
  : result (list Q) :=
  let segment_samples := (5 * sample_rate)%Z in
  let overlap_samples := Z.quot segment_samples 2 in
  num_segments <-
    final_num_segments (Py.len full_buffer) segment_samples overlap_samples ;;
  segment_bpms <-
    final_loop full_buffer sample_rate segment_samples overlap_samples
      (Py.range num_segments) ;;
  match segment_bpms with
  | [] =>
    if (0 <? Py.len full_buffer)%Z
    then
      final_bpm <- analyze sqrtQ magnitude_spectrum full_buffer sample_rate ;;
      if Qlt_le_dec 0 final_bpm then Ok [final_bpm] else Ok []
    else Ok []
  | _ => Ok segment_bpms
  end.

(** Lines 1881-1886: the label update and [_update_bpm_comparison], which
    read the consensus; what matters here is whether they raise. *)
Variable show_final : Q -> result unit.

(** [_perform_final_mic_analysis]: the value left in [final_mic_bpm] and
    the state with the buffer cleared.  An empty buffer gives 0 (lines
    1823-1829), and so does every exception, which line 1895 catches. *)
Definition _perform_final_mic_analysis (app : BPMGUIApp) : Q * BPMGUIApp :=
  let final_mic_bpm :=
    match mic_buffer app with
    | [] => 0
    | _ =>
      match final_estimates (mic_buffer app) (mic_sample_rate app) with
      | Ok [] => 0
      | Ok segment_bpms =>
        match show_final (final_consensus segment_bpms) with
        | Ok _ => final_consensus segment_bpms
        | Raise _ => 0
        end
      | Raise _ => 0
      end
    end in
  (final_mic_bpm, set_mic_buffer app []).

End FinalAnalysis.

(** ** [analyzer.py]: [BPMGUIApp._analyze_file_thread]

    The decoded, normalized samples, the frame rate and the segment length
    in samples (line 633) are the inputs; the file is cut into segments
    without overlap and each one analyzed.  The calls into Tk (progress
    bar, labels, chart) are left out. *)

(** Line 639: the number of segments; the division raises
    [ZeroDivisionError] for a zero segment length. *)
Definition file_total_segments (len segment_samples : Z) : result Z :=
  let overlap_samples := 0%Z in
  if (segment_samples - overlap_samples =? 0)%Z then Raise ZeroDivisionError
  else
    Ok (Z.max 1 (Z.quot (len - segment_samples)
                   (segment_samples - overlap_samples) + 1)).

(** Lines 643-649: where segment [i] starts and ends. *)
Definition file_segment_bounds (len segment_samples i : Z) : Z * Z :=
  let overlap_samples := 0%Z in
  let start_idx := (i * (segment_samples - overlap_samples))%Z in
  let end_idx := (start_idx + segment_samples)%Z in
  if (len <? end_idx)%Z
  then (Z.max 0 (len - segment_samples), len)
  else (start_idx, end_idx).

Section FileAnalysis.

Variable sqrtQ : Q -> Q.
Variable magnitude_spectrum : list fval -> list fval.

(** Lines 641-661: [time_bpm_pairs] grows by one pair per segment; an
    exception ends the loop with the pairs appended so far. *)
Fixpoint file_loop (samples : list Q) (frame_rate segment_samples : Z)
  (indices : list Z) (time_bpm_pairs : list (Q * Q))
  : list (Q * Q) * option exn :=
  match indices with
  | [] => (time_bpm_pairs, None)
  | i :: rest =>
    let '(start_idx, end_idx) :=
      file_segment_bounds (Py.len samples) segment_samples i in
    let segment := Py.slice samples start_idx end_idx in
    if (frame_rate =? 0)%Z then (time_bpm_pairs, Some ZeroDivisionError)
    else
      let segment_time := inject_Z start_idx / inject_Z frame_rate in
      match analyze sqrtQ magnitude_spectrum segment frame_rate with
      | Ok bpm =>
        file_loop samples frame_rate segment_samples rest
          (time_bpm_pairs ++ [(segment_time, bpm)])
      | Raise e => (time_bpm_pairs, Some e)
      end
  end.

(** [_analyze_file_thread]: the pairs left in [time_bpm_pairs] and the
    average handed to [_update_bpm_display], which becomes the reference
    tempo; there is none when an exception ended the run. *)
Definition _analyze_file_thread (samples : list Q)
  (frame_rate segment_samples : Z) : list (Q * Q) * option Q :=
  match file_total_segments (Py.len samples) segment_samples with
  | Raise _ => ([], None)
  | Ok total_segments =>
    match file_loop samples frame_rate segment_samples
            (Py.range total_segments) [] with
    | (time_bpm_pairs, Some _) => (time_bpm_pairs, None)
    | (time_bpm_pairs, None) =>
      match time_bpm_pairs with
      | [] => (time_bpm_pairs, None)
      | _ => (time_bpm_pairs, Some (Np.mean (map snd time_bpm_pairs)))
      end
    end
  end.

End FileAnalysis.

(** ** [bpm_gui_app.py]: the analyzer of the stand-alone application

    The older [BPMAnalyzer] of [bpm_gui_app.py] detects beats as peaks of
    the frame energy and takes the tempo from the mean interval.  Samples
    are finite, energies floats: the energy of an empty frame is 0/0. *)

Module GuiApp.

Record BPMAnalyzer : Type := {
  frame_size : Z;
  hop_size : Z
}.

(** [np.sum(frame ** 2) / len(frame)] *)
Definition energy (frame : list Q) : fval :=
  F.div (Fin (Np.sum (map (fun x => x * x) frame)))
        (Fin (inject_Z (Py.len frame))).

(** [np.sign] *)
Definition sign (x : Q) : Q :=
  if Qlt_le_dec 0 x then 1 else if Qlt_le_dec x 0 then - (1) else 0.

(** [np.diff] *)
Fixpoint diff (l : list Q) : list Q :=
  match l with
  | x :: ((y :: _) as t) => (y - x) :: diff t
  | _ => []
  end.

(** [np.sum(np.abs(np.diff(np.sign(frame)))) / 2] *)
Definition zero_crossing (frame : list Q) : Q :=
  Np.sum (map Qabs (diff (map sign frame))) / 2.

(** Lines 144-147: the energies of the frames of the recent audio. *)
Definition recent_energies (self : BPMAnalyzer) (recent_frames : list Q)
  : result (list fval) :=
  js <- Py.range3 0 (Py.len recent_frames - frame_size self) (hop_size self) ;;
  Ok (map (fun j => energy (Py.slice recent_frames j (j + frame_size self)))
          js).

(** Lines 139-154: the energy threshold of the frame at [i]. *)
Definition energy_threshold (self : BPMAnalyzer) (audio_data : list Q) (i : Z)
  : result fval :=
  if (0 <? i)%Z
  then
    let recent_frames_start := Z.max 0 (i - 5 * hop_size self) in
    let recent_frames :=
      Py.slice audio_data recent_frames_start (i + frame_size self) in
    energies <- recent_energies self recent_frames ;;
    match energies with
    | [] => Ok (Fin (1 # 100))
    | _ => Ok (F.mul (Fin (6 # 5)) (F.mean energies))
    end
  else Ok (Fin (1 # 100)).

(** Lines 129-169: whether the frame at [i] is appended to [beats]. *)
Definition is_beat (self : BPMAnalyzer) (audio_data : list Q) (i : Z)
  : result bool :=
  let frame := Py.slice audio_data i (i + frame_size self) in
  let energy_i := energy frame in
  let zero_crossing_i := zero_crossing frame in
  threshold <- energy_threshold self audio_data i ;;
  let zero_crossing_threshold := 30 in
  if (0 <? i)%Z
     && (i + frame_size self + hop_size self <? Py.len audio_data)%Z
  then
    let prev_frame :=
      Py.slice audio_data (i - hop_size self)
        (i - hop_size self + frame_size self) in
    let next_frame :=
      Py.slice audio_data (i + hop_size self)
        (i + hop_size self + frame_size self) in
    let prev_energy := energy prev_frame in
    let next_energy := energy next_frame in
    Ok (F.gt energy_i prev_energy && F.gt energy_i next_energy
        && F.gt energy_i threshold
        && (if Qlt_le_dec zero_crossing_threshold zero_crossing_i
            then true else false))
  else Ok false.

Fixpoint detect_loop (self : BPMAnalyzer) (audio_data : list Q)
  (indices : list Z) : result (list Z) :=
  match indices with
  | [] => Ok []
  | i :: rest =>
    b <- is_beat self audio_data i ;;
    beats <- detect_loop self audio_data rest ;;
    Ok (if b then i :: beats else beats)
  end.

(** [BPMAnalyzer._detect_beats]: the beat positions, in samples. *)
Definition _detect_beats (self : BPMAnalyzer) (audio_data : list Q)
  (sample_rate : Z) : result (list Z) :=
  indices <-
    Py.range3 0 (Py.len audio_data - frame_size self) (hop_size self) ;;
  detect_loop self audio_data indices.

(** Lines 188-192: the intervals between consecutive beats, in seconds;
    the division of two integers raises for a zero sample rate. *)
Definition intervals_of (beat_positions : list Z) (sample_rate : Z)
  : result (list Q) :=
  match Py.range2 1 (Py.len beat_positions) with
  | [] => Ok []
  | indices =>
    if (sample_rate =? 0)%Z then Raise ZeroDivisionError
    else
      Ok (map (fun i =>
                 inject_Z (nth (Z.to_nat i) beat_positions 0%Z
                           - nth (Z.to_nat (i - 1)) beat_positions 0%Z)
                 / inject_Z sample_rate) indices)
  end.

(** Lines 196-210: the intervals within the fence, or all of them when
    none is. *)
Definition filtered_intervals (intervals : list Q) : list Q :=
  let q1 := Np.percentile intervals 25 in
  let q3 := Np.percentile intervals 75 in
  let iqr := q3 - q1 in
  let lower_bound := q1 - (3 # 2) * iqr in
  let upper_bound := q3 + (3 # 2) * iqr in
  let filtered_intervals :=
    filter (fun interval =>
              Qle_bool lower_bound interval && Qle_bool interval upper_bound)
           intervals in
  match filtered_intervals with
  | [] => intervals
  | _ => filtered_intervals
  end.

(** Lines 213-221: the tempo of the mean interval, if within [40, 220];
    [None] is Python's [None].  A mean interval of 0 gives an infinite
    tempo, which is out of range. *)
Definition bpm_of_intervals (filtered_intervals : list Q) : option Q :=
  match filtered_intervals with
  | [] => None
  | _ =>
    let avg_interval := Np.mean filtered_intervals in
    if Qeq_bool avg_interval 0 then None
    else
      let bpm := 60 / avg_interval in
      if Qle_bool 40 bpm && Qle_bool bpm 220 then Some bpm else None
  end.

(** [BPMAnalyzer._calculate_bpm] *)
Definition _calculate_bpm (beat_positions : list Z) (sample_rate : Z)
  : result (option Q) :=
  if (Py.len beat_positions <? 2)%Z then Ok None
  else
    intervals <- intervals_of beat_positions sample_rate ;;
    match intervals with
    | [] => Ok None
    | _ => Ok (bpm_of_intervals (filtered_intervals intervals))
    end.

(** [BPMAnalyzer.analyze_audio_data] *)
Definition analyze_audio_data (self : BPMAnalyzer) (audio_data : list Q)
  (sample_rate : Z) : result (option Q) :=
  if (Py.len audio_data <? frame_size self)%Z then Ok None
  else
    beats <- _detect_beats self audio_data sample_rate ;;
    match beats with
    | [] => Ok None
    | _ => _calculate_bpm beats sample_rate
    end.

End GuiApp.

(** [n] beat positions, the first at [p0], each [d] samples after the one
    before. *)
Definition steady_positions (p0 d : Z) (n : nat) : list Z :=
  map (fun k => (p0 + Z.of_nat k * d)%Z) (seq 0 n).

(** ** [analyzer.py]: the comparison of a recording with the reference *)

(** The trend of line 2123-2137, with the percentage it is shown with. *)
Inductive trend : Type :=
| Speeding_up (trend_percent : Q)
| Slowing_down (trend_percent : Q)
| Consistent
| Insufficient_data.

(** The metrics handed to [_show_comparison_report] (evaluation texts
    apart). *)
Record comparison_metrics : Type := {
  reference_bpm : Q;
  avg_mic_bpm : Q;
  median_mic_bpm : Q;
  bpm_diff : Q;
  bpm_percent_diff : Q;
  stability_score : Q;
  consistency_2 : Q;
  consistency_5 : Q;
  consistency_10 : Q;
  timing_trend : trend
}.

(** [[(t, b) for (t, b) in pairs if t >= start]] *)
Definition from_position (start : Q) (pairs : list (Q * Q)) : list (Q * Q) :=
  filter (fun p => Qle_bool start (fst p)) pairs.

(** [[bpm for _, bpm in pairs if bpm > 0]] *)
Definition positive_bpms (pairs : list (Q * Q)) : list Q :=
  map snd (filter (fun p => if Qlt_le_dec 0 (snd p) then true else false)
             pairs).

(** Lines 2103-2105: how many readings lie within [percent] percent of the
    reference. *)
Definition within_percent (ref_bpm_for_compare percent : Q)
  (mic_bpms : list Q) : Z :=
  Py.len
    (filter (fun bpm =>
               Qle_bool (Qabs (bpm - ref_bpm_for_compare)
                         / ref_bpm_for_compare * 100) percent)
            mic_bpms).

(** Lines 2107-2109 *)
Definition consistency (within : Z) (mic_bpms : list Q) : Q :=
  inject_Z within / inject_Z (Py.len mic_bpms) * 100.

(** Lines 2119-2121: [np.mean(bpms) if bpms else 0] *)
Definition mean_or_zero (bpms : list Q) : Q :=
  match bpms with
  | [] => 0
  | _ => Np.mean bpms
  end.

(** Lines 2113-2137 *)
Definition trend_of (mic_pairs : list (Q * Q)) : trend :=
  if (3 <=? Py.len mic_pairs)%Z
  then
    let third := (Py.len mic_pairs / 3)%Z in
    let first_third_bpms := positive_bpms (Py.slice_to mic_pairs third) in
    let last_third_bpms :=
      positive_bpms (Py.slice_from mic_pairs (2 * third)) in
    let first_avg := mean_or_zero first_third_bpms in
    let last_avg := mean_or_zero last_third_bpms in
    if Qlt_le_dec 0 first_avg
    then
      if Qlt_le_dec 0 last_avg
      then
        let trend_diff := last_avg - first_avg in
        let trend_percent := Qabs trend_diff / first_avg * 100 in
        if Qlt_le_dec 0 trend_diff
        then
          if Qlt_le_dec 5 trend_percent then Speeding_up trend_percent
          else Consistent
        else if Qlt_le_dec trend_diff 0
        then
          if Qlt_le_dec 5 trend_percent then Slowing_down trend_percent
          else Consistent
        else Consistent
      else Insufficient_data
    else Insufficient_data
  else Insufficient_data.

Section Comparison.

Variable sqrtQ : Q -> Q.

(** [np.std] *)
Definition std (l : list Q) : Q :=
  let m := Np.mean l in
  sqrtQ (Np.mean (map (fun x => (x - m) * (x - m)) l)).

(** [_perform_detailed_bpm_comparison]: the metrics of the report, or
    [None] where the method shows a message and returns (lines 2078-2080
    and 2087-2089).  [reference] is [self.reference_bpm], [start_ref] and
    [start_mic] the positions of the two seek bars. *)
Definition _perform_detailed_bpm_comparison
  (recorded_mic_bpm_data time_bpm_pairs : list (Q * Q))
  (reference start_ref start_mic : Q) : option comparison_metrics :=
  let mic_pairs := from_position start_mic recorded_mic_bpm_data in
  let mic_bpms := positive_bpms mic_pairs in
  match mic_bpms with
  | [] => None
  | _ =>
    let ref_pairs := from_position start_ref time_bpm_pairs in
    let ref_bpms := positive_bpms ref_pairs in
    let ref_bpm_for_compare :=
      match ref_bpms with
      | [] => reference
      | _ => Np.mean ref_bpms
      end in
    if Qlt_le_dec 0 ref_bpm_for_compare
    then
      let avg := Np.mean mic_bpms in
      let diff := Qabs (avg - ref_bpm_for_compare) in
      let bpm_std := std mic_bpms in
      Some {|
        reference_bpm := ref_bpm_for_compare;
        avg_mic_bpm := avg;
        median_mic_bpm := Np.median mic_bpms;
        bpm_diff := diff;
        bpm_percent_diff := diff / ref_bpm_for_compare * 100;
        stability_score := 100 - Qmin 100 (bpm_std * 10);
        consistency_2 :=
          consistency (within_percent ref_bpm_for_compare 2 mic_bpms) mic_bpms;
        consistency_5 :=
          consistency (within_percent ref_bpm_for_compare 5 mic_bpms) mic_bpms;
        consistency_10 :=
          consistency (within_percent ref_bpm_for_compare 10 mic_bpms)
            mic_bpms;
        timing_trend := trend_of mic_pairs
      |}
    else None
  end.

End Comparison.

(** ** [analyzer.py]: the charts and the range selector *)

(** Lines 1459-1463 of [_highlight_current_bpm_position]: the tempo shown
    while the file plays; the loop stops at the first pair that lies after
    the playback position. *)
Fixpoint current_bpm_loop (time_bpm_pairs : list (Q * Q)) (current_time : Q)
  (current_bpm : option Q) : option Q :=
  match time_bpm_pairs with
  | [] => current_bpm
  | (time_seconds, bpm) :: rest =>
    if Qlt_le_dec current_time time_seconds then current_bpm
    else current_bpm_loop rest current_time (Some bpm)
  end.

Definition current_bpm_at (time_bpm_pairs : list (Q * Q)) (current_time : Q)
  : option Q :=
  current_bpm_loop time_bpm_pairs current_time None.

(** [np.min] and [np.max] of a non-empty sequence [x, l...]. *)
Definition np_min (x : Q) (l : list Q) : Q := fold_left Qmin l x.

Definition np_max (x : Q) (l : list Q) : Q := fold_left Qmax l x.

(** Lines 739-741 of [_create_bpm_chart] and 1952-1956 of
    [_update_mic_bpm_chart]: the limits of the tempo axis for the values
    [x, l...]. *)
Definition ylim (x : Q) (l : list Q) : Q * Q :=
  let min_bpm := Qmax 40 (np_min x l - 10) in
  let max_bpm := Qmin 220 (np_max x l + 10) in
  (min_bpm, max_bpm).

(** Line 1947: [[bpm for bpm in bpms if bpm > 0]] *)
Definition valid_bpms (bpms : list Q) : list Q :=
  filter (fun bpm => if Qlt_le_dec 0 bpm then true else false) bpms.

(** The range selector under the reference chart: the two Tk variables and
    the two attributes. *)
Record range_selector : Type := {
  ref_range_start_var : Q;
  ref_range_end_var : Q;
  ref_range_start : Q;
  ref_range_end : Q
}.

(** The [kind] argument of [_on_ref_range_change]: ['start'] or anything
    else. *)
Inductive handle : Type := handle_start | handle_other.

(** [_on_ref_range_change] *)
Definition _on_ref_range_change (self : range_selector) (kind : handle)
  (val : Q) : range_selector :=
  let start_val := ref_range_start_var self in
  let end_val := ref_range_end_var self in
  match kind with
  | handle_start =>
    if Qlt_le_dec end_val val
    then {| ref_range_start_var := ref_range_start_var self;
            ref_range_end_var := val;
            ref_range_start := val;
            ref_range_end := val |}
    else {| ref_range_start_var := ref_range_start_var self;
            ref_range_end_var := ref_range_end_var self;
            ref_range_start := val;
            ref_range_end := end_val |}
  | handle_other =>
    if Qlt_le_dec val start_val
    then {| ref_range_start_var := val;
            ref_range_end_var := ref_range_end_var self;
            ref_range_start := val;
            ref_range_end := val |}
    else {| ref_range_start_var := ref_range_start_var self;
            ref_range_end_var := ref_range_end_var self;
            ref_range_start := start_val;
            ref_range_end := val |}
  end.

(** [_value_from_canvas_x] for a canvas [winfo_width] wide and an audio
    of [duration] seconds. *)
Definition _value_from_canvas_x (winfo_width x : Z) (duration : Q) : Q :=
  let w := Z.max 1 winfo_width in
  let margin := 10%Z in
  let usable := Z.max 1 (w - 2 * margin) in
  let pos := Z.max margin (Z.min (w - margin) x) in
  let rel := inject_Z (pos - margin) / inject_Z usable in
  Qmax 0 (Qmin duration (rel * duration)).

(** [_on_range_canvas_drag] *)
Definition _on_range_canvas_drag (self : range_selector)
  (winfo_width x : Z) (duration : Q) : range_selector :=
  let new_val := _value_from_canvas_x winfo_width x duration in
  _on_ref_range_change self handle_other new_val.

(** ** [bpm_core.py]: [BPMAnalyzer.analyze_audio_file]

    What pydub hands over once the file is read, mixed down to one channel
    and resampled: the width of a sample in bytes, the frame rate and the
    integer samples. *)
Record AudioSegment : Type := {
  sample_width : Z;
  frame_rate : Z;
  array_of_samples : list Z
}.

(** Line 274: [2 ** (sample_width * 8 - 1)]; a negative exponent gives
    Python's float power. *)
Definition max_val (audio : AudioSegment) : Q :=
  let e := (sample_width audio * 8 - 1)%Z in
  if (e <? 0)%Z then 1 / inject_Z (2 ^ (- e)) else inject_Z (2 ^ e).

(** Line 275: [samples / max_val] *)
Definition normalized_samples (audio : AudioSegment) : list Q :=
  map (fun s => inject_Z s / max_val audio) (array_of_samples audio).

Section AudioFile.

Variable sqrtQ : Q -> Q.
Variable magnitude_spectrum : list fval -> list fval.

(** [analyze_audio_file]: [decoded] is the outcome of lines 261-271, an
    exception when the file cannot be read.  Every exception ends in the
    handler of line 282, which returns 0. *)
Definition analyze_audio_file (self : BPMAnalyzer)
  (decoded : result AudioSegment) : Q :=
  match decoded with
  | Raise _ => 0
  | Ok audio =>
    let samples := normalized_samples audio in
    match analyze_audio_data sqrtQ magnitude_spectrum self samples
            (frame_rate audio) with
    | Ok bpm => bpm
    | Raise _ => 0
    end
  end.

End AudioFile.

(** ** [bpm_visuals.py]: [plot_deviation_heatmap]

    The three sequences are aligned, one entry per reading, as numpy's
    boolean indexing demands. *)

(** [np.linspace(start, stop, num)] for [num >= 0]. *)
Definition linspace (start stop : Q) (num : Z) : list Q :=
  map (fun i => start + inject_Z i * ((stop - start) / inject_Z (num - 1)))
      (Py.range num).

(** [array[mask]] *)
Definition select {A : Type} (mask : list bool) (array : list A) : list A :=
  map snd (filter fst (List.combine mask array)).

(** Lines 44-47: the readings of a cell; the last cell includes its right
    bound. *)
Definition cell_mask (times : list Q) (left right : Q) (is_last : bool)
  : list bool :=
  map (fun t =>
         Qle_bool left t
         && (if is_last then Qle_bool t right
             else if Qlt_le_dec t right then true else false))
      times.

(** Lines 48-55: the mean deviation of a cell in percent of the mean
    reference of the cell. *)
Definition cell_percent (mask : list bool) (valid_bpms ref_series : list Q)
  (sheet_bpm : Q) : Q :=
  if existsb (fun b => b) mask
  then
    let seg_mic := select mask valid_bpms in
    let seg_ref := select mask ref_series in
    let diff_mean :=
      Np.mean (map (fun p => fst p - snd p) (List.combine seg_mic seg_ref)) in
    let ref_mean :=
      if existsb (fun r => negb (Qeq_bool r 0)) seg_ref
      then Np.mean seg_ref else sheet_bpm in
    if Qlt_le_dec 0 ref_mean then diff_mean / ref_mean * 100 else 0
  else 0.

(** Line 35: the number of cells. *)
Definition cell_count (valid_times : list Q) (segment_count : Z) : Z :=
  if (segment_count <=? Py.len valid_times)%Z then segment_count
  else Z.max 1 (Py.len valid_times).

(** The mask of cell [i] of [count] cells. *)
Definition mask_of (valid_times : list Q) (count i : Z) : list bool :=
  let t_start := nth 0 valid_times 0 in
  let t_end := last valid_times 0 in
  let bounds := linspace t_start t_end (count + 1) in
  cell_mask valid_times (Py.item bounds i) (Py.item bounds (i + 1))
    (negb (i <? count - 1)%Z).

(** [plot_deviation_heatmap]: the percentages of the cells, left to
    right.  [np.linspace] raises [ValueError] for a negative number of
    points. *)
Definition plot_deviation_heatmap (valid_times valid_bpms ref_series : list Q)
  (sheet_bpm : Q) (segment_count : Z) : result (list Q) :=
  match valid_times, valid_bpms with
  | [], _ | _, [] => Ok (repeat 0 (Z.to_nat (Z.max 1 segment_count)))
  | _, _ =>
    let count := cell_count valid_times segment_count in
    if (count + 1 <? 0)%Z then Raise ValueError
    else
      Ok (map (fun i =>
                 cell_percent (mask_of valid_times count i) valid_bpms
                   ref_series sheet_bpm)
              (Py.range count))
  end.

(** ** [analyzer.py]: the recording written by [audio_callback] *)

(** [np.clip(x, -1.0, 1.0)] *)
Definition clip (x : Q) : Q := Qmin 1 (Qmax (- (1)) x).

(** [astype(np.int16)] of a float within the range of [int16]: the
    fraction is cut off. *)
Definition truncate (q : Q) : Z := Z.quot (Qnum q) (Z.pos (Qden q)).

(** Lines 1655-1656: the 16-bit sample written for the input sample
    [x]. *)
Definition pcm16 (x : Q) : Z := truncate (clip x * 32767).

(** The recording of a chunk as a 16-bit file read back by pydub. *)
Definition recorded (indata : list Q) (rate : Z) : AudioSegment :=
  {| sample_width := 2; frame_rate := rate;
     array_of_samples := map pcm16 indata |}.

(** ** [bpm_gui_app.py]: reading a 24-bit WAV file (lines 548-563) *)

(** Lines 553-558: one sample from its three bytes, low byte first. *)
Definition sample24 (b0 b1 b2 : Z) : Z :=
  let sample := Z.lor (Z.lor (Z.shiftl b2 16) (Z.shiftl b1 8)) b0 in
  if (Z.land sample 0x800000 =? 0)%Z then sample
  else (sample - 0x1000000)%Z.

(** Lines 549-559: the samples of the data bytes; [None] stands for the
    [IndexError] that [b[2]] raises on an incomplete last sample. *)
Fixpoint samples24 (audio_data : list Z) : option (list Z) :=
  match audio_data with
  | [] => Some []
  | b0 :: b1 :: b2 :: rest =>
    match samples24 rest with
    | Some samples => Some (sample24 b0 b1 b2 :: samples)
    | None => None
    end
  | _ => None
  end.

(** Line 563: [samples / 8388608.0] *)
Definition normalize24 (samples : list Z) : list Q :=
  map (fun s => inject_Z s / 8388608) samples.

(** A byte. *)
Definition byte (b : Z) : Prop := (0 <= b < 256)%Z.

(** The three bytes of the 24-bit two's complement of [v], low byte
    first. *)
Definition bytes24 (v : Z) : list Z :=
  [(v mod 256)%Z; ((v / 256) mod 256)%Z; ((v / 65536) mod 256)%Z].

(** ** [bpm_gui_app.py]: [BPMGUIApp._analyze_file_thread] (lines 585-641)

    The analysis of the decoded samples in segments of five seconds; the
    calls into Tk are left out. *)

Module StandAlone.

(** Lines 590-611: a pair for every segment that has a tempo. *)
Fixpoint file_loop (self : GuiApp.BPMAnalyzer) (samples : list Q)
  (sample_rate segment_size : Z) (indices : list Z) : result (list (Q * Q)) :=
  match indices with
  | [] => Ok []
  | i :: rest =>
    let start_idx := (i * segment_size)%Z in
    let end_idx := Z.min ((i + 1) * segment_size) (Py.len samples) in
    let segment := Py.slice samples start_idx end_idx in
    bpm <- GuiApp.analyze_audio_data self segment sample_rate ;;
    let current_time_seconds := inject_Z (i * 5) in
    pairs <- file_loop self samples sample_rate segment_size rest ;;
    match bpm with
    | Some b => Ok ((current_time_seconds, b) :: pairs)
    | None => Ok pairs
    end
  end.

(** The pairs left in [time_bpm_pairs] and the tempo left in
    [bpm_result], if any.  The floor division of line 588 raises
    [ZeroDivisionError] for a zero sample rate. *)
Definition _analyze_file_thread (self : GuiApp.BPMAnalyzer)
  (samples : list Q) (sample_rate : Z) : result (list (Q * Q) * option Q) :=
  let segment_size := (sample_rate * 5)%Z in
  if (segment_size =? 0)%Z then Raise ZeroDivisionError
  else
    let total_segments := Z.max 1 (Py.len samples / segment_size) in
    time_bpm_pairs <-
      file_loop self samples sample_rate segment_size
        (Py.range total_segments) ;;
    match time_bpm_pairs with
    | [] =>
      full_bpm <- GuiApp.analyze_audio_data self samples sample_rate ;;
      match full_bpm with
      | Some b => Ok ([(0, b)], Some b)
      | None => Ok ([], None)
      end
    | _ => Ok (time_bpm_pairs, Some (Np.mean (map snd time_bpm_pairs)))
    end.

End StandAlone.

(** * Properties *)

(** ** Worked examples *)

Example filter_example :
  _filter_outliers_iqr [60; 61; 59; 60; 200] = [60; 61; 59; 60].
Proof. vm_compute. reflexivity. Qed.

Example aggregate_example :
  Qred (aggregate default_analyzer [60; 61; 59; 60; 200]) = 60.
Proof. vm_compute. reflexivity. Qed.

Example candidates_example :
  map Qred (_calculate_bpm_candidates [0; 1 # 2]) = [60; 120].
Proof. vm_compute. reflexivity. Qed.

Example refine_example_20ms :
  refine_beats [1; 1 + (2 # 100); 3 # 2] = [1; 3 # 2].
Proof. vm_compute. reflexivity. Qed.

Example refine_example_50ms :
  refine_beats [1 # 20; 1 # 10] = [1 # 20].
Proof. vm_compute. reflexivity. Qed.

Example smooth_example :
  Qred (smooth [100; 180; 104; 102]) = Qred (Spec.live_bpm [100; 180; 104; 102]).
Proof. vm_compute. reflexivity. Qed.

Example callback_example :
  mic_buffer (audio_callback
    (mkBPMGUIApp [1; 2; 3; 4; 5; 6; 7; 8; 9] [] 1 0 0 0 3 []) [10; 11; 12])
  = [3; 4; 5; 6; 7; 8; 9; 10; 11; 12].
Proof. vm_compute. reflexivity. Qed.

Example analyze_empty :
  analyze_audio_data (fun x => x) (fun _ => []) default_analyzer [] 44100
  = Raise ValueError.
Proof. vm_compute. reflexivity. Qed.

Example analyze_short_silence :
  analyze_audio_data (fun x => x) (fun _ => []) default_analyzer [0; 0; 0] 44100
  = Ok 0.
Proof. vm_compute. reflexivity. Qed.

(** ** Python sequences *)

Lemma len_nonneg {A : Type} (l : list A) : (0 <= Py.len l)%Z.
Proof. unfold Py.len. lia. Qed.

Lemma range_length (n : Z) : length (Py.range n) = Z.to_nat n.
Proof. unfold Py.range. now rewrite length_map, length_seq. Qed.

Lemma range_succ (n : nat) :
  Py.range (Z.of_nat (S n)) = Py.range (Z.of_nat n) ++ [Z.of_nat n].
Proof.
  unfold Py.range. rewrite !Nat2Z.id, seq_S, map_app. reflexivity.
Qed.

Lemma in_range_iff (n i : Z) : In i (Py.range n) <-> (0 <= i < n)%Z.
Proof.
  unfold Py.range. rewrite in_map_iff. split.
  - intros (k & <- & Hk). apply in_seq in Hk. lia.
  - intros Hi. exists (Z.to_nat i). split; [lia|]. apply in_seq. lia.
Qed.

Lemma in_range2_iff (a b i : Z) : In i (Py.range2 a b) <-> (a <= i < b)%Z.
Proof.
  unfold Py.range2. rewrite in_map_iff. split.
  - intros (k & <- & Hk). apply in_seq in Hk. lia.
  - intros Hi. exists (Z.to_nat (i - a)). split; [lia|]. apply in_seq. lia.
Qed.

Lemma clamp_inside (n i : Z) : (0 <= i <= n)%Z -> Py.clamp n i = i.
Proof.
  intros Hi. unfold Py.clamp.
  destruct (Z.ltb_spec i 0); lia.
Qed.

Lemma clamp_beyond (n i : Z) : (0 <= n <= i)%Z -> Py.clamp n i = n.
Proof.
  intros Hi. unfold Py.clamp.
  destruct (Z.ltb_spec i 0); lia.
Qed.

Lemma clamp_bounds (n i : Z) : (0 <= n)%Z -> (0 <= Py.clamp n i <= n)%Z.
Proof.
  intros Hn. unfold Py.clamp.
  destruct (Z.ltb_spec i 0); lia.
Qed.

(** A slice with bounds inside the list is a [firstn] of a [skipn]. *)
Lemma slice_inside {A : Type} (l : list A) (i w : nat) :
  (i + w <= length l)%nat ->
  Py.slice l (Z.of_nat i) (Z.of_nat i + Z.of_nat w) = firstn w (skipn i l).
Proof.
  intros H. unfold Py.slice.
  rewrite !clamp_inside by lia.
  f_equal; [lia|]. f_equal. lia.
Qed.

(** [l[-k:]] keeps the last [k] elements when the list has at least [k],
    for a positive [k]. *)
Lemma slice_from_last {A : Type} (l : list A) (k : Z) :
  (0 < k <= Py.len l)%Z ->
  Py.slice_from l (- k) = skipn (length l - Z.to_nat k) l.
Proof.
  intros Hk. unfold Py.slice_from, Py.clamp, Py.len in *.
  destruct (Z.ltb_spec (- k) 0); [|lia].
  f_equal. lia.
Qed.

Lemma slice_from_one {A : Type} (l : list A) : Py.slice_from l 1 = tl l.
Proof.
  unfold Py.slice_from, Py.clamp. simpl.
  destruct l as [|x t]; [reflexivity|].
  replace (Z.to_nat _) with 1%nat; [reflexivity|].
  cbn [length]. lia.
Qed.

(** ** Sorting and the order statistics *)

Lemma insert_perm (x : Q) (l : list Q) : Permutation (Np.insert x l) (x :: l).
Proof.
  induction l as [|y t IH]; simpl; [reflexivity|].
  destruct (Qle_bool x y); [reflexivity|].
  rewrite IH. apply perm_swap.
Qed.

Lemma sort_perm (l : list Q) : Permutation (Np.sort l) l.
Proof.
  induction l as [|x t IH]; simpl; [reflexivity|].
  rewrite insert_perm. now constructor.
Qed.

Lemma sort_length (l : list Q) : length (Np.sort l) = length l.
Proof. apply Permutation_length, sort_perm. Qed.

Lemma sort_in (l : list Q) (v : Q) : In v (Np.sort l) <-> In v l.
Proof.
  split; apply Permutation_in; [|symmetry]; apply sort_perm.
Qed.

Lemma insert_sorted (x : Q) (l : list Q) :
  StronglySorted Qle l -> StronglySorted Qle (Np.insert x l).
Proof.
  induction 1 as [|y t Hs IH Hall]; simpl.
  - repeat constructor.
  - destruct (Qle_bool x y) eqn:E.
    + apply Qle_bool_iff in E.
      constructor; [now constructor|].
      constructor; [exact E|].
      eapply Forall_impl; [|exact Hall].
      intros z Hz. now apply Qle_trans with y.
    + assert (Hyx : y <= x).
      { destruct (Qlt_le_dec y x) as [H|H]; [now apply Qlt_le_weak|].
        apply Qle_bool_iff in H. congruence. }
      constructor; [exact IH|].
      eapply Permutation_Forall; [symmetry; apply insert_perm|].
      now constructor.
Qed.

Lemma sort_sorted (l : list Q) : StronglySorted Qle (Np.sort l).
Proof.
  induction l as [|x t IH]; simpl; [constructor|].
  now apply insert_sorted.
Qed.

Lemma sorted_nth (s : list Q) :
  StronglySorted Qle s ->
  forall i j, (i <= j < length s)%nat -> nth i s 0 <= nth j s 0.
Proof.
  induction 1 as [|x t Hs IH Hall]; intros i j Hij; simpl in Hij; [lia|].
  destruct i as [|i], j as [|j]; simpl; try lia.
  - apply Qle_refl.
  - rewrite Forall_forall in Hall. apply Hall, nth_In. lia.
  - apply IH. lia.
Qed.

(** Every order statistic of a list is one of its elements. *)
Lemma sort_nth_in (l : list Q) (i : nat) :
  (i < length l)%nat -> In (nth i (Np.sort l) 0) l.
Proof.
  intros Hi. apply sort_in, nth_In. now rewrite sort_length.
Qed.

(** The interpolation weight of a percentile lies in [0, 1). *)
Lemma weight_bounds (pos : Z) :
  0 <= inject_Z (pos mod 100) / 100 /\ inject_Z (pos mod 100) / 100 <= 1.
Proof.
  pose proof (Z.mod_pos_bound pos 100 eq_refl) as Hm.
  assert (H0 : 0 <= inject_Z (pos mod 100)).
  { change 0 with (inject_Z 0). rewrite <- Zle_Qle. lia. }
  assert (H1 : inject_Z (pos mod 100) <= 100).
  { change 100 with (inject_Z 100). rewrite <- Zle_Qle. lia. }
  split.
  - apply Qle_shift_div_l; [reflexivity|]. lra.
  - apply Qle_shift_div_r; [reflexivity|]. lra.
Qed.

(** A percentile lies between the two order statistics it interpolates. *)
Lemma percentile_between (l : list Q) (p : Z) :
  l <> [] -> (0 <= p <= 100)%Z ->
  let lo := ((Py.len l - 1) * p / 100)%Z in
  let hi := Z.min (lo + 1) (Py.len l - 1) in
  (0 <= lo <= hi)%Z /\ (hi <= Py.len l - 1)%Z /\
  Py.item (Np.sort l) lo <= Np.percentile l p /\
  Np.percentile l p <= Py.item (Np.sort l) hi.
Proof.
  intros Hl Hp lo hi.
  assert (Hn : (1 <= Py.len l)%Z).
  { unfold Py.len. destruct l; [congruence|]. cbn [length]. lia. }
  assert (Hlo : (0 <= lo <= Py.len l - 1)%Z).
  { subst lo. split.
    - apply Z.div_pos; nia.
    - apply Z.div_le_upper_bound; nia. }
  assert (Hhi : (lo <= hi <= Py.len l - 1)%Z) by (subst hi; lia).
  split; [lia|]. split; [lia|].
  assert (Hab : Py.item (Np.sort l) lo <= Py.item (Np.sort l) hi).
  { unfold Py.item. apply sorted_nth; [apply sort_sorted|].
    rewrite sort_length. unfold Py.len in *. lia. }
  unfold Np.percentile. fold lo. fold hi.
  destruct (weight_bounds ((Py.len l - 1) * p)) as [Ht0 Ht1].
  set (t := inject_Z (((Py.len l - 1) * p) mod 100) / 100) in *.
  set (a := Py.item (Np.sort l) lo) in *.
  set (b := Py.item (Np.sort l) hi) in *.
  split; nra.
Qed.

Lemma filter_nonempty {A : Type} (f : A -> bool) (l : list A) (v : A) :
  In v l -> f v = true -> filter f l <> [].
Proof.
  intros Hin Hf Hnil.
  assert (H : In v (filter f l)) by (apply filter_In; auto).
  rewrite Hnil in H. exact H.
Qed.

Lemma item_sort_in (l : list Q) (i : Z) :
  (0 <= i < Py.len l)%Z -> In (Py.item (Np.sort l) i) l.
Proof.
  intros Hi. unfold Py.item. apply sort_nth_in. unfold Py.len in Hi. lia.
Qed.

(** Some value of a non-empty list lies between its quartiles' fence. *)
Lemma fence_inhabited (values : list Q) :
  values <> [] ->
  exists v, In v values /\ Spec.withinb (Spec.fence values) v = true.
Proof.
  intros Hne.
  destruct (percentile_between values 25 Hne ltac:(lia)) as (Hi1 & Hh1 & Ha1 & Hb1).
  destruct (percentile_between values 75 Hne ltac:(lia)) as (Hi3 & Hh3 & Ha3 & Hb3).
  cbv zeta in *.
  set (n := Py.len values) in *.
  set (lo1 := ((n - 1) * 25 / 100)%Z) in *.
  set (lo3 := ((n - 1) * 75 / 100)%Z) in *.
  set (hi1 := Z.min (lo1 + 1) (n - 1)) in *.
  set (hi3 := Z.min (lo3 + 1) (n - 1)) in *.
  assert (Hcase : (n = 2 \/ hi1 <= lo3)%Z).
  { subst hi1 lo1 lo3. Z.to_euclidean_division_equations. lia. }
  destruct Hcase as [H2 | Hle].
  - (* two values: the smaller one lies within the fence *)
    assert (lo1 = 0 /\ hi1 = 1 /\ lo3 = 0 /\ hi3 = 1)%Z as (E1 & E2 & E3 & E4).
    { subst hi1 hi3 lo1 lo3. rewrite H2. repeat split. }
    exists (Py.item (Np.sort values) 0). split.
    + apply item_sort_in. fold n. lia.
    + unfold Spec.withinb, Spec.fence, Np.percentile. cbn [fst snd].
      fold n. rewrite H2. cbn -[Np.sort Qle_bool Qplus Qminus Qmult Qdiv inject_Z].
      rewrite E1, E2 in *.
      set (a := Py.item (Np.sort values) 0) in *.
      set (b := Py.item (Np.sort values) 1) in *.
      assert (Hab : a <= b).
      { subst a b. unfold Py.item. apply sorted_nth; [apply sort_sorted|].
        rewrite sort_length. unfold n, Py.len in H2. simpl. lia. }
      apply andb_true_iff. split; apply Qle_bool_iff.
      * change (inject_Z 25 / 100) with (25 # 100).
        change (inject_Z 75 / 100) with (75 # 100).
        lra.
      * change (inject_Z 25 / 100) with (25 # 100).
        change (inject_Z 75 / 100) with (75 # 100).
        lra.
  - (* otherwise an order statistic lies between the quartiles *)
    exists (Py.item (Np.sort values) hi1). split.
    + apply item_sort_in. fold n. lia.
    + assert (Hmid : Py.item (Np.sort values) hi1 <= Py.item (Np.sort values) lo3).
      { unfold Py.item. apply sorted_nth; [apply sort_sorted|].
        rewrite sort_length. unfold n, Py.len in *. lia. }
      unfold Spec.withinb, Spec.fence. cbn [fst snd].
      apply andb_true_iff. split; apply Qle_bool_iff; lra.
Qed.

(** ** Means and medians stay within the bounds of the data *)

Section Bounds.

Variables lo hi : Q.

Lemma inject_len_cons {A : Type} (x : A) (t : list A) :
  inject_Z (Py.len (x :: t)) == inject_Z (Py.len t) + 1.
Proof.
  unfold Py.len. cbn [length].
  rewrite Nat2Z.inj_succ, <- Z.add_1_r, inject_Z_plus. reflexivity.
Qed.

Lemma inject_len_pos {A : Type} (l : list A) :
  l <> [] -> 0 < inject_Z (Py.len l).
Proof.
  intros Hl. change 0 with (inject_Z 0). rewrite <- Zlt_Qlt.
  unfold Py.len. destruct l; [congruence|]. cbn [length]. lia.
Qed.

Lemma sum_bounds (l : list Q) :
  Forall (bounded lo hi) l ->
  inject_Z (Py.len l) * lo <= Np.sum l /\ Np.sum l <= inject_Z (Py.len l) * hi.
Proof.
  induction 1 as [|x t [Hx1 Hx2] Ht [IH1 IH2]].
  - change (inject_Z (Py.len (@nil Q))) with 0.
    change (Np.sum []) with 0. split; lra.
  - rewrite inject_len_cons. cbn [Np.sum fold_right].
    fold (Np.sum t). split; ring_simplify; lra.
Qed.

Lemma mean_bounds (l : list Q) :
  l <> [] -> Forall (bounded lo hi) l -> bounded lo hi (Np.mean l).
Proof.
  intros Hl Hall. destruct (sum_bounds l Hall) as [H1 H2].
  pose proof (inject_len_pos l Hl) as Hpos.
  unfold bounded, Np.mean. split.
  - apply Qle_shift_div_l; [exact Hpos|]. lra.
  - apply Qle_shift_div_r; [exact Hpos|]. lra.
Qed.

Lemma median_bounds (l : list Q) :
  l <> [] -> Forall (bounded lo hi) l -> bounded lo hi (Np.median l).
Proof.
  intros Hl Hall. rewrite Forall_forall in Hall.
  assert (Hn : (0 < length l)%nat) by (destruct l; [congruence|cbn; lia]).
  assert (Hhalf : (length l / 2 < length l)%nat)
    by (apply Nat.div_lt; lia).
  assert (H2 : bounded lo hi (nth (length l / 2) (Np.sort l) 0))
    by (apply Hall, sort_nth_in; lia).
  assert (H1 : bounded lo hi (nth (length l / 2 - 1) (Np.sort l) 0))
    by (apply Hall, sort_nth_in; lia).
  unfold Np.median. destruct (Nat.even (length l)); [|exact H2].
  destruct H1, H2. unfold bounded. split.
  - apply Qle_shift_div_l; [reflexivity|]. lra.
  - apply Qle_shift_div_r; [reflexivity|]. lra.
Qed.

Lemma filter_bounded (f : Q -> bool) (l : list Q) :
  Forall (bounded lo hi) l -> Forall (bounded lo hi) (filter f l).
Proof.
  rewrite !Forall_forall. intros H v Hv. apply filter_In in Hv. now apply H.
Qed.

End Bounds.

(** ** The moving average as sliding windows *)

Lemma range_cons (n : nat) :
  Py.range (Z.of_nat (S n)) = 0%Z :: map Z.succ (Py.range (Z.of_nat n)).
Proof.
  unfold Py.range. rewrite !Nat2Z.id. cbn [seq map].
  f_equal. rewrite <- seq_shift, !map_map.
  apply map_ext. intros k. lia.
Qed.

Lemma slice_cons {A : Type} (a : A) (t : list A) (i j : Z) :
  (0 <= i)%Z -> (0 <= j)%Z ->
  Py.slice (a :: t) (Z.succ i) (Z.succ j) = Py.slice t i j.
Proof.
  intros Hi Hj. unfold Py.slice, Py.clamp. cbn [length].
  destruct (Z.ltb_spec (Z.succ i) 0), (Z.ltb_spec (Z.succ j) 0),
    (Z.ltb_spec i 0), (Z.ltb_spec j 0); try lia.
  replace (Z.to_nat (Z.min (Z.succ i) (Z.of_nat (S (length t)))))
    with (S (Z.to_nat (Z.min i (Z.of_nat (length t))))) by lia.
  cbn [skipn]. f_equal. lia.
Qed.

Lemma window_means_cons (a b c : Q) (t : list Q) :
  Spec.window_means (a :: b :: c :: t)
  = Np.mean [a; b; c] :: Spec.window_means (b :: c :: t).
Proof. reflexivity. Qed.

Lemma moving_average_windows (l : list Q) :
  (3 <= length l)%nat -> _moving_average l 3 = Spec.window_means l.
Proof.
  intros Hlen. unfold _moving_average.
  destruct (Z.ltb_spec (Py.len l) 3) as [H|_]; [unfold Py.len in H; lia|].
  induction l as [|a t IH]; [cbn in Hlen; lia|].
  destruct t as [|b [|c t']]; try (cbn in Hlen; lia).
  replace (Py.len (a :: b :: c :: t') - 3 + 1)%Z with (Z.of_nat (S (length t')))
    by (unfold Py.len; cbn [length]; lia).
  rewrite range_cons, window_means_cons. cbn [map]. f_equal.
  - change 0%Z with (Z.of_nat 0). change 3%Z with (Z.of_nat 3).
    rewrite slice_inside by (cbn [length]; lia). reflexivity.
  - rewrite map_map.
    destruct t' as [|d t''].
    + reflexivity.
    + rewrite <- IH by (cbn; lia).
      replace (Py.len (b :: c :: d :: t'') - 3 + 1)%Z
        with (Z.of_nat (length (d :: t'')))
        by (unfold Py.len; cbn [length]; lia).
      apply map_ext_in. intros i Hi. apply in_range_iff in Hi.
      replace (Z.succ i + 3)%Z with (Z.succ (i + 3)) by lia.
      rewrite slice_cons by lia. reflexivity.
Qed.

Lemma window_means_nonempty (l : list Q) :
  (3 <= length l)%nat -> Spec.window_means l <> [].
Proof.
  destruct l as [|a [|b [|c t]]]; cbn; intros H; try lia. discriminate.
Qed.

Lemma window_means_bounded (lo hi : Q) (l : list Q) :
  Forall (bounded lo hi) l -> Forall (bounded lo hi) (Spec.window_means l).
Proof.
  induction l as [|a t IH]; intros Hall; [constructor|].
  destruct t as [|b [|c t']]; try constructor.
  - apply mean_bounds; [discriminate|].
    inversion Hall as [|? ? Ha Ht]; subst.
    inversion Ht as [|? ? Hb Ht']; subst.
    inversion Ht' as [|? ? Hc _]; subst.
    constructor; [exact Ha|]. constructor; [exact Hb|].
    constructor; [exact Hc|]. constructor.
  - apply IH. now inversion Hall.
Qed.

(** ** The candidate generator *)

Lemma of_interval_eq (interval : Q) :
  0 < interval -> candidates_of_interval interval = Spec.of_interval interval.
Proof.
  intros H. unfold candidates_of_interval, Spec.of_interval.
  destruct (Qlt_le_dec 0 interval) as [_|H']; [reflexivity|].
  exfalso. apply (Qlt_irrefl 0). now apply Qlt_le_trans with interval.
Qed.

Lemma range2_cons (a : Z) (n : nat) :
  Py.range2 a (a + Z.of_nat (S n))
  = a :: Py.range2 (Z.succ a) (Z.succ a + Z.of_nat n).
Proof.
  unfold Py.range2.
  replace (a + Z.of_nat (S n) - a)%Z with (Z.of_nat (S n)) by lia.
  replace (Z.succ a + Z.of_nat n - Z.succ a)%Z with (Z.of_nat n) by lia.
  rewrite !Nat2Z.id. cbn [seq map]. f_equal; [lia|].
  rewrite <- seq_shift, map_map. apply map_ext. intros k. lia.
Qed.

Lemma intervals_cons (a b : Q) (t : list Q) :
  intervals_of (a :: b :: t) = (b - a) :: intervals_of (b :: t).
Proof.
  unfold intervals_of.
  replace (Py.len (a :: b :: t)) with (1 + Z.of_nat (S (length t)))%Z
    by (unfold Py.len; cbn [length]; lia).
  rewrite range2_cons. cbn [map]. f_equal.
  replace (Py.len (b :: t)) with (1 + Z.of_nat (length t))%Z
    by (unfold Py.len; cbn [length]; lia).
  unfold Py.range2.
  replace (Z.succ 1 + Z.of_nat (length t) - Z.succ 1)%Z
    with (Z.of_nat (length t)) by lia.
  replace (1 + Z.of_nat (length t) - 1)%Z with (Z.of_nat (length t)) by lia.
  rewrite !map_map. apply map_ext. intros k. unfold Py.item.
  replace (Z.to_nat (Z.succ 1 + Z.of_nat k)) with (S (Z.to_nat (1 + Z.of_nat k)))
    by lia.
  replace (Z.to_nat (Z.succ 1 + Z.of_nat k - 1))
    with (S (Z.to_nat (1 + Z.of_nat k - 1))) by lia.
  reflexivity.
Qed.

Lemma candidates_flat_map (beats : list Q) :
  flat_map candidates_of_interval (intervals_of beats) = Spec.candidates beats.
Proof.
  induction beats as [|a t IH]; [reflexivity|].
  destruct t as [|b t']; [reflexivity|].
  rewrite intervals_cons. cbn [flat_map Spec.candidates]. rewrite IH.
  reflexivity.
Qed.

Lemma candidates_in_range (beats : list Q) :
  Forall Spec.in_range (_calculate_bpm_candidates beats).
Proof.
  unfold _calculate_bpm_candidates.
  destruct (Py.len beats <? 2)%Z; [constructor|].
  apply Forall_forall. intros v Hv.
  apply in_flat_map in Hv. destruct Hv as (interval & _ & Hv).
  unfold candidates_of_interval in Hv.
  destruct (Qlt_le_dec 0 interval); [|contradiction].
  apply filter_In in Hv. destruct Hv as [_ Hv].
  apply andb_true_iff in Hv. destruct Hv as [H1 H2].
  apply Qle_bool_iff in H1, H2. split; assumption.
Qed.

(** ** The aggregator *)

Lemma filter_iqr_spec (values : list Q) :
  values <> [] ->
  _filter_outliers_iqr values = filter (Spec.withinb (Spec.fence values)) values.
Proof.
  intros H. destruct values; [congruence|]. reflexivity.
Qed.

Lemma filter_iqr_nonempty (values : list Q) :
  values <> [] -> _filter_outliers_iqr values <> [].
Proof.
  intros H. rewrite filter_iqr_spec by exact H.
  destruct (fence_inhabited values H) as (v & Hin & Hv).
  now apply filter_nonempty with v.
Qed.

Lemma withinb_iff (bounds : Q * Q) (v : Q) :
  Spec.withinb bounds v = true <-> Spec.within bounds v.
Proof.
  unfold Spec.withinb, Spec.within.
  rewrite andb_true_iff, !Qle_bool_iff. reflexivity.
Qed.

Lemma smooth_filtered_spec (frame hop : Z) (kept : list Q) :
  smooth_filtered (configured frame hop) kept
  = if (3 <=? length kept)%nat
    then Np.mean (Spec.window_means kept)
    else Np.mean kept.
Proof.
  unfold smooth_filtered. cbn [bpm_smoothing_window configured].
  destruct (Nat.leb_spec 3 (length kept)) as [H|H];
    destruct (Z.leb_spec 3 (Py.len kept)) as [H'|H'];
    unfold Py.len in H'; try lia.
  - now rewrite moving_average_windows.
  - reflexivity.
Qed.

Lemma smooth_filtered_bounded (lo hi : Q) (frame hop : Z) (kept : list Q) :
  kept <> [] -> Forall (bounded lo hi) kept ->
  bounded lo hi (smooth_filtered (configured frame hop) kept).
Proof.
  intros Hne Hall. rewrite smooth_filtered_spec.
  destruct (Nat.leb_spec 3 (length kept)) as [H|H].
  - apply mean_bounds.
    + now apply window_means_nonempty.
    + now apply window_means_bounded.
  - now apply mean_bounds.
Qed.

Lemma aggregate_bounded (lo hi : Q) (frame hop : Z) (candidates : list Q) :
  candidates <> [] -> Forall (bounded lo hi) candidates ->
  bounded lo hi (aggregate (configured frame hop) candidates).
Proof.
  intros Hne Hall. unfold aggregate.
  pose proof (filter_iqr_nonempty candidates Hne) as Hkept.
  assert (Hb : Forall (bounded lo hi) (_filter_outliers_iqr candidates)).
  { rewrite filter_iqr_spec by exact Hne. now apply filter_bounded. }
  destruct (_filter_outliers_iqr candidates) as [|k kept] eqn:E; [congruence|].
  now apply smooth_filtered_bounded.
Qed.

(** What follows beat detection returns 0 or a tempo within [40, 220]. *)
Lemma analyze_beats_range (frame hop : Z) (beats : list Q) :
  analyze_beats (configured frame hop) beats = 0
  \/ Spec.in_range (analyze_beats (configured frame hop) beats).
Proof.
  unfold analyze_beats. destruct beats as [|b t]; [now left|].
  destruct (_calculate_bpm_candidates (b :: t)) as [|c cs] eqn:E.
  - left. reflexivity.
  - right. apply (aggregate_bounded 40 220); [discriminate|].
    rewrite <- E. apply candidates_in_range.
Qed.

(** C1: for a non-empty list of candidates, the aggregator keeps exactly
    the values within [Q1 - 1.5 IQR, Q3 + 1.5 IQR] (in their order); with
    at least 3 kept values it returns the mean of the means of the 3-wide
    sliding windows, with fewer the mean of the kept values, and with none
    the median of all candidates.  For [60, 61, 59, 60, 200] the value 200
    is excluded and the result is 60. *)
Theorem aggregator_rejects_then_averages
  (frame hop : Z) (candidates : list Q) :
  candidates <> [] ->
  let kept := _filter_outliers_iqr candidates in
  kept = filter (Spec.withinb (Spec.fence candidates)) candidates
  /\ (forall v, In v kept <->
                In v candidates /\ Spec.within (Spec.fence candidates) v)
  /\ aggregate (configured frame hop) candidates = Spec.aggregator candidates
  /\ _filter_outliers_iqr [60; 61; 59; 60; 200] = [60; 61; 59; 60]
  /\ aggregate (configured frame hop) [60; 61; 59; 60; 200] == 60.
Proof.
  intros Hne kept. subst kept.
  pose proof (filter_iqr_spec candidates Hne) as Hspec.
  split; [exact Hspec|]. split; [|split; [|split]].
  - intros v. rewrite Hspec, filter_In, withinb_iff. reflexivity.
  - unfold aggregate, Spec.aggregator. rewrite <- Hspec.
    destruct (_filter_outliers_iqr candidates) as [|k kept] eqn:E.
    + destruct candidates; [congruence|reflexivity].
    + apply smooth_filtered_spec.
  - reflexivity.
  - reflexivity.
Qed.

Lemma aggregator_rejects_then_averages_witness :
  aggregate (configured 2048 512) [120; 121; 119] = Spec.aggregator [120; 121; 119].
Proof.
  apply (aggregator_rejects_then_averages 2048 512 [120; 121; 119]).
  discriminate.
Defined.

(** C2: fewer than 2 beats give no candidate; otherwise every consecutive
    pair with a positive interval contributes 60/interval times 0.5, 1 and
    2, each kept if and only if it lies within [40, 220], so between 0 and
    3 candidates per interval.  An interval of 0.5 s gives 60 and 120, and
    240 is rejected. *)
Theorem candidates_from_intervals (beats : list Q) :
  ((length beats < 2)%nat -> _calculate_bpm_candidates beats = [])
  /\ _calculate_bpm_candidates beats = Spec.candidates beats
  /\ (forall interval, 0 < interval ->
        candidates_of_interval interval = Spec.of_interval interval
        /\ (length (candidates_of_interval interval) <= 3)%nat
        /\ (forall v, In v (candidates_of_interval interval) <->
              In v [60 / interval * (1 # 2); 60 / interval * 1; 60 / interval * 2]
              /\ Spec.in_range v))
  /\ Forall2 Qeq (candidates_of_interval (1 # 2)) [60; 120]
  /\ Spec.in_rangeb (60 / (1 # 2) * 2) = false.
Proof.
  split; [|split; [|split; [|split]]].
  - intros H. unfold _calculate_bpm_candidates.
    destruct (Z.ltb_spec (Py.len beats) 2) as [_|H']; [reflexivity|].
    unfold Py.len in H'. lia.
  - unfold _calculate_bpm_candidates.
    destruct (Z.ltb_spec (Py.len beats) 2) as [H|_].
    + destruct beats as [|a [|b t]]; try reflexivity.
      unfold Py.len in H. cbn [length] in H. lia.
    + apply candidates_flat_map.
  - intros interval Hpos. rewrite of_interval_eq by exact Hpos.
    split; [reflexivity|]. split.
    + unfold Spec.of_interval.
      etransitivity; [apply filter_length_le|]. cbn. lia.
    + intros v. unfold Spec.of_interval. rewrite filter_In.
      unfold Spec.in_rangeb, Spec.in_range.
      rewrite andb_true_iff, !Qle_bool_iff. reflexivity.
  - repeat constructor.
  - reflexivity.
Qed.

Lemma candidates_from_intervals_witness :
  _calculate_bpm_candidates [3 # 2] = []
  /\ (length (candidates_of_interval (1 # 2)) <= 3)%nat.
Proof.
  split.
  - apply (proj1 (candidates_from_intervals [3 # 2])). cbn. lia.
  - apply (proj1 (proj2 (proj2 (candidates_from_intervals [])))
             (1 # 2)). reflexivity.
Defined.

(** C10: the IQR filter never empties a non-empty list, so with candidates
    present [analyze_audio_data] never takes the branch of line 47 and its
    result is that of lines 49-55 on the filtered list. *)
Theorem iqr_filter_keeps_a_value (self : BPMAnalyzer) (values : list Q) :
  values <> [] ->
  _filter_outliers_iqr values <> []
  /\ aggregate self values = smooth_filtered self (_filter_outliers_iqr values).
Proof.
  intros Hne. pose proof (filter_iqr_nonempty values Hne) as Hkept.
  split; [exact Hkept|].
  unfold aggregate.
  destruct (_filter_outliers_iqr values); [congruence|reflexivity].
Qed.

Lemma iqr_filter_keeps_a_value_witness :
  _filter_outliers_iqr [90; 200] <> [].
Proof.
  apply (iqr_filter_keeps_a_value default_analyzer [90; 200]). discriminate.
Defined.

(** ** The refractory merge *)

Lemma refine_step_last (refined_beats : list Q) (beat : Q) :
  refined_beats <> [] ->
  refine_step refined_beats beat
  = if Qlt_le_dec min_beat_interval (beat - last refined_beats 0)
    then refined_beats ++ [beat]
    else refined_beats.
Proof.
  intros H. destruct refined_beats; [congruence|]. reflexivity.
Qed.

Lemma refine_fold (rest acc : list Q) (x : Q) :
  fold_left refine_step rest (acc ++ [x]) = acc ++ x :: Spec.merge_le x rest.
Proof.
  revert acc x. induction rest as [|b t IH]; intros acc x; [reflexivity|].
  cbn [fold_left Spec.merge_le].
  rewrite refine_step_last by (destruct acc; discriminate).
  rewrite last_last. unfold min_beat_interval.
  destruct (Qlt_le_dec (5 # 100) (b - x)).
  - rewrite IH, <- app_assoc. reflexivity.
  - apply IH.
Qed.

Lemma refine_beats_merge (beats : list Q) :
  refine_beats beats = Spec.refractory_le beats.
Proof.
  unfold refine_beats. destruct beats as [|b t]; [reflexivity|].
  cbn [fold_left Spec.refractory_le].
  change (refine_step [] b) with ([] ++ [b]). apply refine_fold.
Qed.

Lemma merge_le_apart (rest : list Q) (x : Q) :
  Sorted Spec.apart (x :: Spec.merge_le x rest).
Proof.
  revert x. induction rest as [|b t IH]; intros x; cbn [Spec.merge_le].
  - repeat constructor.
  - destruct (Qlt_le_dec (5 # 100) (b - x)) as [Hgap|_]; [|apply IH].
    constructor; [apply IH|]. constructor. exact Hgap.
Qed.

Lemma apart_increasing (a b : Q) : Spec.apart a b -> a < b /\ 5 # 100 <= b - a.
Proof. unfold Spec.apart. intros H. split; lra. Qed.

Lemma sorted_apart_increasing (l : list Q) :
  Sorted Spec.apart l -> StronglySorted Qlt l.
Proof.
  intros H. apply Sorted_StronglySorted.
  - intros x y z. apply Qlt_trans.
  - induction H as [|a l Hs IH Hhd]; constructor; [exact IH|].
    destruct Hhd; constructor. now apply apart_increasing.
Qed.



(** ** Construction *)

(** C8, as the code has it: the constructor accepts every frame and hop
    size, also a hop size at or above the frame size, and stores both. *)
Theorem init_accepts_every_configuration (frame hop : Z) :
  exists self,
    init frame hop = Ok self
    /\ frame_size self = frame /\ hop_size self = hop
    /\ bpm_smoothing_window self = 3%Z
    /\ beat_threshold_multiplier self = 13 # 10.
Proof.
  exists (configured frame hop). repeat split.
Qed.

(** C8 as stated fails: a hop of 2048 samples over frames of 512 is not
    rejected. *)
Lemma init_hop_above_frame_counterexample :
  (2048 >= 512)%Z
  /\ init 512 2048 = Ok (configured 512 2048)
  /\ forall e, init 512 2048 <> Raise e.
Proof.
  split; [lia|]. split; [reflexivity|]. intros e. discriminate.
Qed.

(** ** The rolling buffer of the microphone loop *)

Lemma lastn_length {A : Type} (k : nat) (l : list A) :
  length (lastn k l) = Nat.min k (length l).
Proof. unfold lastn. rewrite length_skipn. lia. Qed.

Lemma lastn_suffix {A : Type} (k : nat) (l : list A) :
  exists dropped, l = dropped ++ lastn k l.
Proof.
  exists (firstn (length l - k) l). unfold lastn.
  now rewrite firstn_skipn.
Qed.

Lemma lastn_app {A : Type} (k : nat) (s c : list A) :
  lastn k (lastn k s ++ c) = lastn k (s ++ c).
Proof.
  destruct (Nat.le_gt_cases (length s) k) as [H|H].
  - unfold lastn at 2. replace (length s - k)%nat with 0%nat by lia.
    reflexivity.
  - pose proof (firstn_skipn (length s - k) s) as Hsplit.
    unfold lastn at 2.
    set (d := firstn (length s - k) s) in *.
    set (b := skipn (length s - k) s) in *.
    assert (Hd : length d = (length s - k)%nat)
      by (subst d; rewrite length_firstn; lia).
    assert (Hb : length b = k)
      by (subst b; rewrite length_skipn; lia).
    rewrite <- Hsplit. unfold lastn. rewrite <- app_assoc.
    rewrite !length_app.
    rewrite (skipn_app _ d).
    rewrite (skipn_all2 d) by lia. cbn [app].
    f_equal. lia.
Qed.

Lemma callback_buffer (app : BPMGUIApp) (indata : list Q) :
  (0 < mic_sample_rate app)%Z ->
  mic_buffer (audio_callback app indata)
  = lastn (Z.to_nat (mic_sample_rate app * 10)) (mic_buffer app ++ indata).
Proof.
  intros Hsr. unfold audio_callback, lastn.
  destruct (Z.ltb_spec (mic_sample_rate app * 10)
                       (Py.len (mic_buffer app ++ indata))) as [H|H];
    cbn [mic_buffer set_mic_buffer].
  - apply slice_from_last. lia.
  - unfold Py.len in H.
    replace (length (mic_buffer app ++ indata)
             - Z.to_nat (mic_sample_rate app * 10))%nat with 0%nat by lia.
    reflexivity.
Qed.

Lemma callback_sample_rate (app : BPMGUIApp) (indata : list Q) :
  mic_sample_rate (audio_callback app indata) = mic_sample_rate app.
Proof.
  unfold audio_callback.
  destruct (_ <? _)%Z; reflexivity.
Qed.

Lemma feed_sample_rate (chunks : list (list Q)) (app : BPMGUIApp) :
  mic_sample_rate (fold_left audio_callback chunks app) = mic_sample_rate app.
Proof.
  revert app. induction chunks as [|c cs IH]; intros app; [reflexivity|].
  cbn [fold_left]. now rewrite IH, callback_sample_rate.
Qed.

Lemma feed_buffer (chunks : list (list Q)) (app : BPMGUIApp) :
  (0 < mic_sample_rate app)%Z ->
  mic_buffer app = [] ->
  mic_buffer (fold_left audio_callback chunks app)
  = lastn (Z.to_nat (mic_sample_rate app * 10)) (concat chunks).
Proof.
  intros Hsr Hempty.
  induction chunks as [|c cs IH] using rev_ind.
  - cbn. rewrite Hempty. reflexivity.
  - rewrite fold_left_app, concat_app. cbn [fold_left concat].
    rewrite app_nil_r, callback_buffer by (now rewrite feed_sample_rate).
    rewrite feed_sample_rate, IH. apply lastn_app.
Qed.

(** C7: after a chunk is appended the buffer holds at most 10 seconds,
    [10 * mic_sample_rate] samples, and what it holds is the most recent
    part of what it held followed by the chunk: only the oldest samples are
    dropped, and none while the cap is not exceeded.  Fed chunk after chunk
    from the empty buffer, it holds the last 10 seconds of the stream. *)
Theorem rolling_buffer_keeps_last_10s
  (app : BPMGUIApp) (indata : list Q) (chunks : list (list Q)) :
  (0 < mic_sample_rate app)%Z ->
  let app' := audio_callback app indata in
  (Py.len (mic_buffer app') <= 10 * mic_sample_rate app)%Z
  /\ (exists dropped, mic_buffer app ++ indata = dropped ++ mic_buffer app')
  /\ Py.len (mic_buffer app')
     = Z.min (Py.len (mic_buffer app ++ indata)) (10 * mic_sample_rate app)
  /\ ((Py.len (mic_buffer app ++ indata) <= 10 * mic_sample_rate app)%Z ->
      mic_buffer app' = mic_buffer app ++ indata)
  /\ (mic_buffer app = [] ->
      exists dropped,
        concat chunks
        = dropped ++ mic_buffer (fold_left audio_callback chunks app)
        /\ Py.len (mic_buffer (fold_left audio_callback chunks app))
           = Z.min (Py.len (concat chunks)) (10 * mic_sample_rate app)).
Proof.
  intros Hsr app'. subst app'.
  rewrite callback_buffer by exact Hsr.
  set (cap := Z.to_nat (mic_sample_rate app * 10)).
  split; [|split; [|split; [|split]]].
  - unfold Py.len. rewrite lastn_length. lia.
  - apply lastn_suffix.
  - unfold Py.len. rewrite lastn_length. lia.
  - intros H. unfold lastn, Py.len in *.
    replace (length (mic_buffer app ++ indata) - cap)%nat with 0%nat by lia.
    reflexivity.
  - intros Hempty. rewrite feed_buffer by assumption. fold cap.
    destruct (lastn_suffix cap (concat chunks)) as [dropped Hd].
    exists dropped. split; [exact Hd|].
    unfold Py.len. rewrite lastn_length. lia.
Qed.

Lemma rolling_buffer_keeps_last_10s_witness :
  mic_buffer (audio_callback (mkBPMGUIApp [1; 2; 3] [] 1 0 0 0 3 []) [4; 5])
  = [1; 2; 3; 4; 5].
Proof.
  apply (rolling_buffer_keeps_last_10s
           (mkBPMGUIApp [1; 2; 3] [] 1 0 0 0 3 []) [4; 5] []).
  - reflexivity.
  - vm_compute. discriminate.
Defined.

(** ** The polling loop *)

Lemma record_sample_bpm (app : BPMGUIApp) (now_ts : Q) :
  mic_bpm (record_sample app now_ts) = mic_bpm app.
Proof. unfold record_sample. destruct (Qle_bool _ _); reflexivity. Qed.

Lemma record_sample_history (app : BPMGUIApp) (now_ts : Q) :
  mic_bpm_history (record_sample app now_ts) = mic_bpm_history app.
Proof. unfold record_sample. destruct (Qle_bool _ _); reflexivity. Qed.

Lemma record_sample_buffer (app : BPMGUIApp) (now_ts : Q) :
  mic_buffer (record_sample app now_ts) = mic_buffer app.
Proof. unfold record_sample. destruct (Qle_bool _ _); reflexivity. Qed.

Section MonitorFacts.

Variable sqrtQ : Q -> Q.
Variable magnitude_spectrum : list fval -> list fval.

Lemma monitor_pass_stable (app : BPMGUIApp) (now_ts : Q) :
  (mic_sample_rate app * 7 <= Py.len (mic_buffer app))%Z ->
  monitor_pass sqrtQ magnitude_spectrum app now_ts
  = stable_update sqrtQ magnitude_spectrum app now_ts.
Proof.
  intros H. unfold monitor_pass.
  destruct (Z.leb_spec (mic_sample_rate app * 7) (Py.len (mic_buffer app)));
    [reflexivity|lia].
Qed.

(** C6: in a pass of the stable phase in which none of the three segments
    yields a positive estimate, the live value keeps its value and nothing
    is appended to the history. *)
Theorem no_consensus_keeps_live_bpm (app : BPMGUIApp) (now_ts : Q) :
  (mic_sample_rate app * 7 <= Py.len (mic_buffer app))%Z ->
  segment_bpms sqrtQ magnitude_spectrum app = Ok [] ->
  exists app',
    monitor_pass sqrtQ magnitude_spectrum app now_ts = Ok app'
    /\ mic_bpm app' == mic_bpm app
    /\ mic_bpm_history app' = mic_bpm_history app
    /\ mic_buffer app' = mic_buffer app.
Proof.
  intros Hstable Hnone. rewrite monitor_pass_stable by exact Hstable.
  unfold stable_update. rewrite Hnone. cbn [bind].
  eexists. split; [reflexivity|].
  rewrite record_sample_bpm, record_sample_history, record_sample_buffer.
  destruct (Qeq_bool (mic_bpm app) 0) eqn:E; cbn.
  - apply Qeq_bool_iff in E. split; [now symmetry|]. split; reflexivity.
  - split; [reflexivity|]. split; reflexivity.
Qed.

End MonitorFacts.

Lemma no_consensus_keeps_live_bpm_witness :
  exists app',
    monitor_pass (fun x => x) (fun _ => [])
      (mkBPMGUIApp [0; 0; 0; 0; 0; 0; 0] [118; 120] 1 119 0 0 3 [(0, 0)]) 1
    = Ok app'
    /\ mic_bpm app' == 119
    /\ mic_bpm_history app' = [118; 120]
    /\ mic_buffer app' = [0; 0; 0; 0; 0; 0; 0].
Proof.
  apply (no_consensus_keeps_live_bpm (fun x => x) (fun _ => [])
           (mkBPMGUIApp [0; 0; 0; 0; 0; 0; 0] [118; 120] 1 119 0 0 3 [(0, 0)]) 1).
  - vm_compute. discriminate.
  - vm_compute. reflexivity.
Defined.

(** ** The smoothing of the history *)

Lemma median_of_three (a b c : Q) : Np.median [a; b; c] == Spec.median3 a b c.
Proof.
  unfold Spec.median3, Np.median. cbn [length Nat.even Nat.div Nat.divmod fst].
  destruct (Q.min_spec a b) as [[H1 E1]|[H1 E1]];
  destruct (Q.max_spec a b) as [[H2 E2]|[H2 E2]];
  destruct (Q.min_spec (Qmax a b) c) as [[H3 E3]|[H3 E3]];
  destruct (Q.max_spec (Qmin a b) (Qmin (Qmax a b) c)) as [[H4 E4]|[H4 E4]];
  rewrite E4; clear E4;
  cbn [Np.sort Np.insert];
  destruct (Qle_bool b c) eqn:Ebc; cbn [Np.insert];
  destruct (Qle_bool a b) eqn:Eab; cbn [Np.insert];
  destruct (Qle_bool a c) eqn:Eac; cbn [Np.insert nth];
  repeat match goal with
  | H : Qle_bool _ _ = true |- _ => apply Qle_bool_iff in H
  | H : Qle_bool ?x ?y = false |- _ =>
    assert (y < x) by (apply Qnot_le_lt; intros Hc; apply Qle_bool_iff in Hc; congruence);
    clear H
  end; lra.
Qed.

Lemma Forall2_by_nth {A : Type} (R : A -> A -> Prop) (d : A) (l l' : list A) :
  length l = length l' ->
  (forall i, (i < length l)%nat -> R (nth i l d) (nth i l' d)) ->
  Forall2 R l l'.
Proof.
  revert l'. induction l as [|x t IH]; intros [|y t'] Hlen Hnth;
    try discriminate; constructor.
  - apply (Hnth 0%nat). cbn. lia.
  - apply IH; [now injection Hlen|].
    intros i Hi. apply (Hnth (S i)). cbn. lia.
Qed.

Lemma nth_range (n : Z) (i : nat) :
  (i < Z.to_nat n)%nat -> nth i (Py.range n) 0%Z = Z.of_nat i.
Proof.
  intros Hi. unfold Py.range.
  change 0%Z with (Z.of_nat 0). rewrite map_nth, seq_nth by exact Hi.
  reflexivity.
Qed.

Lemma nth_map_range (f : Z -> Q) (n : Z) (i : nat) :
  (i < Z.to_nat n)%nat -> nth i (map f (Py.range n)) 0 = f (Z.of_nat i).
Proof.
  intros Hi. rewrite (nth_indep _ 0 (f 0%Z))
    by (now rewrite length_map, range_length).
  rewrite map_nth, nth_range by exact Hi. reflexivity.
Qed.

Lemma filter_interior_length (l : list Q) (prev : Q) :
  length (Spec.filter_interior prev l) = length l.
Proof.
  revert prev. induction l as [|x t IH]; intros prev; [reflexivity|].
  destruct t as [|y t']; [reflexivity|].
  change (Spec.filter_interior prev (x :: y :: t'))
    with (Spec.median3 prev x y :: Spec.filter_interior x (y :: t')).
  cbn [length]. now rewrite IH.
Qed.

Lemma nth_filter_interior (l : list Q) (prev : Q) (i : nat) :
  (i < length l)%nat ->
  nth i (Spec.filter_interior prev l) 0
  = if (S i =? length l)%nat then nth i l 0
    else Spec.median3 (nth i (prev :: l) 0) (nth i l 0) (nth (S i) l 0).
Proof.
  revert prev i. induction l as [|x t IH]; intros prev i Hi;
    [cbn in Hi; lia|].
  destruct t as [|y t'].
  - cbn in Hi. replace i with 0%nat by lia. reflexivity.
  - change (Spec.filter_interior prev (x :: y :: t'))
      with (Spec.median3 prev x y :: Spec.filter_interior x (y :: t')).
    destruct i as [|i]; [reflexivity|].
    cbn [nth]. rewrite IH by (cbn in Hi |- *; lia).
    reflexivity.
Qed.

(** The window of an interior entry holds it and its two neighbours. *)
Lemma window_of_three (h : list Q) (i : nat) :
  (1 <= i)%nat -> (S i < length h)%nat ->
  Py.slice h (Z.of_nat i - 1) (Z.of_nat i + 2)
  = [nth (i - 1) h 0; nth i h 0; nth (S i) h 0].
Proof.
  intros H1 H2.
  replace (Z.of_nat i - 1)%Z with (Z.of_nat (i - 1)) by lia.
  replace (Z.of_nat i + 2)%Z with (Z.of_nat (i - 1) + Z.of_nat 3)%Z by lia.
  rewrite slice_inside by lia.
  rewrite <- (firstn_skipn (i - 1) h) at 2 3 4.
  assert (Hlen : length (firstn (i - 1) h) = (i - 1)%nat)
    by (rewrite length_firstn; lia).
  rewrite !app_nth2 by lia. rewrite Hlen.
  replace (i - 1 - (i - 1))%nat with 0%nat by lia.
  replace (i - (i - 1))%nat with 1%nat by lia.
  replace (S i - (i - 1))%nat with 2%nat by lia.
  assert (Hs : (3 <= length (skipn (i - 1) h))%nat)
    by (rewrite length_skipn; lia).
  destruct (skipn (i - 1) h) as [|a [|b [|c t]]]; cbn in Hs; try lia.
  reflexivity.
Qed.

Lemma median_filter_spec (history : list Q) :
  Forall2 Qeq (median_filter history) (Spec.median_filter3 history).
Proof.
  apply (Forall2_by_nth Qeq 0).
  - unfold median_filter. rewrite length_map, range_length.
    unfold Py.len. rewrite Nat2Z.id.
    destruct history as [|a t]; [reflexivity|].
    cbn [Spec.median_filter3 length]. now rewrite filter_interior_length.
  - intros i Hi. unfold median_filter in *.
    rewrite length_map, range_length in Hi. unfold Py.len in Hi.
    rewrite Nat2Z.id in Hi.
    rewrite nth_map_range by (unfold Py.len; lia).
    unfold Py.item, Py.len. rewrite Nat2Z.id.
    destruct history as [|a t]; [cbn in Hi; lia|].
    cbn [Spec.median_filter3].
    destruct i as [|i].
    + reflexivity.
    + cbn [length] in Hi.
      destruct (Z.eqb_spec (Z.of_nat (S i)) 0) as [E|_]; [lia|].
      cbn [orb nth]. rewrite nth_filter_interior by lia.
      destruct (Z.eqb_spec (Z.of_nat (S i)) (Z.of_nat (length (a :: t)) - 1))
        as [E|E]; destruct (Nat.eqb_spec (S i) (length t)) as [E'|E'];
        cbn [length] in E; try lia.
      * reflexivity.
      * rewrite window_of_three by (cbn [length]; lia).
        rewrite median_of_three.
        replace (S i - 1)%nat with i by lia. reflexivity.
Qed.

Lemma ema_spec (l l' : list Q) :
  Forall2 Qeq l l' -> ema l == Spec.ema_fold l'.
Proof.
  intros H. unfold ema, Spec.ema_fold. rewrite slice_from_one.
  destruct H as [|x y t t' Hxy Ht]; [reflexivity|].
  cbn [tl]. change (Py.item (x :: t) 0) with x.
  revert x y Hxy. induction Ht as [|u v t t' Huv Ht IH]; intros x y Hxy.
  - exact Hxy.
  - cbn [fold_left]. apply IH. unfold Spec.ema_step, alpha.
    rewrite Hxy, Huv. ring.
Qed.

Lemma smooth_spec (history : list Q) :
  smooth history == Spec.live_bpm history.
Proof.
  unfold smooth, Spec.live_bpm.
  destruct (Z.leb_spec 3 (Py.len history)) as [H|H];
    destruct (Nat.leb_spec 3 (length history)) as [H'|H'];
    unfold Py.len in H; try lia.
  - apply ema_spec, median_filter_spec.
  - reflexivity.
Qed.

Section MonitorSmoothing.

Variable sqrtQ : Q -> Q.
Variable magnitude_spectrum : list fval -> list fval.

(** C5: in a pass of the stable phase that yields a consensus value, the
    value enters the history, and the live value becomes: with at least 3
    entries in the history, the exponential moving average (new = 0.3 value
    + 0.7 previous, seeded by the first value) of the 3-point median filter
    of the whole history; with fewer, the median of the history. *)
Theorem live_bpm_is_smoothed_history
  (app : BPMGUIApp) (now_ts : Q) (bpms : list Q) :
  (mic_sample_rate app * 7 <= Py.len (mic_buffer app))%Z ->
  segment_bpms sqrtQ magnitude_spectrum app = Ok bpms ->
  bpms <> [] ->
  exists app',
    monitor_pass sqrtQ magnitude_spectrum app now_ts = Ok app'
    /\ mic_bpm_history app'
       = push_history (mic_bpm_history app) (Np.median bpms)
    /\ ((3 <= length (mic_bpm_history app'))%nat ->
        mic_bpm app'
        == Spec.ema_fold (Spec.median_filter3 (mic_bpm_history app')))
    /\ ((length (mic_bpm_history app') < 3)%nat ->
        mic_bpm app' = Np.median (mic_bpm_history app')).
Proof.
  intros Hstable Hbpms Hne. rewrite monitor_pass_stable by exact Hstable.
  unfold stable_update. rewrite Hbpms. cbn [bind].
  destruct bpms as [|b bs]; [congruence|].
  eexists. split; [reflexivity|].
  rewrite record_sample_bpm, record_sample_history.
  cbn [mic_bpm mic_bpm_history set_mic_bpm set_mic_bpm_history].
  set (history := push_history (mic_bpm_history app) (Np.median (b :: bs))).
  split; [reflexivity|]. split.
  - intros H3. rewrite smooth_spec. unfold Spec.live_bpm.
    destruct (Nat.leb_spec 3 (length history)); [reflexivity|lia].
  - intros H3. unfold smooth.
    destruct (Z.leb_spec 3 (Py.len history)) as [H|_]; [|reflexivity].
    unfold Py.len in H. lia.
Qed.

End MonitorSmoothing.

Lemma live_bpm_is_smoothed_history_witness :
  exists app',
    monitor_pass (fun x => x) (fun _ => [])
      (mkBPMGUIApp clicks [90; 200] 1000 90 0 0 3 [(0, 0)]) 1 = Ok app'
    /\ mic_bpm app' == Spec.ema_fold (Spec.median_filter3 (mic_bpm_history app')).
Proof.
  destruct (live_bpm_is_smoothed_history (fun x => x) (fun _ => [])
              (mkBPMGUIApp clicks [90; 200] 1000 90 0 0 3 [(0, 0)]) 1
              [184320000000000 # 2097152000000; 184320000000000 # 2097152000000])
    as (app' & Hpass & Hhist & H3 & _).
  - vm_compute. discriminate.
  - vm_compute. reflexivity.
  - discriminate.
  - exists app'. split; [exact Hpass|]. apply H3. rewrite Hhist. vm_compute. lia.
Defined.

(** ** Beat detection: when it raises, and what it returns for degenerate
    buffers *)

Lemma firstn_in {A : Type} (n : nat) (l : list A) (x : A) :
  In x (firstn n l) -> In x l.
Proof.
  revert l. induction n as [|n IH]; intros [|y t] H; cbn in H; try contradiction.
  destruct H as [H|H]; [now left|right; now apply IH].
Qed.

Lemma skipn_in {A : Type} (n : nat) (l : list A) (x : A) :
  In x (skipn n l) -> In x l.
Proof.
  revert l. induction n as [|n IH]; intros [|y t] H; cbn in H;
    try contradiction; try exact H.
  right. now apply IH.
Qed.

Lemma slice_in {A : Type} (l : list A) (i j : Z) (x : A) :
  In x (Py.slice l i j) -> In x l.
Proof.
  unfold Py.slice. intros H. eapply skipn_in, firstn_in, H.
Qed.

Lemma all_nan_slice (l : list fval) (i j : Z) :
  all_nan l -> all_nan (Py.slice l i j).
Proof.
  unfold all_nan. rewrite !Forall_forall. intros H x Hx.
  apply H. eapply slice_in, Hx.
Qed.

Lemma all_nan_slice_to (l : list fval) (j : Z) :
  all_nan l -> all_nan (Py.slice_to l j).
Proof.
  unfold all_nan, Py.slice_to. rewrite !Forall_forall. intros H x Hx.
  apply H. eapply firstn_in, Hx.
Qed.

Lemma item_nan (l : list fval) (i : Z) : all_nan l -> F.item l i = NaN.
Proof.
  unfold F.item. intros H. generalize (Z.to_nat i) as k.
  induction H as [|x t Hx Ht IH]; intros [|k]; cbn; auto.
Qed.

Lemma map2_nan (f : fval -> fval -> fval) (l l' : list fval) :
  (forall y, f NaN y = NaN) -> all_nan l -> all_nan (F.map2 f l l').
Proof.
  intros Hf H. revert l'.
  induction H as [|x t Hx Ht IH]; intros [|y t']; cbn; try constructor.
  - subst x. apply Hf.
  - apply IH.
Qed.

Lemma max_abs_zero (x : Q) (t : list Q) :
  x == 0 -> Forall (fun y => y == 0) t ->
  fold_left Qmax (map Qabs t) (Qabs x) == 0.
Proof.
  intros Hx Ht. assert (Ha : Qabs x == 0) by (rewrite Hx; reflexivity).
  revert Ha. generalize (Qabs x) as a.
  induction Ht as [|y t Hy Ht IH]; intros a Ha; cbn [map fold_left].
  - exact Ha.
  - apply IH. assert (Hb : Qabs y == 0) by (rewrite Hy; reflexivity).
    destruct (Q.max_spec a (Qabs y)) as [[_ E]|[_ E]]; rewrite E; assumption.
Qed.

Lemma div_zero_by_zero (x p : Q) : x == 0 -> p == 0 -> F.div (Fin x) (Fin p) = NaN.
Proof.
  intros Hx Hp. unfold F.div.
  apply Qeq_bool_iff in Hp. rewrite Hp. unfold F.sign.
  destruct (Qlt_le_dec 0 x) as [H|_]; [exfalso; lra|].
  destruct (Qlt_le_dec x 0) as [H|_]; [exfalso; lra|].
  reflexivity.
Qed.

Lemma normalize_empty : normalize [] = Raise ValueError.
Proof. reflexivity. Qed.

Lemma normalize_ok (audio_data : list Q) :
  audio_data <> [] ->
  exists audio, normalize audio_data = Ok audio
                /\ length audio = length audio_data.
Proof.
  intros H. destruct audio_data as [|x t]; [congruence|].
  unfold normalize. cbn [Np.max_abs bind].
  eexists. split; [reflexivity|]. now rewrite length_map.
Qed.

Lemma normalize_silent (audio_data : list Q) :
  audio_data <> [] -> Forall (fun x => x == 0) audio_data ->
  exists audio, normalize audio_data = Ok audio /\ all_nan audio.
Proof.
  intros Hne Hz. destruct audio_data as [|x t]; [congruence|].
  unfold normalize. cbn [Np.max_abs bind].
  eexists. split; [reflexivity|].
  assert (Hp : fold_left Qmax (map Qabs t) (Qabs x) == 0).
  { inversion Hz; subst. now apply max_abs_zero. }
  unfold all_nan. apply Forall_forall. intros v Hv.
  apply in_map_iff in Hv. destruct Hv as (y & <- & Hy).
  rewrite Forall_forall in Hz.
  apply div_zero_by_zero; [now apply Hz|exact Hp].
Qed.

Lemma frames_ok (self : BPMAnalyzer) (audio : list fval) :
  hop_size self <> 0%Z -> exists fs, frames self audio = Ok fs.
Proof.
  intros H. unfold frames, Py.range3.
  destruct (Z.eqb_spec (hop_size self) 0); [congruence|].
  cbn [bind]. eexists. reflexivity.
Qed.

Lemma frames_zero_hop (self : BPMAnalyzer) (audio : list fval) :
  hop_size self = 0%Z -> frames self audio = Raise ValueError.
Proof.
  intros H. unfold frames, Py.range3. rewrite H. reflexivity.
Qed.

Lemma frames_short (self : BPMAnalyzer) (audio : list fval) :
  (0 < hop_size self)%Z -> (Py.len audio <= frame_size self)%Z ->
  frames self audio = Ok [].
Proof.
  intros Hhop Hlen. unfold frames, Py.range3.
  destruct (Z.eqb_spec (hop_size self) 0); [lia|].
  destruct (Z.ltb_spec 0 (hop_size self)); [|lia].
  cbn [bind].
  replace (Z.to_nat _) with 0%nat; [reflexivity|].
  assert ((Py.len audio - frame_size self - 0 + hop_size self - 1)
          / hop_size self < 1)%Z
    by (apply Z.div_lt_upper_bound; lia).
  lia.
Qed.

Lemma frames_all_nan (self : BPMAnalyzer) (audio : list fval) (fs : list (list fval)) :
  all_nan audio -> frames self audio = Ok fs -> Forall all_nan fs.
Proof.
  intros Hnan. unfold frames.
  destruct (Py.range3 _ _ _) as [starts|e]; cbn [bind]; [|discriminate].
  intros [= <-]. apply Forall_forall. intros f Hf.
  apply in_map_iff in Hf. destruct Hf as (i & <- & _).
  now apply all_nan_slice.
Qed.

Section DetectorFacts.

Variable sqrtQ : Q -> Q.
Variable magnitude_spectrum : list fval -> list fval.

Lemma energy_nan (frame : list fval) :
  all_nan frame -> fsqrt sqrtQ (F.mean (map F.sq frame)) = NaN.
Proof.
  intros H. destruct H as [|x t Hx _].
  - reflexivity.
  - subst x. reflexivity.
Qed.

Lemma energy_of_frames (self : BPMAnalyzer) (audio : list fval)
  (fs : list (list fval)) :
  frames self audio = Ok fs ->
  energy_of sqrtQ self audio
  = Ok (map (fun frame => fsqrt sqrtQ (F.mean (map F.sq frame))) fs).
Proof. intros H. unfold energy_of. now rewrite H. Qed.

Lemma flux_of_frames (self : BPMAnalyzer) (audio : list fval)
  (fs : list (list fval)) :
  frames self audio = Ok fs ->
  exists flux, _calculate_spectral_flux magnitude_spectrum self audio = Ok flux
               /\ (fs = [] -> flux = []).
Proof.
  intros H. unfold _calculate_spectral_flux. rewrite H. cbn [bind].
  destruct (flux_loop magnitude_spectrum fs None) as [|x t] eqn:E.
  - exists []. split; [reflexivity|reflexivity].
  - destruct (F.gt (F.max x t) (Fin 0)); eexists; (split; [reflexivity|]);
      intros ->; discriminate.
Qed.

Lemma combine_nan (energy spectral_flux : list fval) :
  all_nan energy -> all_nan (combine energy spectral_flux).
Proof.
  intros H. unfold combine. apply map2_nan; [reflexivity|].
  now apply all_nan_slice_to.
Qed.

Lemma is_peak_nan (combined_onset thresholds : list fval) (i : Z) :
  all_nan combined_onset -> is_peak combined_onset thresholds i = false.
Proof.
  intros H. unfold is_peak. rewrite (item_nan combined_onset i H). reflexivity.
Qed.

Lemma peaks_loop_nan (self : BPMAnalyzer) (combined_onset thresholds : list fval)
  (sample_rate : Z) (indices : list Z) :
  all_nan combined_onset ->
  peaks_loop self combined_onset thresholds sample_rate indices = Ok [].
Proof.
  intros H. induction indices as [|i rest IH]; [reflexivity|].
  cbn [peaks_loop]. now rewrite is_peak_nan.
Qed.

Lemma peaks_loop_ok (self : BPMAnalyzer) (combined_onset thresholds : list fval)
  (sample_rate : Z) (indices : list Z) :
  sample_rate <> 0%Z ->
  exists beats,
    peaks_loop self combined_onset thresholds sample_rate indices = Ok beats.
Proof.
  intros Hsr. induction indices as [|i rest [beats IH]]; [now exists []|].
  cbn [peaks_loop]. destruct (is_peak combined_onset thresholds i).
  - unfold beat_time. destruct (Z.eqb_spec sample_rate 0); [congruence|].
    cbn [bind]. rewrite IH. cbn [bind]. eexists. reflexivity.
  - now exists beats.
Qed.

(** Beat detection raises exactly on an empty buffer, on a zero hop size,
    or, with a zero sample rate, at the first peak. *)
Lemma detect_beats_outcome (self : BPMAnalyzer) (audio_data : list Q)
  (sample_rate : Z) :
  match _detect_beats_improved sqrtQ magnitude_spectrum self audio_data
          sample_rate with
  | Ok _ => audio_data <> [] /\ hop_size self <> 0%Z
  | Raise _ => audio_data = [] \/ hop_size self = 0%Z \/ sample_rate = 0%Z
  end.
Proof.
  unfold _detect_beats_improved.
  destruct audio_data as [|x t]; [left; reflexivity|].
  destruct (normalize_ok (x :: t)) as (audio & -> & _); [discriminate|].
  cbn [bind].
  destruct (Z.eq_dec (hop_size self) 0) as [Hhop|Hhop].
  - unfold energy_of. rewrite frames_zero_hop by exact Hhop. cbn [bind].
    right. now left.
  - destruct (frames_ok self audio Hhop) as [fs Hfs].
    rewrite (energy_of_frames _ _ _ Hfs). cbn [bind].
    destruct (flux_of_frames _ _ _ Hfs) as (flux & -> & _). cbn [bind].
    destruct (Z.eq_dec sample_rate 0) as [Hsr|Hsr].
    + destruct (peaks_loop _ _ _ _ _); cbn [bind].
      * split; [discriminate|exact Hhop].
      * right. now right.
    + edestruct peaks_loop_ok as [beats ->]; [exact Hsr|]. cbn [bind].
      split; [discriminate|exact Hhop].
Qed.

(** A non-empty buffer of at most one frame has no frame, hence no beat. *)
Lemma analyze_short_buffer (self : BPMAnalyzer) (audio_data : list Q)
  (sample_rate : Z) :
  audio_data <> [] -> (0 < hop_size self)%Z ->
  (Py.len audio_data <= frame_size self)%Z ->
  analyze_audio_data sqrtQ magnitude_spectrum self audio_data sample_rate = Ok 0.
Proof.
  intros Hne Hhop Hlen. unfold analyze_audio_data, _detect_beats_improved.
  destruct (normalize_ok audio_data Hne) as (audio & -> & Hl). cbn [bind].
  assert (Hfs : frames self audio = Ok []).
  { apply frames_short; [exact Hhop|]. unfold Py.len in *. lia. }
  rewrite (energy_of_frames _ _ _ Hfs). cbn [bind map].
  destruct (flux_of_frames _ _ _ Hfs) as (flux & -> & Hflux).
  rewrite Hflux by reflexivity. reflexivity.
Qed.

(** A non-empty silent buffer is normalized to nan throughout, no frame
    exceeds another, and there is no beat. *)
Lemma analyze_silent_buffer (self : BPMAnalyzer) (audio_data : list Q)
  (sample_rate : Z) :
  audio_data <> [] -> hop_size self <> 0%Z ->
  Forall (fun x => x == 0) audio_data ->
  analyze_audio_data sqrtQ magnitude_spectrum self audio_data sample_rate = Ok 0.
Proof.
  intros Hne Hhop Hz. unfold analyze_audio_data, _detect_beats_improved.
  destruct (normalize_silent audio_data Hne Hz) as (audio & -> & Hnan).
  cbn [bind].
  destruct (frames_ok self audio Hhop) as [fs Hfs].
  rewrite (energy_of_frames _ _ _ Hfs). cbn [bind].
  destruct (flux_of_frames _ _ _ Hfs) as (flux & -> & _). cbn [bind].
  rewrite peaks_loop_nan; [reflexivity|].
  apply combine_nan. unfold all_nan. apply Forall_forall.
  intros e He. apply in_map_iff in He. destruct He as (frame & <- & Hin).
  apply energy_nan.
  pose proof (frames_all_nan self audio fs Hnan Hfs) as Hall.
  rewrite Forall_forall in Hall. now apply Hall.
Qed.

(** A hop size of 0 is accepted by the constructor and only fails when a
    non-empty buffer is analyzed: [range] of line 73 raises. *)
Lemma zero_hop_raises_at_analysis (frame : Z) (audio_data : list Q)
  (sample_rate : Z) :
  audio_data <> [] ->
  init frame 0 = Ok (configured frame 0)
  /\ analyze_audio_data sqrtQ magnitude_spectrum (configured frame 0)
       audio_data sample_rate = Raise ValueError.
Proof.
  intros Hne. split; [reflexivity|].
  unfold analyze_audio_data, _detect_beats_improved.
  destruct (normalize_ok audio_data Hne) as (audio & -> & _). cbn [bind].
  unfold energy_of. now rewrite frames_zero_hop.
Qed.

(** C4, where it fails and where it holds.  On the empty buffer, which is
    silent and shorter than a frame, [np.max] of line 69 raises
    [ValueError], for every analyzer and sample rate.  On every non-empty
    buffer that is silent, or no longer than a frame, the call returns 0. *)
Theorem analyze_degenerate_buffers (self : BPMAnalyzer) (sample_rate : Z) :
  analyze_audio_data sqrtQ magnitude_spectrum self [] sample_rate
  = Raise ValueError
  /\ (forall audio_data,
        audio_data <> [] -> (0 < frame_size self)%Z -> (0 < hop_size self)%Z ->
        Forall (fun x => x == 0) audio_data ->
        analyze_audio_data sqrtQ magnitude_spectrum self audio_data sample_rate
        = Ok 0)
  /\ (forall audio_data,
        audio_data <> [] -> (0 < hop_size self)%Z ->
        (Py.len audio_data <= frame_size self)%Z ->
        analyze_audio_data sqrtQ magnitude_spectrum self audio_data sample_rate
        = Ok 0).
Proof.
  split; [reflexivity|]. split.
  - intros audio_data Hne _ Hhop Hz. apply analyze_silent_buffer; [assumption|lia|assumption].
  - intros audio_data Hne Hhop Hlen. now apply analyze_short_buffer.
Qed.


End DetectorFacts.


Lemma analyze_degenerate_buffers_witness :
  analyze_audio_data (fun x => x) (fun _ => []) default_analyzer [] 44100
  = Raise ValueError
  /\ analyze_audio_data (fun x => x) (fun _ => []) default_analyzer
       [0; 0; 0; 0] 44100 = Ok 0
  /\ analyze_audio_data (fun x => x) (fun _ => []) default_analyzer
       [1 # 2; - (1 # 4); 1] 44100 = Ok 0.
Proof.
  destruct (analyze_degenerate_buffers (fun x => x) (fun _ => [])
              default_analyzer 44100) as (Hempty & Hsilent & Hshort).
  split; [exact Hempty|]. split.
  - apply Hsilent.
    + discriminate.
    + reflexivity.
    + reflexivity.
    + repeat constructor.
  - apply Hshort.
    + discriminate.
    + reflexivity.
    + vm_compute. discriminate.
Defined.

(** ** The states of a monitoring session *)

Lemma push_history_length (history : list Q) (current_bpm : Q) :
  length (push_history history current_bpm)
  = Nat.min (S (length history)) 20.
Proof.
  unfold push_history, history_size.
  destruct (Z.ltb_spec 20 (Py.len (history ++ [current_bpm]))) as [H|H];
    unfold Py.len in H; rewrite length_app in H; cbn [length] in H.
  - rewrite (slice_from_last _ 20)
      by (unfold Py.len; rewrite length_app; cbn [length]; lia).
    rewrite length_skipn, length_app. cbn [length]. lia.
  - rewrite length_app. cbn [length]. lia.
Qed.

Section SessionFacts.

Variable sqrtQ : Q -> Q.
Variable magnitude_spectrum : list fval -> list fval.

Lemma stable_update_invariant (app app' : BPMGUIApp) (now_ts : Q) :
  (mic_sample_rate app * 7 <= Py.len (mic_buffer app))%Z ->
  session_invariant app ->
  stable_update sqrtQ magnitude_spectrum app now_ts = Ok app' ->
  session_invariant app'.
Proof.
  intros Hstable (Hsr & Hbuf & Hlen & Hlive). unfold stable_update.
  destruct (segment_bpms sqrtQ magnitude_spectrum app) as [bpms|e];
    cbn [bind]; [|discriminate].
  intros [= <-]. unfold session_invariant.
  rewrite record_sample_bpm, record_sample_history, record_sample_buffer.
  replace (mic_sample_rate (record_sample _ now_ts)) with (mic_sample_rate app)
    by (unfold record_sample;
        destruct bpms; [destruct (Qeq_bool (mic_bpm app) 0)|];
        destruct (Qle_bool _ _); reflexivity).
  destruct bpms as [|b bs].
  - destruct (Qeq_bool (mic_bpm app) 0) eqn:E; cbn.
    + apply Qeq_bool_iff in E. repeat split; try assumption.
      destruct Hlive as [Hnil|[_ Hlive]]; [now left|right].
      split; [exact Hstable|]. now rewrite <- Hlive, E.
    + repeat split; assumption.
  - cbn [mic_bpm mic_bpm_history mic_buffer set_mic_bpm set_mic_bpm_history].
    split; [exact Hsr|]. split; [exact Hbuf|]. split.
    + rewrite push_history_length. lia.
    + right. split; [exact Hstable|]. apply smooth_spec.
Qed.

Lemma quick_update_invariant (app app' : BPMGUIApp) (now_ts : Q) :
  (Py.len (mic_buffer app) < mic_sample_rate app * 7)%Z ->
  session_invariant app ->
  quick_update sqrtQ magnitude_spectrum app now_ts = Ok app' ->
  session_invariant app'.
Proof.
  intros Hcold (Hsr & Hbuf & Hlen & Hlive). unfold quick_update.
  destruct (normalize_window _) as [w|e]; cbn [bind]; [|discriminate].
  destruct (analyze _ _ w _) as [quick_bpm|e]; cbn [bind]; [|discriminate].
  assert (Hnil : mic_bpm_history app = []) by (destruct Hlive as [H|[H _]]; [exact H|lia]).
  destruct (Qlt_le_dec 0 quick_bpm); intros [= <-].
  - unfold session_invariant.
    rewrite record_sample_history, record_sample_buffer.
    replace (mic_sample_rate (record_sample _ now_ts)) with (mic_sample_rate app)
      by (unfold record_sample; destruct (Qle_bool _ _); reflexivity).
    cbn [mic_bpm_history mic_buffer set_mic_bpm].
    repeat split; try assumption. now left.
  - repeat split; try assumption.
Qed.

Lemma callback_invariant (app : BPMGUIApp) (indata : list Q) :
  session_invariant app -> session_invariant (audio_callback app indata).
Proof.
  intros (Hsr & Hbuf & Hlen & Hlive). unfold session_invariant.
  rewrite callback_sample_rate, callback_buffer by lia.
  assert (Hh : mic_bpm_history (audio_callback app indata) = mic_bpm_history app)
    by (unfold audio_callback; destruct (_ <? _)%Z; reflexivity).
  assert (Hb : mic_bpm (audio_callback app indata) = mic_bpm app)
    by (unfold audio_callback; destruct (_ <? _)%Z; reflexivity).
  rewrite Hh, Hb. unfold Py.len in *. rewrite lastn_length, length_app.
  split; [exact Hsr|]. split; [lia|]. split; [exact Hlen|].
  destruct Hlive as [Hnil|[H7 Hlive]]; [now left|right].
  split; [lia|exact Hlive].
Qed.

(** Between the passes of a session the buffer holds at most 10 seconds,
    the history at most 20 entries, and a non-empty history determines the
    live value. *)
Lemma session_keeps_invariant (app : BPMGUIApp) :
  session sqrtQ magnitude_spectrum app -> session_invariant app.
Proof.
  induction 1 as [app now interval Hsr | app indata _ IH
                 | app app' now_ts _ IH Hpass].
  - unfold session_invariant. cbn [start_mic_monitoring mic_sample_rate
      mic_buffer mic_bpm_history mic_bpm].
    split; [exact Hsr|]. split; [rewrite Hsr; cbn; lia|].
    split; [cbn; lia|]. now left.
  - now apply callback_invariant.
  - unfold monitor_pass in Hpass.
    destruct (Z.leb_spec (mic_sample_rate app * 7) (Py.len (mic_buffer app))).
    + eapply stable_update_invariant; eassumption.
    + destruct (_ <=? _)%Z.
      * eapply quick_update_invariant; eassumption.
      * now injection Hpass as <-.
Qed.

Lemma session_live_bpm (app : BPMGUIApp) :
  session sqrtQ magnitude_spectrum app ->
  mic_bpm_history app <> [] ->
  mic_bpm app == Spec.live_bpm (mic_bpm_history app).
Proof.
  intros Hs Hne. destruct (session_keeps_invariant app Hs) as (_ & _ & _ & H).
  destruct H as [H|[_ H]]; [congruence|exact H].
Qed.

End SessionFacts.

(** ** Runs of the microphone loop: what every step keeps *)

Lemma record_sample_frame (app : BPMGUIApp) (now_ts : Q) :
  mic_sample_rate (record_sample app now_ts) = mic_sample_rate app
  /\ mic_start_time (record_sample app now_ts) = mic_start_time app
  /\ mic_bpm_sample_interval (record_sample app now_ts)
     = mic_bpm_sample_interval app.
Proof. unfold record_sample. destruct (Qle_bool _ _); repeat split. Qed.

Lemma sorted_snoc {A : Type} (R : A -> A -> Prop) (l : list A) (p q : A) :
  Sorted R (l ++ [p]) -> R p q -> Sorted R ((l ++ [p]) ++ [q]).
Proof.
  induction l as [|x t IH]; cbn; intros Hs Hpq.
  - repeat constructor. exact Hpq.
  - inversion Hs as [|? ? Hs' Hhd]; subst. constructor.
    + now apply IH.
    + destruct t as [|y t']; cbn in *.
      * inversion Hhd; subst. now constructor.
      * inversion Hhd; subst. now constructor.
Qed.

(** Recording keeps the series spaced, whatever the clock reads. *)
Lemma record_sample_series (app : BPMGUIApp) (now_ts : Q) :
  series_ok app -> series_ok (record_sample app now_ts).
Proof.
  intros (Hs & earlier & p & Hser & Hp). unfold record_sample.
  destruct (Qle_bool _ _) eqn:E; [|now (split; [|exists earlier, p])].
  apply Qle_bool_iff in E. unfold series_ok. cbn.
  split.
  - rewrite Hser in *. apply sorted_snoc; [exact Hs|].
    unfold spaced. cbn. rewrite Hp. lra.
  - exists (mic_time_bpm_pairs app), (now_ts - mic_start_time app, mic_bpm app).
    split; reflexivity.
Qed.

Lemma record_sample_appends (app : BPMGUIApp) (now_ts : Q) :
  exists added,
    mic_time_bpm_pairs (record_sample app now_ts)
    = mic_time_bpm_pairs app ++ added.
Proof.
  unfold record_sample. destruct (Qle_bool _ _).
  - eexists. reflexivity.
  - exists []. now rewrite app_nil_r.
Qed.

Lemma callback_frame (app : BPMGUIApp) (indata : list Q) :
  mic_bpm (audio_callback app indata) = mic_bpm app
  /\ mic_bpm_history (audio_callback app indata) = mic_bpm_history app
  /\ mic_time_bpm_pairs (audio_callback app indata) = mic_time_bpm_pairs app
  /\ mic_start_time (audio_callback app indata) = mic_start_time app
  /\ mic_last_bpm_sample_ts (audio_callback app indata)
     = mic_last_bpm_sample_ts app
  /\ mic_bpm_sample_interval (audio_callback app indata)
     = mic_bpm_sample_interval app.
Proof. unfold audio_callback. destruct (_ <? _)%Z; repeat split. Qed.

Lemma in_range_eq (v w : Q) : v == w -> Spec.in_range v -> Spec.in_range w.
Proof. unfold Spec.in_range. intros E [H1 H2]. rewrite <- E. now split. Qed.

Lemma estimate_in_range (v : Q) : Spec.in_range v -> estimate v.
Proof. now right. Qed.

Lemma median3_bounded (lo hi a b c : Q) :
  bounded lo hi a -> bounded lo hi b -> bounded lo hi c ->
  bounded lo hi (Spec.median3 a b c).
Proof.
  unfold bounded, Spec.median3. intros [? ?] [? ?] [? ?].
  destruct (Q.min_spec a b) as [[_ E1]|[_ E1]];
  destruct (Q.max_spec a b) as [[_ E2]|[_ E2]];
  destruct (Q.min_spec (Qmax a b) c) as [[_ E3]|[_ E3]];
  destruct (Q.max_spec (Qmin a b) (Qmin (Qmax a b) c)) as [[_ E4]|[_ E4]];
  rewrite E4; split; lra.
Qed.

Lemma filter_interior_bounded (lo hi : Q) (l : list Q) (prev : Q) :
  bounded lo hi prev -> Forall (bounded lo hi) l ->
  Forall (bounded lo hi) (Spec.filter_interior prev l).
Proof.
  revert prev. induction l as [|x t IH]; intros prev Hp Hl; [constructor|].
  inversion Hl as [|? ? Hx Ht]; subst.
  destruct t as [|y t']; [constructor; [exact Hx|constructor]|].
  change (Spec.filter_interior prev (x :: y :: t'))
    with (Spec.median3 prev x y :: Spec.filter_interior x (y :: t')).
  constructor.
  - apply median3_bounded; try assumption. now inversion Ht.
  - now apply IH.
Qed.

Lemma ema_fold_bounded (lo hi : Q) (l : list Q) :
  l <> [] -> Forall (bounded lo hi) l -> bounded lo hi (Spec.ema_fold l).
Proof.
  intros Hne Hl. destruct l as [|a t]; [congruence|].
  inversion Hl as [|? ? Ha Ht]; subst. cbn [Spec.ema_fold].
  clear Hl Hne. revert a Ha.
  induction Ht as [|x t Hx Ht IH]; intros a Ha; [exact Ha|].
  cbn [fold_left]. apply IH. unfold Spec.ema_step, bounded in *.
  destruct Ha, Hx. split; lra.
Qed.

(** The smoothed value of a history of tempi is a tempo. *)
Lemma smooth_bounded (lo hi : Q) (history : list Q) :
  history <> [] -> Forall (bounded lo hi) history ->
  bounded lo hi (smooth history).
Proof.
  intros Hne Hall.
  assert (H : bounded lo hi (Spec.live_bpm history)).
  { unfold Spec.live_bpm. destruct (3 <=? length history)%nat.
    - destruct history as [|a t]; [congruence|].
      apply ema_fold_bounded; [discriminate|].
      cbn [Spec.median_filter3]. inversion Hall; subst.
      constructor; [assumption|]. now apply filter_interior_bounded.
    - now apply median_bounds. }
  unfold bounded in *. rewrite smooth_spec. exact H.
Qed.

Lemma push_history_forall (P : Q -> Prop) (history : list Q) (current_bpm : Q) :
  Forall P history -> P current_bpm ->
  Forall P (push_history history current_bpm).
Proof.
  intros Hh Hc. unfold push_history.
  assert (Hall : Forall P (history ++ [current_bpm]))
    by (apply Forall_app; split; [assumption|now constructor]).
  destruct (_ <? _)%Z; [|exact Hall].
  unfold Py.slice_from. rewrite Forall_forall in *.
  intros x Hx. apply Hall. eapply skipn_in, Hx.
Qed.

Lemma push_history_nonempty (history : list Q) (current_bpm : Q) :
  push_history history current_bpm <> [].
Proof.
  intros E. apply (f_equal (@length Q)) in E.
  rewrite push_history_length in E. cbn in E. lia.
Qed.

Section RunFacts.

Variable sqrtQ : Q -> Q.
Variable magnitude_spectrum : list fval -> list fval.

Lemma analyze_ok_estimate (self_frame self_hop : Z) (audio_data : list Q)
  (sample_rate : Z) (v : Q) :
  analyze_audio_data sqrtQ magnitude_spectrum (configured self_frame self_hop)
    audio_data sample_rate = Ok v ->
  v = 0 \/ Spec.in_range v.
Proof.
  unfold analyze_audio_data.
  destruct (_detect_beats_improved _ _ _ _ _) as [beats|e]; cbn [bind];
    [|discriminate].
  intros [= <-]. apply analyze_beats_range.
Qed.

Lemma analyze_positive_in_range (segment : list Q) (sample_rate : Z) (v : Q) :
  analyze sqrtQ magnitude_spectrum segment sample_rate = Ok v ->
  0 < v -> Spec.in_range v.
Proof.
  intros H Hpos. apply analyze_ok_estimate in H.
  destruct H as [-> | H]; [exfalso; lra|exact H].
Qed.

Lemma segment_loop_range (analysis_buffer : list Q) (sample_rate : Z)
  (segment_samples overlap_samples : Z) (indices : list Z) (bpms : list Q) :
  segment_loop sqrtQ magnitude_spectrum analysis_buffer sample_rate
    segment_samples overlap_samples indices = Ok bpms ->
  Forall Spec.in_range bpms /\ (length bpms <= length indices)%nat.
Proof.
  revert bpms. induction indices as [|i rest IH]; intros bpms; cbn [segment_loop].
  - intros [= <-]. split; [constructor|reflexivity].
  - destruct (analyze _ _ _ _) as [v|e] eqn:Ev; cbn [bind]; [|discriminate].
    destruct (segment_loop _ _ _ _ _ _ rest) as [bs|e]; cbn [bind];
      [|discriminate].
    destruct (IH bs eq_refl) as [IH1 IH2].
    destruct (Qlt_le_dec 0 v) as [Hpos|_]; intros [= <-].
    + split; [|cbn; lia]. constructor; [|exact IH1].
      eapply analyze_positive_in_range; eassumption.
    + split; [exact IH1|cbn; lia].
Qed.

Lemma segment_bpms_range (app : BPMGUIApp) (bpms : list Q) :
  segment_bpms sqrtQ magnitude_spectrum app = Ok bpms ->
  Forall Spec.in_range bpms /\ (length bpms <= 3)%nat.
Proof.
  unfold segment_bpms.
  destruct (normalize_window _) as [w|e]; cbn [bind]; [|discriminate].
  intros H. apply segment_loop_range in H. exact H.
Qed.

Lemma step_series (app app' : BPMGUIApp) :
  mic_step sqrtQ magnitude_spectrum app app' ->
  series_ok app ->
  series_ok app'
  /\ mic_bpm_sample_interval app' = mic_bpm_sample_interval app
  /\ exists added, mic_time_bpm_pairs app' = mic_time_bpm_pairs app ++ added.
Proof.
  intros Hstep Hok. destruct Hstep as [indata | now_ts app' Hpass].
  - destruct (callback_frame app indata) as (_ & _ & Hs & Hst & Hl & Hi).
    split; [|split; [exact Hi|exists []; now rewrite app_nil_r]].
    unfold series_ok in *. now rewrite Hs, Hst, Hl, Hi.
  - unfold monitor_pass in Hpass.
    assert (Hrec : forall app1,
              series_ok app1 ->
              mic_bpm_sample_interval app1 = mic_bpm_sample_interval app ->
              mic_time_bpm_pairs app1 = mic_time_bpm_pairs app ->
              series_ok (record_sample app1 now_ts)
              /\ mic_bpm_sample_interval (record_sample app1 now_ts)
                 = mic_bpm_sample_interval app
              /\ exists added,
                   mic_time_bpm_pairs (record_sample app1 now_ts)
                   = mic_time_bpm_pairs app ++ added).
    { intros app1 H1 H2 H3. split; [now apply record_sample_series|].
      destruct (record_sample_frame app1 now_ts) as (_ & _ & Hi).
      split; [congruence|]. rewrite <- H3. apply record_sample_appends. }
    assert (Hsame : series_ok app
                    /\ mic_bpm_sample_interval app = mic_bpm_sample_interval app
                    /\ exists added,
                         mic_time_bpm_pairs app = mic_time_bpm_pairs app ++ added)
      by (split; [exact Hok|split; [reflexivity|exists []; now rewrite app_nil_r]]).
    destruct (_ <=? _)%Z.
    + unfold stable_update in Hpass.
      destruct (segment_bpms _ _ app) as [bpms|e]; cbn [bind] in Hpass;
        [|discriminate].
      injection Hpass as <-.
      destruct bpms as [|b bs]; [destruct (Qeq_bool (mic_bpm app) 0)|];
        apply Hrec; try reflexivity; exact Hok.
    + destruct (_ <=? _)%Z; [|now injection Hpass as <-].
      unfold quick_update in Hpass.
      destruct (normalize_window _) as [w|e]; cbn [bind] in Hpass;
        [|discriminate].
      destruct (analyze _ _ w _) as [q|e]; cbn [bind] in Hpass; [|discriminate].
      destruct (Qlt_le_dec 0 q); injection Hpass as <-; [|exact Hsame].
      apply Hrec; try reflexivity; exact Hok.
Qed.

Lemma record_sample_estimates (app : BPMGUIApp) (now_ts : Q) :
  estimates_only app -> estimates_only (record_sample app now_ts).
Proof.
  intros (Hb & Hh & Hs). unfold record_sample.
  destruct (Qle_bool _ _); [|now repeat split].
  unfold estimates_only. cbn. repeat split; try assumption.
  apply Forall_app. split; [assumption|].
  constructor; [exact Hb|constructor].
Qed.

Lemma step_estimates (app app' : BPMGUIApp) :
  mic_step sqrtQ magnitude_spectrum app app' ->
  estimates_only app -> estimates_only app'.
Proof.
  intros Hstep (Hb & Hh & Hs). destruct Hstep as [indata | now_ts app' Hpass].
  - destruct (callback_frame app indata) as (E1 & E2 & E3 & _).
    unfold estimates_only. now rewrite E1, E2, E3.
  - unfold monitor_pass in Hpass.
    destruct (_ <=? _)%Z.
    + unfold stable_update in Hpass.
      destruct (segment_bpms _ _ app) as [bpms|e] eqn:Eb; cbn [bind] in Hpass;
        [|discriminate].
      injection Hpass as <-. apply record_sample_estimates.
      destruct bpms as [|b bs].
      * destruct (Qeq_bool (mic_bpm app) 0); [|now repeat split].
        unfold estimates_only. cbn. repeat split; try assumption.
        left. reflexivity.
      * destruct (segment_bpms_range app _ Eb) as [Hr _].
        assert (Hm : Spec.in_range (Np.median (b :: bs)))
          by (apply (median_bounds 40 220); [discriminate|exact Hr]).
        pose proof (push_history_forall _ _ _ Hh Hm) as Hh'.
        unfold estimates_only. cbn. repeat split; try assumption.
        right. apply (smooth_bounded 40 220); [apply push_history_nonempty|].
        exact Hh'.
    + destruct (_ <=? _)%Z; [|now injection Hpass as <-].
      unfold quick_update in Hpass.
      destruct (normalize_window _) as [w|e]; cbn [bind] in Hpass;
        [|discriminate].
      destruct (analyze _ _ w _) as [q|e] eqn:Eq; cbn [bind] in Hpass;
        [|discriminate].
      destruct (Qlt_le_dec 0 q) as [Hpos|_]; injection Hpass as <-;
        [|now repeat split].
      apply record_sample_estimates. unfold estimates_only. cbn.
      repeat split; try assumption.
      right. eapply analyze_positive_in_range; eassumption.
Qed.


(** The live value, the history entries and the recorded values of a
    session are estimates throughout: 0 or within [40, 220] (history
    entries within [40, 220]), if the live value is one when the session
    starts. *)
Theorem session_values_are_estimates (app app' : BPMGUIApp) (now interval : Q) :
  estimate (mic_bpm app) ->
  mic_run sqrtQ magnitude_spectrum (start_mic_monitoring app now interval) app' ->
  estimate (mic_bpm app')
  /\ Forall Spec.in_range (mic_bpm_history app')
  /\ Forall (fun p => estimate (snd p)) (mic_time_bpm_pairs app').
Proof.
  intros Hstart Hrun. change (estimates_only app').
  induction Hrun as [|app1 app2 _ IH Hstep].
  - unfold estimates_only. cbn. repeat split; try assumption; try constructor.
    + left. reflexivity.
    + constructor.
  - eapply step_estimates; eassumption.
Qed.

End RunFacts.


Lemma session_values_are_estimates_witness :
  estimate
    (mic_bpm (audio_callback
                (start_mic_monitoring (mkBPMGUIApp [] [] 1 0 0 0 3 []) 0 3)
                [0; 0; 0])).
Proof.
  apply (session_values_are_estimates (fun x => x) (fun _ => [])
           (mkBPMGUIApp [] [] 1 0 0 0 3 []) _ 0 3).
  - left. reflexivity.
  - eapply run_step; [apply run_here|]. apply (step_chunk _ _ _ [0; 0; 0]).
Defined.

(** Between the steps of a session the buffer holds at most 10 seconds at
    44100 Hz and the history at most 20 entries; and once the history is
    non-empty the buffer holds at least 7 seconds (the loop never falls
    back to the cold-start phase) and the live value is the smoothed
    history. *)
Theorem session_bounds_and_live_value
  (sqrtQ : Q -> Q) (magnitude_spectrum : list fval -> list fval)
  (app : BPMGUIApp) :
  session sqrtQ magnitude_spectrum app ->
  mic_sample_rate app = 44100%Z
  /\ (Py.len (mic_buffer app) <= 441000)%Z
  /\ (length (mic_bpm_history app) <= 20)%nat
  /\ (mic_bpm_history app <> [] ->
      (308700 <= Py.len (mic_buffer app))%Z
      /\ mic_bpm app == Spec.live_bpm (mic_bpm_history app)).
Proof.
  intros Hs.
  destruct (session_keeps_invariant sqrtQ magnitude_spectrum app Hs)
    as (Hsr & Hbuf & Hlen & Hlive).
  rewrite Hsr in *.
  split; [reflexivity|]. split; [lia|]. split; [exact Hlen|].
  intros Hne. destruct Hlive as [H|[H7 H]]; [congruence|].
  split; [lia|exact H].
Qed.

Lemma session_bounds_and_live_value_witness :
  (Py.len (mic_buffer
     (audio_callback
        (start_mic_monitoring (mkBPMGUIApp [] [] 44100 0 0 0 3 []) 0 3)
        [0; 0; 0]%Q)) <= 441000)%Z.
Proof.
  apply (session_bounds_and_live_value (fun x => x) (fun _ => [])).
  apply session_chunk. apply session_start. reflexivity.
Defined.

(** ** Beat detection: what the returned beats are *)

Lemma merge_le_subsequence (rest : list Q) (x : Q) :
  subsequence (Spec.merge_le x rest) rest.
Proof.
  revert x. induction rest as [|b t IH]; intros x; cbn [Spec.merge_le].
  - constructor.
  - destruct (Qlt_le_dec (5 # 100) (b - x)); constructor; apply IH.
Qed.

Lemma merge_le_fixed (l : list Q) (x : Q) :
  Sorted Spec.apart (x :: l) -> Spec.merge_le x l = l.
Proof.
  revert x. induction l as [|b t IH]; intros x Hs; [reflexivity|].
  inversion Hs as [|? ? Hs' Hhd]; subst. inversion Hhd as [|? ? Hgap]; subst.
  cbn [Spec.merge_le]. unfold Spec.apart in Hgap.
  destruct (Qlt_le_dec (5 # 100) (b - x)) as [_|H]; [|exfalso; lra].
  f_equal. now apply IH.
Qed.

Lemma subsequence_in {A : Type} (l l' : list A) (x : A) :
  subsequence l l' -> In x l -> In x l'.
Proof.
  induction 1 as [|y l l' _ IH|y l l' _ IH]; cbn; intros H.
  - contradiction.
  - destruct H as [H|H]; [now left|right; now apply IH].
  - right. now apply IH.
Qed.

Lemma refine_beats_subsequence (beats : list Q) :
  subsequence (refine_beats beats) beats.
Proof.
  rewrite refine_beats_merge. destruct beats as [|b t]; [constructor|].
  cbn [Spec.refractory_le]. constructor. apply merge_le_subsequence.
Qed.

(** The refractory merge only deletes beats, and merging again changes
    nothing. *)
Theorem refine_beats_thins_once (beats : list Q) :
  subsequence (refine_beats beats) beats
  /\ refine_beats (refine_beats beats) = refine_beats beats
  /\ (length (refine_beats beats) <= length beats)%nat.
Proof.
  pose proof (refine_beats_subsequence beats) as Hsub.
  split; [exact Hsub|]. split.
  - rewrite !refine_beats_merge. destruct beats as [|b t]; [reflexivity|].
    cbn [Spec.refractory_le]. f_equal.
    apply merge_le_fixed, merge_le_apart.
  - clear -Hsub. induction Hsub; cbn; lia.
Qed.

Lemma map2_length_le (f : fval -> fval -> fval) (l l' : list fval) :
  (length (F.map2 f l l') <= length l)%nat.
Proof.
  revert l'. induction l as [|x t IH]; intros [|y t']; cbn; try lia.
  specialize (IH t'). lia.
Qed.

Lemma combine_length_le (energy spectral_flux : list fval) :
  (length (combine energy spectral_flux) <= length energy)%nat.
Proof.
  unfold combine. etransitivity; [apply map2_length_le|].
  unfold Py.slice_to. rewrite length_firstn. lia.
Qed.

(** With a positive hop size the frames start at 0, hop, 2 hop, ..., each
    start strictly below [len - frame_size]. *)
Lemma frames_count (self : BPMAnalyzer) (audio : list fval)
  (fs : list (list fval)) :
  (0 < hop_size self)%Z ->
  frames self audio = Ok fs ->
  forall k, (1 <= k <= Z.of_nat (length fs))%Z ->
    ((k - 1) * hop_size self < Py.len audio - frame_size self)%Z.
Proof.
  intros Hhop. unfold frames, Py.range3.
  destruct (Z.eqb_spec (hop_size self) 0); [lia|].
  destruct (Z.ltb_spec 0 (hop_size self)); [|lia].
  cbn [bind]. intros [= <-] k Hk.
  rewrite length_map, length_map, length_seq in Hk.
  set (stop := (Py.len audio - frame_size self)%Z) in *.
  set (step := hop_size self) in *.
  assert (Hq : (k <= (stop - 0 + step - 1) / step)%Z) by lia.
  assert (Hdiv : (step * ((stop - 0 + step - 1) / step) <= stop - 0 + step - 1)%Z)
    by (apply Z.mul_div_le; lia).
  nia.
Qed.

Section BeatFacts.

Variable sqrtQ : Q -> Q.
Variable magnitude_spectrum : list fval -> list fval.

Lemma peaks_loop_times (self : BPMAnalyzer) (combined_onset thresholds : list fval)
  (sample_rate : Z) (indices : list Z) (beats : list Q) :
  peaks_loop self combined_onset thresholds sample_rate indices = Ok beats ->
  Forall (fun t => exists i, In i indices
                    /\ t = inject_Z (i * hop_size self) / inject_Z sample_rate)
         beats.
Proof.
  revert beats. induction indices as [|i rest IH]; intros beats;
    cbn [peaks_loop].
  - intros [= <-]. constructor.
  - destruct (is_peak combined_onset thresholds i).
    + unfold beat_time. destruct (sample_rate =? 0)%Z; cbn [bind];
        [discriminate|].
      destruct (peaks_loop self combined_onset thresholds sample_rate rest)
        as [ts|e]; cbn [bind]; [|discriminate].
      intros [= <-]. constructor.
      * exists i. split; [now left|reflexivity].
      * eapply Forall_impl; [|apply IH; reflexivity].
        intros t (j & Hj & Ht). exists j. split; [now right|exact Ht].
    + intros H. eapply Forall_impl; [|apply IH; exact H].
      intros t (j & Hj & Ht). exists j. split; [now right|exact Ht].
Qed.


End BeatFacts.


(** ** Equal rationals give equal results *)

Lemma Qlist_refl (l : list Q) : Forall2 Qeq l l.
Proof. induction l; constructor; [reflexivity|assumption]. Qed.

Lemma Qlist_trans (l1 l2 l3 : list Q) :
  Forall2 Qeq l1 l2 -> Forall2 Qeq l2 l3 -> Forall2 Qeq l1 l3.
Proof.
  intros H. revert l3. induction H as [|x y t t' Hxy _ IH]; intros l3 H3;
    inversion H3; subst; constructor.
  - etransitivity; eassumption.
  - now apply IH.
Qed.

Lemma Qlist_length (l l' : list Q) : Forall2 Qeq l l' -> length l = length l'.
Proof. induction 1; cbn; congruence. Qed.

Lemma Qlist_app (l1 l1' l2 l2' : list Q) :
  Forall2 Qeq l1 l1' -> Forall2 Qeq l2 l2' -> Forall2 Qeq (l1 ++ l2) (l1' ++ l2').
Proof. induction 1; cbn; intros H2; [exact H2|constructor; auto]. Qed.

Lemma insert_compat (x x' : Q) (l l' : list Q) :
  x == x' -> Forall2 Qeq l l' ->
  Forall2 Qeq (Np.insert x l) (Np.insert x' l').
Proof.
  intros Hx H. induction H as [|y y' t t' Hy Ht IH]; cbn [Np.insert].
  - repeat constructor. exact Hx.
  - rewrite (Qleb_comp x x' Hx y y' Hy).
    destruct (Qle_bool x' y'); repeat (constructor; try assumption).
Qed.

Lemma sort_compat (l l' : list Q) :
  Forall2 Qeq l l' -> Forall2 Qeq (Np.sort l) (Np.sort l').
Proof.
  induction 1; cbn [Np.sort]; [constructor|]. now apply insert_compat.
Qed.

Lemma nth_compat (l l' : list Q) (i : nat) :
  Forall2 Qeq l l' -> nth i l 0 == nth i l' 0.
Proof.
  intros H. revert i. induction H; intros [|i]; cbn; try reflexivity; auto.
Qed.

Lemma firstn_compat (n : nat) (l l' : list Q) :
  Forall2 Qeq l l' -> Forall2 Qeq (firstn n l) (firstn n l').
Proof.
  intros H. revert n. induction H; intros [|n]; cbn; constructor; auto.
Qed.

Lemma skipn_compat (n : nat) (l l' : list Q) :
  Forall2 Qeq l l' -> Forall2 Qeq (skipn n l) (skipn n l').
Proof.
  intros H. revert n. induction H; intros [|n]; cbn; try constructor; auto.
Qed.

Lemma slice_compat (l l' : list Q) (i j : Z) :
  Forall2 Qeq l l' -> Forall2 Qeq (Py.slice l i j) (Py.slice l' i j).
Proof.
  intros H. unfold Py.slice. rewrite <- (Qlist_length _ _ H).
  now apply firstn_compat, skipn_compat.
Qed.

Lemma sum_compat (l l' : list Q) : Forall2 Qeq l l' -> Np.sum l == Np.sum l'.
Proof.
  induction 1 as [|x y t t' Hxy _ IH]; cbn [Np.sum fold_right]; [reflexivity|].
  fold (Np.sum t). fold (Np.sum t'). now rewrite Hxy, IH.
Qed.

Lemma mean_compat (l l' : list Q) : Forall2 Qeq l l' -> Np.mean l == Np.mean l'.
Proof.
  intros H. unfold Np.mean, Py.len.
  now rewrite (sum_compat _ _ H), (Qlist_length _ _ H).
Qed.

Lemma median_compat (l l' : list Q) :
  Forall2 Qeq l l' -> Np.median l == Np.median l'.
Proof.
  intros H. unfold Np.median. rewrite <- (Qlist_length _ _ H).
  pose proof (sort_compat _ _ H) as Hs.
  destruct (Nat.even (length l)).
  - now rewrite (nth_compat _ _ (length l / 2 - 1) Hs),
      (nth_compat _ _ (length l / 2) Hs).
  - apply nth_compat, Hs.
Qed.

Lemma percentile_compat (l l' : list Q) (p : Z) :
  Forall2 Qeq l l' -> Np.percentile l p == Np.percentile l' p.
Proof.
  intros H. unfold Np.percentile, Py.item, Py.len.
  rewrite <- (Qlist_length _ _ H).
  pose proof (sort_compat _ _ H) as Hs.
  set (n := Z.of_nat (length l)).
  now rewrite (nth_compat _ _ (Z.to_nat ((n - 1) * p / 100)) Hs),
    (nth_compat _ _ (Z.to_nat (Z.min ((n - 1) * p / 100 + 1) (n - 1))) Hs).
Qed.

Lemma filter_compat (f f' : Q -> bool) (l l' : list Q) :
  (forall x x', x == x' -> f x = f' x') ->
  Forall2 Qeq l l' -> Forall2 Qeq (filter f l) (filter f' l').
Proof.
  intros Hf. induction 1 as [|x y t t' Hxy _ IH]; cbn [filter]; [constructor|].
  rewrite (Hf x y Hxy). destruct (f' y); [constructor|]; assumption.
Qed.

Lemma filter_iqr_compat (l l' : list Q) :
  Forall2 Qeq l l' ->
  Forall2 Qeq (_filter_outliers_iqr l) (_filter_outliers_iqr l').
Proof.
  intros H. destruct H as [|x y t t' Hxy Ht]; [constructor|].
  assert (H : Forall2 Qeq (x :: t) (y :: t')) by now constructor.
  unfold _filter_outliers_iqr.
  apply filter_compat; [|exact H].
  intros v v' Hv.
  pose proof (percentile_compat _ _ 25 H) as E1.
  pose proof (percentile_compat _ _ 75 H) as E3.
  f_equal; apply Qleb_comp; try assumption; now rewrite E1, E3.
Qed.

Lemma map_compat (g g' : Z -> Q) (indices : list Z) :
  (forall i, g i == g' i) -> Forall2 Qeq (map g indices) (map g' indices).
Proof. intros H. induction indices; cbn; constructor; auto. Qed.

Lemma moving_average_compat (l l' : list Q) (w : Z) :
  Forall2 Qeq l l' -> Forall2 Qeq (_moving_average l w) (_moving_average l' w).
Proof.
  intros H. unfold _moving_average, Py.len.
  rewrite <- (Qlist_length _ _ H).
  destruct (_ <? _)%Z; [exact H|].
  apply map_compat. intros i. now apply mean_compat, slice_compat.
Qed.

Lemma smooth_filtered_compat (self : BPMAnalyzer) (l l' : list Q) :
  Forall2 Qeq l l' -> smooth_filtered self l == smooth_filtered self l'.
Proof.
  intros H. unfold smooth_filtered, Py.len.
  rewrite <- (Qlist_length _ _ H).
  destruct (_ <=? _)%Z.
  - now apply mean_compat, moving_average_compat.
  - now apply mean_compat.
Qed.

Lemma aggregate_compat (self : BPMAnalyzer) (l l' : list Q) :
  Forall2 Qeq l l' -> aggregate self l == aggregate self l'.
Proof.
  intros H. unfold aggregate.
  pose proof (filter_iqr_compat _ _ H) as Hf.
  destruct Hf as [|x y t t' Hxy Ht].
  - destruct H; [reflexivity|]. apply median_compat. now constructor.
  - apply smooth_filtered_compat. now constructor.
Qed.

Lemma candidates_of_interval_compat (x x' : Q) :
  x == x' ->
  Forall2 Qeq (candidates_of_interval x) (candidates_of_interval x').
Proof.
  intros Hx. unfold candidates_of_interval.
  destruct (Qlt_le_dec 0 x) as [H|H], (Qlt_le_dec 0 x') as [H'|H'];
    try (exfalso; rewrite Hx in H; lra); [|constructor].
  apply filter_compat.
  - intros v v' Hv. f_equal; apply Qleb_comp; try assumption; reflexivity.
  - unfold ratios. cbn [map].
    repeat constructor; now rewrite Hx.
Qed.

Lemma flat_map_candidates_compat (l l' : list Q) :
  Forall2 Qeq l l' ->
  Forall2 Qeq (flat_map candidates_of_interval l)
              (flat_map candidates_of_interval l').
Proof.
  induction 1; cbn [flat_map]; [constructor|].
  apply Qlist_app; [now apply candidates_of_interval_compat|assumption].
Qed.

Lemma intervals_shift (beats : list Q) (c : Q) :
  Forall2 Qeq (intervals_of (map (fun t => t + c) beats)) (intervals_of beats).
Proof.
  induction beats as [|a t IH]; [constructor|].
  destruct t as [|b t']; [constructor|].
  cbn [map] in *. rewrite !intervals_cons. constructor; [ring|exact IH].
Qed.


(** ** A steady pulse *)

Lemma Qle_bool_true (x y : Q) : x <= y -> Qle_bool x y = true.
Proof. apply Qle_bool_iff. Qed.

Lemma Qle_bool_false (x y : Q) : y < x -> Qle_bool x y = false.
Proof.
  intros H. destruct (Qle_bool x y) eqn:E; [|reflexivity].
  apply Qle_bool_iff in E. exfalso. lra.
Qed.

Lemma steady_intervals (t0 d : Q) (m s : nat) :
  Forall2 Qeq
    (intervals_of (map (fun k => t0 + inject_Z (Z.of_nat k) * d) (seq s (S m))))
    (repeat d m).
Proof.
  revert s. induction m as [|m IH]; intros s; [constructor|].
  change (seq s (S (S m))) with (s :: S s :: seq (S (S s)) m).
  cbn [map]. rewrite intervals_cons. cbn [repeat]. constructor.
  - rewrite Nat2Z.inj_succ, <- Z.add_1_r, inject_Z_plus. ring.
  - apply (IH (S s)).
Qed.

Lemma flat_map_repeat (a b d : Q) (m : nat) :
  candidates_of_interval d = [a; b] ->
  flat_map candidates_of_interval (repeat d m) = concat (repeat [a; b] m).
Proof.
  intros H. induction m as [|m IH]; [reflexivity|].
  cbn [repeat flat_map concat]. now rewrite H, IH.
Qed.

Section Pattern.

Variables a b : Q.
Hypothesis Hab : a < b.

Lemma insert_high (j k : nat) :
  Np.insert b (repeat a j ++ repeat b k) = repeat a j ++ repeat b (S k).
Proof.
  induction j as [|j IH]; cbn [repeat app Np.insert].
  - destruct k; cbn [repeat Np.insert]; [reflexivity|].
    now rewrite Qle_bool_true by lra.
  - rewrite Qle_bool_false by exact Hab. now rewrite IH.
Qed.

Lemma insert_low (j k : nat) :
  Np.insert a (repeat a j ++ repeat b (S k)) = repeat a (S j) ++ repeat b (S k).
Proof.
  destruct j; cbn [repeat app Np.insert]; now rewrite Qle_bool_true by lra.
Qed.

Lemma sort_pattern (m : nat) :
  Np.sort (concat (repeat [a; b] m)) = repeat a m ++ repeat b m.
Proof.
  induction m as [|m IH]; [reflexivity|].
  cbn [repeat concat app Np.sort]. 
  change (Np.sort (concat (repeat [a; b] m))) with (Np.sort (concat (repeat [a; b] m))).
  rewrite IH, insert_high, insert_low. reflexivity.
Qed.

Lemma pattern_length (m : nat) : length (concat (repeat [a; b] m)) = (2 * m)%nat.
Proof. induction m as [|m IH]; cbn [repeat concat app length]; lia. Qed.

Lemma pattern_in (m : nat) (v : Q) :
  In v (concat (repeat [a; b] m)) -> v = a \/ v = b.
Proof.
  induction m as [|m IH]; cbn; [contradiction|].
  intros [H|[H|H]]; auto.
Qed.

Lemma sorted_pattern_item (m : nat) (i : Z) :
  (0 <= i < 2 * Z.of_nat m)%Z ->
  Py.item (repeat a m ++ repeat b m) i
  = if (i <? Z.of_nat m)%Z then a else b.
Proof.
  intros Hi. unfold Py.item.
  destruct (Z.ltb_spec i (Z.of_nat m)).
  - rewrite app_nth1 by (rewrite repeat_length; lia).
    apply nth_repeat_lt. lia.
  - rewrite app_nth2 by (rewrite repeat_length; lia).
    rewrite repeat_length. apply nth_repeat_lt. lia.
Qed.

(** The quartiles of the pattern repeated at least twice are its two
    values. *)
Lemma pattern_quartiles (m : nat) :
  (2 <= m)%nat ->
  Np.percentile (concat (repeat [a; b] m)) 25 == a
  /\ Np.percentile (concat (repeat [a; b] m)) 75 == b.
Proof.
  intros Hm.
  assert (Hne : concat (repeat [a; b] m) <> [])
    by (intros E; apply (f_equal (@length Q)) in E;
        rewrite pattern_length in E; cbn in E; lia).
  destruct (percentile_between _ 25 Hne ltac:(lia)) as (Hi1 & Hh1 & Ha1 & Hb1).
  destruct (percentile_between _ 75 Hne ltac:(lia)) as (Hi3 & Hh3 & Ha3 & Hb3).
  cbv zeta in *. rewrite sort_pattern in *.
  unfold Py.len in *. rewrite pattern_length in *.
  set (n := Z.of_nat (2 * m)) in *.
  assert (Hn : (n = 2 * Z.of_nat m)%Z) by (subst n; lia).
  set (lo1 := ((n - 1) * 25 / 100)%Z) in *.
  set (lo3 := ((n - 1) * 75 / 100)%Z) in *.
  assert (H1 : (lo1 + 1 < Z.of_nat m)%Z /\ (Z.of_nat m <= lo3)%Z).
  { subst lo1 lo3. Z.to_euclidean_division_equations. lia. }
  rewrite !sorted_pattern_item in * by lia.
  destruct (Z.ltb_spec lo1 (Z.of_nat m)); [|lia].
  destruct (Z.ltb_spec (Z.min (lo1 + 1) (n - 1)) (Z.of_nat m)); [|lia].
  destruct (Z.ltb_spec lo3 (Z.of_nat m)); [lia|].
  destruct (Z.ltb_spec (Z.min (lo3 + 1) (n - 1)) (Z.of_nat m)); [lia|].
  split; lra.
Qed.

Lemma filter_all {A : Type} (f : A -> bool) (l : list A) :
  (forall v, In v l -> f v = true) -> filter f l = l.
Proof.
  induction l as [|x t IH]; intros H; [reflexivity|].
  cbn [filter]. rewrite (H x) by now left.
  f_equal. apply IH. intros v Hv. apply H. now right.
Qed.

(** No value of the repeated pattern is an outlier. *)
Lemma pattern_kept (m : nat) :
  (1 <= m)%nat ->
  _filter_outliers_iqr (concat (repeat [a; b] m)) = concat (repeat [a; b] m).
Proof.
  intros Hm.
  assert (Hne : concat (repeat [a; b] m) <> [])
    by (intros E; apply (f_equal (@length Q)) in E;
        rewrite pattern_length in E; cbn in E; lia).
  rewrite filter_iqr_spec by exact Hne.
  apply filter_all. intros v Hv. apply withinb_iff.
  unfold Spec.within, Spec.fence. cbn [fst snd].
  destruct (Nat.eq_dec m 1) as [->|Hm1].
  - (* the pattern once: interpolated quartiles *)
    clear Hne. cbn [repeat concat app] in *.
    unfold Np.percentile. cbn [Np.sort Np.insert].
    rewrite Qle_bool_true by lra.
    change (Py.len [a; b]) with 2%Z.
    cbn -[Qle Qplus Qminus Qmult Qdiv inject_Z].
    change (Pos.to_nat 1) with 1%nat. cbv iota.
    change (inject_Z 25 / 100) with (25 # 100).
    change (inject_Z 75 / 100) with (75 # 100).
    destruct Hv as [<-|[<-|[]]]; split; lra.
  - destruct (pattern_quartiles m ltac:(lia)) as [E1 E3].
    rewrite E1, E3.
    destruct (pattern_in m v Hv) as [-> | ->]; split; lra.
Qed.

Lemma window_means_pattern (k : nat) :
  Spec.window_means (concat (repeat [a; b] (S k)))
  = concat (repeat [Np.mean [a; b; a]; Np.mean [b; a; b]] k).
Proof.
  induction k as [|k IH]; [reflexivity|].
  change (concat (repeat [a; b] (S (S k))))
    with (a :: b :: concat (repeat [a; b] (S k))).
  change (concat (repeat [a; b] (S k)))
    with (a :: b :: concat (repeat [a; b] k)) at 1.
  rewrite !window_means_cons.
  change (a :: b :: concat (repeat [a; b] k))
    with (concat (repeat [a; b] (S k))).
  rewrite IH. reflexivity.
Qed.

End Pattern.

Lemma mean_pattern (x y : Q) (k : nat) :
  (1 <= k)%nat -> Np.mean (concat (repeat [x; y] k)) == (x + y) / 2.
Proof.
  intros Hk.
  assert (Hsum : Np.sum (concat (repeat [x; y] k))
                 == inject_Z (Z.of_nat k) * (x + y)).
  { clear Hk. induction k as [|k IH]; [cbn; ring|].
    cbn [repeat concat app Np.sum fold_right].
    fold (Np.sum (concat (repeat [x; y] k))).
    rewrite IH, Nat2Z.inj_succ, <- Z.add_1_r, inject_Z_plus. ring. }
  unfold Np.mean, Py.len. rewrite Hsum.
  assert (Hl : length (concat (repeat [x; y] k)) = (2 * k)%nat)
    by (clear; induction k; cbn [repeat concat app length]; lia).
  rewrite Hl, Nat2Z.inj_mul, inject_Z_mult.
  assert (Hpos : 0 < inject_Z (Z.of_nat k))
    by (change 0 with (inject_Z 0); rewrite <- Zlt_Qlt; lia).
  change (inject_Z (Z.of_nat 2)) with 2.
  field. lra.
Qed.

(** Two admissible candidates per interval: the estimate is their mean. *)
Lemma aggregate_pattern (frame hop : Z) (a b : Q) (m : nat) :
  a < b -> (1 <= m)%nat ->
  aggregate (configured frame hop) (concat (repeat [a; b] m)) == (a + b) / 2.
Proof.
  intros Hab Hm. unfold aggregate. rewrite (pattern_kept a b Hab m Hm).
  destruct m as [|k]; [lia|].
  destruct (concat (repeat [a; b] (S k))) as [|x t] eqn:E;
    [discriminate|]. rewrite <- E.
  rewrite smooth_filtered_spec, pattern_length.
  destruct (Nat.leb_spec 3 (2 * S k)).
  - rewrite window_means_pattern. rewrite mean_pattern by lia.
    unfold Np.mean, Np.sum, Py.len. cbn [fold_right length].
    change (inject_Z (Z.of_nat 3)) with 3. field.
  - now apply mean_pattern.
Qed.

Lemma insert_skip (x y : Q) (j : nat) (post : list Q) :
  y < x -> Np.insert x (repeat y j ++ post) = repeat y j ++ Np.insert x post.
Proof.
  intros H. induction j as [|j IH]; [reflexivity|].
  cbn [repeat app Np.insert]. rewrite Qle_bool_false by exact H.
  now rewrite IH.
Qed.

Lemma insert_front (x y : Q) (k : nat) (post : list Q) :
  x <= y ->
  Np.insert x (repeat x k ++ y :: post) = repeat x (S k) ++ y :: post.
Proof.
  intros H. destruct k; cbn [repeat app Np.insert];
    now rewrite Qle_bool_true by lra.
Qed.

Lemma insert_last (x : Q) (k : nat) :
  Np.insert x (repeat x k) = repeat x (S k).
Proof.
  destruct k; cbn [repeat Np.insert]; [reflexivity|].
  now rewrite Qle_bool_true by lra.
Qed.

Lemma sort_repeat (x : Q) (m : nat) : Np.sort (repeat x m) = repeat x m.
Proof.
  induction m as [|m IH]; [reflexivity|].
  cbn [repeat Np.sort]. rewrite IH. apply insert_last.
Qed.

Lemma mean_of_equals (v : Q) (l : list Q) :
  l <> [] -> Forall (fun x => x == v) l -> Np.mean l == v.
Proof.
  intros Hne Hall.
  assert (H : bounded v v (Np.mean l)).
  { apply mean_bounds; [exact Hne|].
    eapply Forall_impl; [|exact Hall].
    intros x Hx. unfold bounded. rewrite Hx. split; lra. }
  destruct H. lra.
Qed.

Section Pattern3.

Variables a b c : Q.
Hypothesis Hab : a < b.
Hypothesis Hbc : b < c.

Lemma sort_pattern3 (m : nat) :
  Np.sort (concat (repeat [a; b; c] m))
  = repeat a m ++ repeat b m ++ repeat c m.
Proof.
  induction m as [|m IH]; [reflexivity|].
  cbn [repeat concat app Np.sort]. rewrite IH.
  rewrite (insert_skip c a) by lra. rewrite (insert_skip c b) by lra.
  rewrite insert_last.
  rewrite (insert_skip b a) by lra.
  change (repeat c (S m)) with (c :: repeat c m).
  rewrite insert_front by lra.
  change (repeat b (S m)) with (b :: repeat b m). cbn [app].
  rewrite insert_front by lra. reflexivity.
Qed.

Lemma pattern3_length (m : nat) :
  length (concat (repeat [a; b; c] m)) = (3 * m)%nat.
Proof. induction m as [|m IH]; cbn [repeat concat app length]; lia. Qed.

Lemma pattern3_in (m : nat) (v : Q) :
  In v (concat (repeat [a; b; c] m)) -> v = a \/ v = b \/ v = c.
Proof.
  induction m as [|m IH]; cbn; [contradiction|].
  intros [H|[H|[H|H]]]; auto.
Qed.

Lemma sorted_pattern3_item (m : nat) (i : Z) :
  (0 <= i < 3 * Z.of_nat m)%Z ->
  Py.item (repeat a m ++ repeat b m ++ repeat c m) i
  = if (i <? Z.of_nat m)%Z then a
    else if (i <? 2 * Z.of_nat m)%Z then b else c.
Proof.
  intros Hi. unfold Py.item.
  destruct (Z.ltb_spec i (Z.of_nat m)).
  - rewrite app_nth1 by (rewrite repeat_length; lia).
    apply nth_repeat_lt. lia.
  - rewrite app_nth2 by (rewrite repeat_length; lia).
    rewrite repeat_length.
    destruct (Z.ltb_spec i (2 * Z.of_nat m)).
    + rewrite app_nth1 by (rewrite repeat_length; lia).
      apply nth_repeat_lt. lia.
    + rewrite app_nth2 by (rewrite repeat_length; lia).
      rewrite repeat_length. apply nth_repeat_lt. lia.
Qed.

Lemma pattern3_quartiles (m : nat) :
  (4 <= m)%nat ->
  Np.percentile (concat (repeat [a; b; c] m)) 25 == a
  /\ Np.percentile (concat (repeat [a; b; c] m)) 75 == c.
Proof.
  intros Hm.
  assert (Hne : concat (repeat [a; b; c] m) <> [])
    by (intros E; apply (f_equal (@length Q)) in E;
        rewrite pattern3_length in E; cbn in E; lia).
  destruct (percentile_between _ 25 Hne ltac:(lia)) as (Hi1 & Hh1 & Ha1 & Hb1).
  destruct (percentile_between _ 75 Hne ltac:(lia)) as (Hi3 & Hh3 & Ha3 & Hb3).
  cbv zeta in *. rewrite sort_pattern3 in *.
  unfold Py.len in *. rewrite pattern3_length in *.
  set (n := Z.of_nat (3 * m)) in *.
  assert (Hn : (n = 3 * Z.of_nat m)%Z) by (subst n; lia).
  set (lo1 := ((n - 1) * 25 / 100)%Z) in *.
  set (lo3 := ((n - 1) * 75 / 100)%Z) in *.
  assert (H1 : (lo1 + 1 < Z.of_nat m)%Z /\ (2 * Z.of_nat m <= lo3)%Z).
  { subst lo1 lo3. Z.to_euclidean_division_equations. lia. }
  rewrite !sorted_pattern3_item in * by lia.
  destruct (Z.ltb_spec lo1 (Z.of_nat m)); [|lia].
  destruct (Z.ltb_spec (Z.min (lo1 + 1) (n - 1)) (Z.of_nat m)); [|lia].
  destruct (Z.ltb_spec lo3 (Z.of_nat m)); [lia|].
  destruct (Z.ltb_spec lo3 (2 * Z.of_nat m)); [lia|].
  destruct (Z.ltb_spec (Z.min (lo3 + 1) (n - 1)) (Z.of_nat m)); [lia|].
  destruct (Z.ltb_spec (Z.min (lo3 + 1) (n - 1)) (2 * Z.of_nat m)); [lia|].
  split; lra.
Qed.

(** The fence of the pattern repeated up to three times, from its
    interpolated quartiles. *)
Lemma pattern3_fence_small (m : nat) :
  (1 <= m <= 3)%nat ->
  fst (Spec.fence (concat (repeat [a; b; c] m))) <= a
  /\ c <= snd (Spec.fence (concat (repeat [a; b; c] m))).
Proof.
  intros Hm. unfold Spec.fence, Np.percentile. cbn [fst snd].
  rewrite sort_pattern3. unfold Py.len. rewrite pattern3_length.
  assert (Hcases : m = 1%nat \/ m = 2%nat \/ m = 3%nat) by lia.
  destruct Hcases as [-> | [-> | ->]];
    cbn -[Qle Qplus Qminus Qmult Qdiv inject_Z Pos.to_nat];
    repeat match goal with
    | |- context [Pos.to_nat ?p] =>
      let v := eval compute in (Pos.to_nat p) in
      change (Pos.to_nat p) with v
    end;
    cbv iota;
    repeat match goal with
    | |- context [inject_Z ?z / 100] =>
      let v := eval compute in (Qred (inject_Z z / 100)) in
      setoid_replace (inject_Z z / 100) with v by reflexivity
    end;
    split; lra.
Qed.

Lemma pattern3_kept (m : nat) :
  (1 <= m)%nat ->
  _filter_outliers_iqr (concat (repeat [a; b; c] m))
  = concat (repeat [a; b; c] m).
Proof.
  intros Hm.
  assert (Hne : concat (repeat [a; b; c] m) <> [])
    by (intros E; apply (f_equal (@length Q)) in E;
        rewrite pattern3_length in E; cbn in E; lia).
  rewrite filter_iqr_spec by exact Hne.
  apply filter_all. intros v Hv. apply withinb_iff.
  assert (Hfence : fst (Spec.fence (concat (repeat [a; b; c] m))) <= a
                   /\ c <= snd (Spec.fence (concat (repeat [a; b; c] m)))).
  { destruct (Nat.le_gt_cases m 3) as [H3|H3].
    - apply pattern3_fence_small. lia.
    - destruct (pattern3_quartiles m ltac:(lia)) as [E1 E3].
      unfold Spec.fence. cbn [fst snd]. rewrite E1, E3. split; lra. }
  unfold Spec.within. destruct Hfence.
  destruct (pattern3_in m v Hv) as [-> | [-> | ->]]; split; lra.
Qed.

Lemma window_means_pattern3 (k : nat) :
  Forall (fun x => x == (a + b + c) / 3)
         (Spec.window_means (concat (repeat [a; b; c] (S k))))
  /\ Spec.window_means (concat (repeat [a; b; c] (S k))) <> [].
Proof.
  split; [|cbn; discriminate].
  induction k as [|k IH].
  - cbn. constructor; [|constructor].
    unfold Np.mean, Np.sum, Py.len. cbn [fold_right length].
    change (inject_Z (Z.of_nat 3)) with 3. field.
  - change (concat (repeat [a; b; c] (S (S k))))
      with (a :: b :: c :: concat (repeat [a; b; c] (S k))).
    change (concat (repeat [a; b; c] (S k)))
      with (a :: b :: c :: concat (repeat [a; b; c] k)) at 1.
    do 3 rewrite window_means_cons.
    change (a :: b :: c :: concat (repeat [a; b; c] k))
      with (concat (repeat [a; b; c] (S k))).
    do 3 (constructor;
          [unfold Np.mean, Np.sum, Py.len; cbn [fold_right length];
           change (inject_Z (Z.of_nat 3)) with 3; field|]).
    exact IH.
Qed.

End Pattern3.

(** Three admissible candidates per interval: the estimate is their
    mean. *)
Lemma aggregate_pattern3 (frame hop : Z) (a b c : Q) (m : nat) :
  a < b -> b < c -> (1 <= m)%nat ->
  aggregate (configured frame hop) (concat (repeat [a; b; c] m))
  == (a + b + c) / 3.
Proof.
  intros Hab Hbc Hm. unfold aggregate.
  rewrite (pattern3_kept a b c Hab Hbc m Hm).
  destruct m as [|k]; [lia|].
  destruct (concat (repeat [a; b; c] (S k))) as [|x t] eqn:E;
    [discriminate|]. rewrite <- E.
  rewrite smooth_filtered_spec, pattern3_length.
  destruct (Nat.leb_spec 3 (3 * S k)); [|lia].
  destruct (window_means_pattern3 a b c k) as [Hall Hne].
  now apply mean_of_equals.
Qed.

(** One admissible candidate per interval: the estimate is that
    candidate. *)
Lemma aggregate_repeat (frame hop : Z) (a : Q) (m : nat) :
  (1 <= m)%nat -> aggregate (configured frame hop) (repeat a m) == a.
Proof.
  intros Hm.
  assert (H : bounded a a (aggregate (configured frame hop) (repeat a m))).
  { apply aggregate_bounded.
    - destruct m; [lia|discriminate].
    - apply Forall_forall. intros x Hx. apply repeat_spec in Hx. subst x.
      unfold bounded. split; lra. }
  destruct H. lra.
Qed.

Lemma flat_map_repeat_list (l : list Q) (d : Q) (m : nat) :
  candidates_of_interval d = l ->
  flat_map candidates_of_interval (repeat d m) = concat (repeat l m).
Proof.
  intros H. induction m as [|m IH]; [reflexivity|].
  cbn [repeat flat_map concat]. now rewrite H, IH.
Qed.

Lemma steady_candidates_list (t0 d : Q) (l : list Q) (n : nat) :
  (2 <= n)%nat ->
  candidates_of_interval d = l ->
  Forall2 Qeq (_calculate_bpm_candidates (steady_beats t0 d n))
              (concat (repeat l (n - 1))).
Proof.
  intros Hn Hc. unfold _calculate_bpm_candidates, steady_beats, Py.len.
  rewrite length_map, length_seq.
  destruct (Z.ltb_spec (Z.of_nat n) 2); [lia|].
  rewrite <- (flat_map_repeat_list l d _ Hc).
  apply flat_map_candidates_compat.
  destruct n as [|m]; [lia|].
  replace (S m - 1)%nat with m by lia. apply steady_intervals.
Qed.

Lemma concat_repeat_one (a : Q) (m : nat) :
  concat (repeat [a] m) = repeat a m.
Proof. induction m as [|m IH]; cbn; [reflexivity|now rewrite IH]. Qed.

Lemma concat_repeat_nil (m : nat) : concat (repeat (@nil Q) m) = [].
Proof. induction m as [|m IH]; cbn; [reflexivity|exact IH]. Qed.

(** The candidates of one interval, by the band its tempo 60/d lies in. *)
Lemma candidates_by_band (d : Q) :
  0 < d ->
  let tempo := 60 / d in
  (tempo < 20 \/ 440 < tempo -> candidates_of_interval d = [])
  /\ (20 <= tempo -> tempo < 40 -> candidates_of_interval d = [tempo * 2])
  /\ (40 <= tempo -> tempo < 80 ->
      candidates_of_interval d = [tempo * 1; tempo * 2])
  /\ (80 <= tempo -> tempo <= 110 ->
      candidates_of_interval d = [tempo * (1 # 2); tempo * 1; tempo * 2])
  /\ (110 < tempo -> tempo <= 220 ->
      candidates_of_interval d = [tempo * (1 # 2); tempo * 1])
  /\ (220 < tempo -> tempo <= 440 ->
      candidates_of_interval d = [tempo * (1 # 2)]).
Proof.
  intros Hd tempo. unfold candidates_of_interval.
  destruct (Qlt_le_dec 0 d) as [_|H]; [|exfalso; lra].
  unfold ratios. cbn [map filter]. fold tempo.
  repeat split; intros;
    repeat match goal with
    | |- context [Qle_bool ?x ?y] =>
      first [ rewrite (Qle_bool_true x y) by lra
            | rewrite (Qle_bool_false x y) by lra ]
    end;
    cbn [andb]; try reflexivity.
  destruct H as [H|H];
    repeat match goal with
    | |- context [Qle_bool ?x ?y] =>
      first [ rewrite (Qle_bool_true x y) by lra
            | rewrite (Qle_bool_false x y) by lra ]
    end;
    cbn [andb]; rewrite ?andb_false_r; reflexivity.
Qed.



(** ** The final analysis of a recording *)

Lemma sort_of_sorted (l : list Q) : StronglySorted Qle l -> Np.sort l = l.
Proof.
  induction 1 as [|x t Hs IH Hall]; [reflexivity|].
  cbn [Np.sort]. rewrite IH.
  destruct t as [|y t']; [reflexivity|].
  cbn [Np.insert]. inversion Hall; subst.
  now rewrite Qle_bool_true.
Qed.

Lemma sorted_skipn (n : nat) (l : list Q) :
  StronglySorted Qle l -> StronglySorted Qle (skipn n l).
Proof.
  intros H. revert n. induction H as [|x t Hs IH Hall]; intros [|n]; cbn;
    try constructor; auto.
Qed.

Lemma sorted_firstn (n : nat) (l : list Q) :
  StronglySorted Qle l -> StronglySorted Qle (firstn n l).
Proof.
  intros H. revert n. induction H as [|x t Hs IH Hall]; intros [|n]; cbn;
    try constructor; auto.
  rewrite Forall_forall in *. intros y Hy. apply Hall.
  eapply firstn_in, Hy.
Qed.

(** The inner part of a list: [l[1:-1]]. *)
Lemma slice_inner (l : list Q) :
  (2 <= length l)%nat ->
  Py.slice l 1 (-1) = firstn (length l - 2) (skipn 1 l).
Proof.
  intros H. unfold Py.slice, Py.clamp.
  destruct (Z.ltb_spec 1 0); [lia|].
  destruct (Z.ltb_spec (-1) 0); [|lia].
  f_equal; [lia|]. f_equal. lia.
Qed.

Lemma nth_inner (l : list Q) (n j : nat) :
  (j < n)%nat -> nth j (firstn n (skipn 1 l)) 0 = nth (S j) l 0.
Proof.
  intros H. rewrite nth_firstn.
  destruct (Nat.ltb_spec j n); [|lia].
  now rewrite nth_skipn.
Qed.

Lemma half_spec (n : nat) :
  (n = 2 * (n / 2) + n mod 2 /\ n mod 2 < 2)%nat.
Proof.
  split; [apply Nat.div_mod_eq|apply Nat.mod_upper_bound; lia].
Qed.

(** Dropping the smallest and the largest value does not move the
    median. *)
Lemma median_inner (l : list Q) :
  (3 <= length l)%nat ->
  Np.median (Py.slice (Np.sort l) 1 (-1)) = Np.median l.
Proof.
  intros H. pose proof (sort_length l) as Hlen.
  rewrite slice_inner by lia. rewrite Hlen.
  set (s := Np.sort l) in *.
  unfold Np.median at 1.
  rewrite (sort_of_sorted (firstn (length l - 2) (skipn 1 s)))
    by (apply sorted_firstn, sorted_skipn, sort_sorted).
  rewrite length_firstn, length_skipn, Hlen.
  replace (Nat.min (length l - 2) (length l - 1)) with (length l - 2)%nat
    by lia.
  unfold Np.median.
  assert (Hpar : Nat.even (length l - 2) = Nat.even (length l)).
  { clear - H. destruct (length l) as [|[|k]]; try lia.
    cbn [Nat.sub]. now rewrite Nat.sub_0_r. }
  assert (Hhalf : ((length l - 2) / 2 = length l / 2 - 1)%nat)
    by (pose proof (half_spec (length l));
        pose proof (half_spec (length l - 2)); lia).
  assert (Hh : (1 <= length l / 2 /\ length l / 2 + 2 <= length l)%nat)
    by (pose proof (half_spec (length l)); lia).
  rewrite Hpar. destruct (Nat.even (length l)) eqn:Ev.
  - apply Nat.even_spec in Ev. destruct Ev as [k Hk].
    assert (Hk2 : (2 <= length l / 2)%nat)
      by (pose proof (half_spec (length l)); lia).
    rewrite !nth_inner by lia.
    rewrite Hhalf.
    replace (S (length l / 2 - 1 - 1)) with (length l / 2 - 1)%nat by lia.
    replace (S (length l / 2 - 1)) with (length l / 2)%nat by lia.
    reflexivity.
  - rewrite nth_inner by lia.
    rewrite Hhalf. f_equal. lia.
Qed.

Lemma median_of_sort (l : list Q) : Np.median (Np.sort l) = Np.median l.
Proof.
  unfold Np.median. rewrite sort_length.
  now rewrite sort_of_sorted by apply sort_sorted.
Qed.

Lemma final_consensus_median_eq (segment_bpms : list Q) :
  segment_bpms <> [] -> final_consensus segment_bpms = Np.median segment_bpms.
Proof.
  intros Hne. unfold final_consensus.
  destruct segment_bpms as [|b bs] eqn:E; [congruence|]. rewrite <- E.
  unfold Py.len. rewrite sort_length.
  destruct (Z.leb_spec 3 (Z.of_nat (length segment_bpms))); [|reflexivity].
  destruct (Z.ltb_spec 3 (Z.of_nat (length segment_bpms))).
  - apply median_inner. lia.
  - apply median_of_sort.
Qed.

(** The consensus of the final analysis is the median of the positive
    segment estimates: sorting them and dropping the smallest and the
    largest, as lines 1868-1877 do, changes nothing. *)
Theorem final_consensus_is_median (segment_bpms : list Q) :
  segment_bpms <> [] ->
  final_consensus segment_bpms = Np.median segment_bpms
  /\ (Forall Spec.in_range segment_bpms ->
      Spec.in_range (final_consensus segment_bpms)).
Proof.
  intros Hne. rewrite final_consensus_median_eq by exact Hne.
  split; [reflexivity|]. intros Hr.
  now apply (median_bounds 40 220).
Qed.

Lemma final_consensus_is_median_witness :
  final_consensus [96; 180; 92; 94; 60] = Np.median [96; 180; 92; 94; 60].
Proof.
  apply (final_consensus_is_median [96; 180; 92; 94; 60]). discriminate.
Defined.

Section FinalFacts.

Variable sqrtQ : Q -> Q.
Variable magnitude_spectrum : list fval -> list fval.

Lemma final_loop_range (full_buffer : list Q) (sample_rate : Z)
  (segment_samples overlap_samples : Z) (indices : list Z) (bpms : list Q) :
  final_loop sqrtQ magnitude_spectrum full_buffer sample_rate
    segment_samples overlap_samples indices = Ok bpms ->
  Forall Spec.in_range bpms /\ (length bpms <= length indices)%nat.
Proof.
  revert bpms. induction indices as [|i rest IH]; intros bpms; cbn [final_loop].
  - intros [= <-]. split; [constructor|reflexivity].
  - destruct (analyze _ _ _ _) as [v|e] eqn:Ev; cbn [bind]; [|discriminate].
    destruct (final_loop _ _ _ _ _ _ rest) as [bs|e]; cbn [bind];
      [|discriminate].
    destruct (IH bs eq_refl) as [IH1 IH2].
    destruct (Qlt_le_dec 0 v) as [Hpos|_]; intros [= <-].
    + split; [|cbn; lia]. constructor; [|exact IH1].
      eapply analyze_positive_in_range; eassumption.
    + split; [exact IH1|cbn; lia].
Qed.

Lemma final_num_segments_bound (len segment_samples overlap_samples n : Z) :
  final_num_segments len segment_samples overlap_samples = Ok n ->
  (0 <= n <= 5)%Z.
Proof.
  unfold final_num_segments.
  destruct (_ <=? _)%Z; [|intros [= <-]; lia].
  destruct (_ =? _)%Z; [discriminate|]. intros [= <-]. lia.
Qed.

Lemma final_estimates_range (full_buffer : list Q) (sample_rate : Z)
  (bpms : list Q) :
  final_estimates sqrtQ magnitude_spectrum full_buffer sample_rate = Ok bpms ->
  Forall Spec.in_range bpms /\ (length bpms <= 5)%nat.
Proof.
  unfold final_estimates.
  destruct (final_num_segments _ _ _) as [n|e] eqn:En; cbn [bind];
    [|discriminate].
  apply final_num_segments_bound in En.
  destruct (final_loop _ _ _ _ _ _ _) as [bs|e] eqn:El; cbn [bind];
    [|discriminate].
  apply final_loop_range in El. destruct El as [Hr Hl].
  rewrite range_length in Hl.
  destruct bs as [|b bs'].
  - destruct (_ <? _)%Z; [|intros [= <-]; split; [constructor|cbn; lia]].
    destruct (analyze _ _ _ _) as [v|e] eqn:Ev; cbn [bind]; [|discriminate].
    destruct (Qlt_le_dec 0 v) as [Hpos|_]; intros [= <-].
    + split; [|cbn; lia]. constructor; [|constructor].
      eapply analyze_positive_in_range; eassumption.
    + split; [constructor|cbn; lia].
  - intros [= <-]. split; [exact Hr|lia].
Qed.

(** The final analysis always ends, with the buffer cleared and a final
    value that is 0 or within [40, 220]; nothing else of the state
    changes.  When nothing raises, the final value is the median of the
    positive segment estimates. *)
Theorem final_analysis_outcome (show_final : Q -> result unit)
  (app : BPMGUIApp) :
  let (final_mic_bpm, app') :=
    _perform_final_mic_analysis sqrtQ magnitude_spectrum show_final app in
  (final_mic_bpm = 0 \/ Spec.in_range final_mic_bpm)
  /\ (mic_buffer app = [] -> final_mic_bpm = 0)
  /\ (forall segment_bpms,
        mic_buffer app <> [] ->
        final_estimates sqrtQ magnitude_spectrum (mic_buffer app)
          (mic_sample_rate app) = Ok segment_bpms ->
        segment_bpms <> [] ->
        show_final (final_consensus segment_bpms) = Ok tt ->
        final_mic_bpm = Np.median segment_bpms)
  /\ mic_buffer app' = []
  /\ mic_bpm app' = mic_bpm app
  /\ mic_bpm_history app' = mic_bpm_history app
  /\ mic_time_bpm_pairs app' = mic_time_bpm_pairs app.
Proof.
  unfold _perform_final_mic_analysis.
  split; [|split; [intros ->; reflexivity|split; [|repeat split]]].
  - destruct (mic_buffer app) as [|x t]; [now left|].
    destruct (final_estimates _ _ _ _) as [bpms|e] eqn:E; [|now left].
    apply final_estimates_range in E. destruct E as [Hr _].
    destruct bpms as [|b bs]; [now left|].
    destruct (show_final _); [|now left].
    right. rewrite final_consensus_median_eq by discriminate.
    apply (median_bounds 40 220); [discriminate|exact Hr].
  - intros bpms Hne -> Hb Hshow.
    destruct (mic_buffer app) as [|x t]; [congruence|].
    destruct bpms as [|b bs]; [congruence|].
    rewrite Hshow. now apply final_consensus_median_eq.
Qed.

End FinalFacts.

(** With at least five seconds in the buffer the final analysis cuts
    between one and five segments; segment [i] starts at [i] times the
    overlap (the clamp of line 1849 never applies) and holds exactly five
    seconds of samples.  A shorter buffer is cut into no segment. *)
Theorem final_segments_inside (full_buffer : list Q) (sample_rate : Z) :
  (0 < sample_rate)%Z ->
  let len := Py.len full_buffer in
  let segment_samples := (5 * sample_rate)%Z in
  let overlap_samples := Z.quot segment_samples 2 in
  ((len < segment_samples)%Z ->
   final_num_segments len segment_samples overlap_samples = Ok 0%Z)
  /\ ((segment_samples <= len)%Z ->
      exists n : Z,
        final_num_segments len segment_samples overlap_samples = Ok n
        /\ (1 <= n <= 5)%Z
        /\ forall i : Z, (0 <= i < n)%Z ->
           let start_idx := final_start len segment_samples overlap_samples i in
           start_idx = (i * overlap_samples)%Z
           /\ Py.len (Py.slice full_buffer start_idx
                        (start_idx + segment_samples)) = segment_samples).
Proof.
  intros Hsr len seg ov. unfold final_num_segments.
  assert (Hov : (0 < ov)%Z).
  { unfold ov, seg. rewrite Z.quot_div_nonneg by lia.
    Z.to_euclidean_division_equations; lia. }
  split.
  - intros Hlt. destruct (Z.leb_spec seg len); [lia|reflexivity].
  - intros Hle. destruct (Z.leb_spec seg len); [|lia].
    destruct (Z.eqb_spec ov 0); [lia|].
    eexists; split; [reflexivity|]. split; [lia|].
    intros i Hi. set (start_idx := final_start len seg ov i).
    assert (Hq : (Z.quot (len - seg) ov * ov <= len - seg)%Z).
    { rewrite Z.quot_div_nonneg by lia.
      rewrite Z.mul_comm. apply Z.mul_div_le. lia. }
    assert (Hq0 : (0 <= Z.quot (len - seg) ov)%Z)
      by (apply Z.quot_pos; lia).
    assert (Hstart : start_idx = (i * ov)%Z).
    { unfold start_idx, final_start. apply Z.min_l.
      assert (i <= Z.quot (len - seg) ov)%Z by lia. nia. }
    split; [exact Hstart|].
    assert (Hin : (0 <= start_idx /\ start_idx + seg <= len)%Z).
    { rewrite Hstart. split; [nia|].
      assert (i <= Z.quot (len - seg) ov)%Z by lia. nia. }
    clearbody start_idx. unfold len, Py.len in *.
    replace start_idx with (Z.of_nat (Z.to_nat start_idx)) by lia.
    replace seg with (Z.of_nat (Z.to_nat seg)) at 1 by lia.
    rewrite slice_inside by lia.
    rewrite length_firstn, length_skipn. lia.
Qed.

Lemma final_segments_inside_witness :
  final_start 7 5 2 1 = 2%Z
  /\ Py.len (Py.slice [1; 2; 3; 4; 5; 6; 7] (final_start 7 5 2 1)
               (final_start 7 5 2 1 + 5)) = 5%Z.
Proof.
  destruct (final_segments_inside [1; 2; 3; 4; 5; 6; 7] 1 ltac:(lia))
    as [_ H].
  destruct (H ltac:(cbn; lia)) as [n [Hn [_ Hi]]].
  assert (En : n = 2%Z) by (cbv in Hn; congruence).
  exact (Hi 1%Z ltac:(lia)).
Defined.

(** ** The analysis of a file *)

Lemma file_total_at_least (len segment_samples : Z) :
  (0 < segment_samples <= len)%Z ->
  file_total_segments len segment_samples = Ok (len / segment_samples)%Z
  /\ (1 <= len / segment_samples)%Z.
Proof.
  intros H. unfold file_total_segments.
  rewrite Z.sub_0_r.
  destruct (Z.eqb_spec segment_samples 0); [lia|].
  rewrite Z.quot_div_nonneg by lia.
  assert (E : ((len - segment_samples) / segment_samples + 1
               = len / segment_samples)%Z).
  { replace len with ((len - segment_samples) + 1 * segment_samples)%Z at 2
      by lia.
    rewrite Z.div_add by lia. reflexivity. }
  rewrite E.
  assert (1 <= len / segment_samples)%Z
    by (apply Z.div_le_lower_bound; lia).
  split; [f_equal; lia|assumption].
Qed.

Lemma file_total_short (len segment_samples : Z) :
  (0 <= len < segment_samples)%Z ->
  file_total_segments len segment_samples = Ok 1%Z.
Proof.
  intros H. unfold file_total_segments.
  rewrite Z.sub_0_r.
  destruct (Z.eqb_spec segment_samples 0); [lia|].
  f_equal.
  assert (Hq : (Z.quot (len - segment_samples) segment_samples <= 0)%Z).
  { rewrite <- (Z.opp_involutive (len - segment_samples)).
    rewrite Z.quot_opp_l by lia.
    assert (0 <= Z.quot (- (len - segment_samples)) segment_samples)%Z
      by (apply Z.quot_pos; lia).
    lia. }
  lia.
Qed.

Lemma file_bounds_inside (len segment_samples i : Z) :
  (0 < segment_samples)%Z -> (0 <= i < len / segment_samples)%Z ->
  file_segment_bounds len segment_samples i
  = ((i * segment_samples)%Z, ((i + 1) * segment_samples)%Z)
  /\ ((i + 1) * segment_samples <= len)%Z.
Proof.
  intros Hs Hi. unfold file_segment_bounds. rewrite Z.sub_0_r.
  assert (Hm : (segment_samples * (len / segment_samples) <= len)%Z)
    by (apply Z.mul_div_le; lia).
  assert (Hle : ((i + 1) * segment_samples <= len)%Z) by nia.
  destruct (Z.ltb_spec len (i * segment_samples + segment_samples)); [lia|].
  split; [f_equal; lia|exact Hle].
Qed.

(** How a file is cut.  With at least one segment length of samples there
    are [len / segment_samples] segments (rounded down), segment [i] is
    [samples[i * segment_samples : (i + 1) * segment_samples]] and the
    clamp of lines 647-649 never applies: the samples after the last whole
    segment are in no segment.  A shorter file is one segment, the whole
    file. *)
Theorem file_segments_tile (samples : list Q) (segment_samples : Z) :
  (0 < segment_samples)%Z ->
  let len := Py.len samples in
  ((segment_samples <= len)%Z ->
   file_total_segments len segment_samples = Ok (len / segment_samples)%Z
   /\ forall i : Z, (0 <= i < len / segment_samples)%Z ->
      file_segment_bounds len segment_samples i
      = ((i * segment_samples)%Z, ((i + 1) * segment_samples)%Z)
      /\ ((i + 1) * segment_samples <= len)%Z
      /\ Py.len (Py.slice samples (i * segment_samples)
                   ((i + 1) * segment_samples)) = segment_samples)
  /\ ((len < segment_samples)%Z ->
      file_total_segments len segment_samples = Ok 1%Z
      /\ file_segment_bounds len segment_samples 0 = (0%Z, len)
      /\ Py.slice samples 0 len = samples).
Proof.
  intros Hs len. split.
  - intros Hle. split; [apply file_total_at_least; lia|].
    intros i Hi.
    destruct (file_bounds_inside len segment_samples i Hs Hi) as [Hb Hin].
    split; [exact Hb|]. split; [exact Hin|].
    unfold len, Py.len in *.
    replace (i * segment_samples)%Z
      with (Z.of_nat (Z.to_nat (i * segment_samples))) by nia.
    replace ((i + 1) * segment_samples)%Z
      with (Z.of_nat (Z.to_nat (i * segment_samples))
            + Z.of_nat (Z.to_nat segment_samples))%Z by nia.
    rewrite slice_inside by nia.
    rewrite length_firstn, length_skipn. nia.
  - intros Hlt. unfold len, Py.len in *.
    split; [apply file_total_short; lia|].
    split.
    + unfold file_segment_bounds.
      destruct (Z.ltb_spec (Z.of_nat (length samples))
                  (0 * (segment_samples - 0) + segment_samples)); [|lia].
      f_equal. lia.
    + replace (Z.of_nat (length samples))
        with (Z.of_nat 0 + Z.of_nat (length samples))%Z at 1 by lia.
      change 0%Z with (Z.of_nat 0).
      rewrite slice_inside by (cbn; lia).
      cbn [skipn]. apply firstn_all.
Qed.

Lemma file_segments_tile_witness :
  file_segment_bounds 7 3 1 = (3%Z, 6%Z)
  /\ (6 <= 7)%Z
  /\ Py.len (Py.slice [1; 2; 3; 4; 5; 6; 7] 3 6) = 3%Z.
Proof.
  destruct (file_segments_tile [1; 2; 3; 4; 5; 6; 7] 3 ltac:(lia)) as [H _].
  destruct (H ltac:(cbn; lia)) as [_ Hi].
  exact (Hi 1%Z ltac:(cbn; lia)).
Defined.

Section FileFacts.

Variable sqrtQ : Q -> Q.
Variable magnitude_spectrum : list fval -> list fval.

(** The analyzer returns for every non-empty segment at a non-zero sample
    rate. *)
Lemma analyze_total (segment : list Q) (sample_rate : Z) :
  segment <> [] -> sample_rate <> 0%Z ->
  exists v, analyze sqrtQ magnitude_spectrum segment sample_rate = Ok v
            /\ estimate v.
Proof.
  intros Hne Hsr. unfold analyze, analyze_audio_data.
  pose proof (detect_beats_outcome sqrtQ magnitude_spectrum default_analyzer
                segment sample_rate) as H.
  destruct (_detect_beats_improved _ _ _ _ _) as [beats|e]; cbn [bind].
  - eexists; split; [reflexivity|].
    destruct (analyze_beats_range 2048 512 beats) as [E|E].
    + left. unfold default_analyzer. rewrite E. reflexivity.
    + right. exact E.
  - destruct H as [H|[H|H]]; [congruence|discriminate|congruence].
Qed.

Lemma file_loop_ok (samples : list Q) (frame_rate segment_samples : Z)
  (indices : list Z) (pairs : list (Q * Q)) :
  frame_rate <> 0%Z ->
  (forall i, In i indices ->
     let b := file_segment_bounds (Py.len samples) segment_samples i in
     Py.slice samples (fst b) (snd b) <> []) ->
  exists new,
    file_loop sqrtQ magnitude_spectrum samples frame_rate segment_samples
      indices pairs = (pairs ++ new, None)
    /\ map fst new
       = map (fun i => inject_Z (fst (file_segment_bounds (Py.len samples)
                                        segment_samples i))
                       / inject_Z frame_rate) indices
    /\ Forall (fun p => estimate (snd p)) new.
Proof.
  intros Hr. revert pairs.
  induction indices as [|i rest IH]; intros pairs Hne; cbn [file_loop].
  - exists []. rewrite app_nil_r. repeat split. constructor.
  - pose proof (Hne i (or_introl eq_refl)) as Hi. cbv zeta in Hi.
    destruct (file_segment_bounds (Py.len samples) segment_samples i)
      as [start_idx end_idx] eqn:Eb.
    cbn [fst snd] in Hi.
    destruct (Z.eqb_spec frame_rate 0); [congruence|].
    destruct (analyze_total _ frame_rate Hi Hr) as (v & -> & Hv).
    destruct (IH (pairs ++ [(inject_Z start_idx / inject_Z frame_rate, v)]))
      as (new & -> & Ht & Hf).
    { intros j Hj. apply Hne. now right. }
    exists ((inject_Z start_idx / inject_Z frame_rate, v) :: new).
    rewrite <- app_assoc. split; [reflexivity|]. split.
    + cbn [map fst]. rewrite Eb. cbn [fst]. now rewrite Ht.
    + constructor; [exact Hv|exact Hf].
Qed.

Lemma estimate_bounded (v : Q) : estimate v -> bounded 0 220 v.
Proof.
  unfold estimate, Spec.in_range, bounded. intros [H|H]; lra.
Qed.

Lemma file_analysis_pairs (samples : list Q)
  (frame_rate segment_samples : Z) :
  samples <> [] -> (0 < segment_samples)%Z -> frame_rate <> 0%Z ->
  exists (time_bpm_pairs : list (Q * Q)) (avg_bpm : Q),
    _analyze_file_thread sqrtQ magnitude_spectrum samples frame_rate
      segment_samples = (time_bpm_pairs, Some avg_bpm)
    /\ Py.len time_bpm_pairs = Z.max 1 (Py.len samples / segment_samples)
    /\ map fst time_bpm_pairs
       = map (fun i => inject_Z (i * segment_samples) / inject_Z frame_rate)
           (Py.range (Py.len time_bpm_pairs))
    /\ Forall (fun p => estimate (snd p)) time_bpm_pairs
    /\ avg_bpm = Np.mean (map snd time_bpm_pairs)
    /\ 0 <= avg_bpm <= 220.
Proof.
  intros Hne Hs Hr. unfold _analyze_file_thread.
  set (len := Py.len samples).
  assert (Hlen : (0 < len)%Z)
    by (unfold len, Py.len; destruct samples; [congruence|cbn; lia]).
  assert (Htot : exists total,
    file_total_segments len segment_samples = Ok total
    /\ total = Z.max 1 (len / segment_samples)
    /\ forall i, In i (Py.range total) ->
       let b := file_segment_bounds len segment_samples i in
       fst b = (i * segment_samples)%Z
       /\ Py.slice samples (fst b) (snd b) <> []).
  { destruct (Z.le_gt_cases segment_samples len) as [Hle|Hlt].
    - destruct (file_total_at_least len segment_samples ltac:(lia))
        as [Ht H1].
      exists (len / segment_samples)%Z. split; [exact Ht|].
      split; [lia|]. intros i Hi. apply in_range_iff in Hi.
      destruct (file_bounds_inside len segment_samples i Hs Hi) as [Hb Hin].
      cbv zeta. rewrite Hb. cbn [fst snd]. split; [reflexivity|].
      intros E. apply (f_equal (@length Q)) in E. revert E.
      unfold len, Py.len in *.
      replace (i * segment_samples)%Z
        with (Z.of_nat (Z.to_nat (i * segment_samples))) by nia.
      replace ((i + 1) * segment_samples)%Z
        with (Z.of_nat (Z.to_nat (i * segment_samples))
              + Z.of_nat (Z.to_nat segment_samples))%Z by nia.
      rewrite slice_inside by nia.
      rewrite length_firstn, length_skipn. cbn [length]. nia.
    - exists 1%Z. split; [apply file_total_short; lia|].
      assert (len / segment_samples = 0)%Z by (apply Z.div_small; lia).
      split; [lia|]. intros i Hi. apply in_range_iff in Hi.
      assert (i = 0%Z) by lia. subst i. cbv zeta.
      unfold file_segment_bounds.
      destruct (Z.ltb_spec len (0 * (segment_samples - 0) + segment_samples));
        [|lia].
      cbn [fst snd]. split; [lia|].
      replace (Z.max 0 (len - segment_samples)) with (Z.of_nat 0) by lia.
      unfold len, Py.len.
      replace (Z.of_nat (length samples))
        with (Z.of_nat 0 + Z.of_nat (length samples))%Z by lia.
      rewrite slice_inside by (cbn; lia).
      cbn [skipn]. now rewrite firstn_all. }
  destruct Htot as (total & -> & Etot & Hseg).
  destruct (file_loop_ok samples frame_rate segment_samples
              (Py.range total) [] Hr) as (new & -> & Ht & Hf).
  { intros i Hi. apply (Hseg i Hi). }
  cbn [app].
  assert (Hl : Py.len new = total).
  { unfold Py.len. rewrite <- (length_map fst), Ht, length_map, range_length.
    lia. }
  assert (Hnew : new <> []).
  { intros ->. cbn in Hl. lia. }
  destruct new as [|p new'] eqn:En; [congruence|]. rewrite <- En in *.
  exists new, (Np.mean (map snd new)).
  split; [reflexivity|]. split; [lia|]. split.
  - rewrite Ht, Hl. apply map_ext_in. intros i Hi.
    destruct (Hseg i Hi) as [E _]. cbv zeta in E. unfold len in E.
    now rewrite E.
  - split; [exact Hf|]. split; [reflexivity|].
    apply (mean_bounds 0 220).
    + rewrite En. discriminate.
    + rewrite Forall_map. eapply Forall_impl; [|exact Hf].
      intros q Hq. now apply estimate_bounded.
Qed.

(** A non-empty file analyzed with a positive segment length at a non-zero
    frame rate always gets its reference tempo: one pair per segment,
    segment [i] stamped with the time its first sample is played, every
    value 0 or within [40, 220], and the reference the mean of all values,
    zeros included, so between 0 and 220. *)
Theorem file_analysis_completes (samples : list Q)
  (frame_rate segment_samples : Z) :
  samples <> [] -> (0 < segment_samples)%Z -> frame_rate <> 0%Z ->
  exists (time_bpm_pairs : list (Q * Q)) (avg_bpm : Q),
    _analyze_file_thread sqrtQ magnitude_spectrum samples frame_rate
      segment_samples = (time_bpm_pairs, Some avg_bpm)
    /\ Py.len time_bpm_pairs = Z.max 1 (Py.len samples / segment_samples)
    /\ map fst time_bpm_pairs
       = map (fun i => inject_Z (i * segment_samples) / inject_Z frame_rate)
           (Py.range (Py.len time_bpm_pairs))
    /\ Forall (fun p => estimate (snd p)) time_bpm_pairs
    /\ avg_bpm = Np.mean (map snd time_bpm_pairs)
    /\ 0 <= avg_bpm <= 220.
Proof. apply file_analysis_pairs. Qed.

End FileFacts.

Lemma file_analysis_completes_witness :
  exists (time_bpm_pairs : list (Q * Q)) (avg_bpm : Q),
    _analyze_file_thread (fun x => x) (fun _ => []) [0; 0; 0; 0; 0; 0; 0] 1 3
    = (time_bpm_pairs, Some avg_bpm)
    /\ Py.len time_bpm_pairs = Z.max 1 (Py.len [0; 0; 0; 0; 0; 0; 0]%Q / 3)
    /\ map fst time_bpm_pairs
       = map (fun i => inject_Z (i * 3) / inject_Z 1)
           (Py.range (Py.len time_bpm_pairs))
    /\ Forall (fun p => estimate (snd p)) time_bpm_pairs
    /\ avg_bpm = Np.mean (map snd time_bpm_pairs)
    /\ 0 <= avg_bpm <= 220.
Proof.
  apply (file_analysis_completes (fun x => x) (fun _ => [])
           [0; 0; 0; 0; 0; 0; 0] 1 3).
  - discriminate.
  - lia.
  - discriminate.
Defined.

(** ** The analyzer of the stand-alone application *)

Lemma subsequence_forall {A : Type} (P : A -> Prop) (l l' : list A) :
  subsequence l l' -> Forall P l' -> Forall P l.
Proof.
  induction 1 as [|x l l' Hs IH|x l l' Hs IH]; intros HP.
  - constructor.
  - inversion HP; subst. constructor; auto.
  - inversion HP; subst. auto.
Qed.

Lemma subsequence_strongly_sorted {A : Type} (R : A -> A -> Prop)
  (l l' : list A) :
  subsequence l l' -> StronglySorted R l' -> StronglySorted R l.
Proof.
  induction 1 as [|x l l' Hs IH|x l l' Hs IH]; intros H.
  - constructor.
  - inversion H; subst. constructor; [auto|].
    eapply subsequence_forall; eassumption.
  - inversion H; subst. auto.
Qed.

Lemma range3_ok (start stop step : Z) :
  step <> 0%Z -> exists l, Py.range3 start stop step = Ok l.
Proof.
  intros H. unfold Py.range3.
  destruct (Z.eqb_spec step 0); [congruence|]. eexists; reflexivity.
Qed.

Lemma seq_spaced (step : Z) (a n : nat) :
  (0 < step)%Z ->
  StronglySorted (fun x y => (x + step <= y)%Z)
    (map (fun k => (0 + Z.of_nat k * step)%Z) (seq a n)).
Proof.
  intros Hs. revert a. induction n as [|n IH]; intros a; cbn [seq map].
  - constructor.
  - constructor; [apply IH|].
    apply Forall_forall. intros y Hy. apply in_map_iff in Hy.
    destruct Hy as (k & <- & Hk). apply in_seq in Hk. nia.
Qed.

Lemma range3_steps (stop step : Z) :
  (0 < step)%Z ->
  exists l, Py.range3 0 stop step = Ok l
    /\ StronglySorted (fun x y => (x + step <= y)%Z) l
    /\ Forall (fun i => exists k, (0 <= k)%Z /\ i = (k * step)%Z) l.
Proof.
  intros Hs. unfold Py.range3.
  destruct (Z.eqb_spec step 0); [lia|].
  eexists; split; [reflexivity|]. split; [now apply seq_spaced|].
  apply Forall_forall. intros y Hy. apply in_map_iff in Hy.
  destruct Hy as (k & <- & _). exists (Z.of_nat k). split; lia.
Qed.

Lemma gui_threshold_ok (self : GuiApp.BPMAnalyzer) (audio_data : list Q)
  (i : Z) :
  GuiApp.hop_size self <> 0%Z ->
  exists t, GuiApp.energy_threshold self audio_data i = Ok t.
Proof.
  intros Hh. unfold GuiApp.energy_threshold, GuiApp.recent_energies.
  destruct (0 <? i)%Z; [|eexists; reflexivity].
  destruct (range3_ok 0
              (Py.len (Py.slice audio_data
                         (Z.max 0 (i - 5 * GuiApp.hop_size self))
                         (i + GuiApp.frame_size self))
               - GuiApp.frame_size self) _ Hh) as [js ->].
  cbn [bind]. destruct (map _ js); eexists; reflexivity.
Qed.

Lemma gui_is_beat_ok (self : GuiApp.BPMAnalyzer) (audio_data : list Q)
  (i : Z) :
  GuiApp.hop_size self <> 0%Z ->
  exists b, GuiApp.is_beat self audio_data i = Ok b
    /\ (b = true ->
        (0 < i)%Z
        /\ (i + GuiApp.frame_size self + GuiApp.hop_size self
            < Py.len audio_data)%Z
        /\ F.gt (GuiApp.energy
                   (Py.slice audio_data i (i + GuiApp.frame_size self)))
                (GuiApp.energy
                   (Py.slice audio_data (i - GuiApp.hop_size self)
                      (i - GuiApp.hop_size self + GuiApp.frame_size self)))
           = true).
Proof.
  intros Hh. unfold GuiApp.is_beat.
  destruct (gui_threshold_ok self audio_data i Hh) as [t ->]. cbn [bind].
  destruct (Z.ltb_spec 0 i); cbn [andb].
  - destruct (Z.ltb_spec (i + GuiApp.frame_size self + GuiApp.hop_size self)
                (Py.len audio_data)).
    + eexists; split; [reflexivity|]. intros Hb.
      split; [assumption|]. split; [assumption|].
      destruct (F.gt _ _); [reflexivity|discriminate].
    + eexists; split; [reflexivity|discriminate].
  - eexists; split; [reflexivity|discriminate].
Qed.

Lemma gui_detect_loop_ok (self : GuiApp.BPMAnalyzer) (audio_data : list Q)
  (indices : list Z) :
  GuiApp.hop_size self <> 0%Z ->
  exists beats, GuiApp.detect_loop self audio_data indices = Ok beats
    /\ subsequence beats indices
    /\ Forall (fun i =>
         (0 < i)%Z
         /\ (i + GuiApp.frame_size self + GuiApp.hop_size self
             < Py.len audio_data)%Z
         /\ F.gt (GuiApp.energy
                    (Py.slice audio_data i (i + GuiApp.frame_size self)))
                 (GuiApp.energy
                    (Py.slice audio_data (i - GuiApp.hop_size self)
                       (i - GuiApp.hop_size self + GuiApp.frame_size self)))
            = true) beats.
Proof.
  intros Hh. induction indices as [|i rest IH]; cbn [GuiApp.detect_loop].
  - exists []. repeat split; constructor.
  - destruct (gui_is_beat_ok self audio_data i Hh) as (b & -> & Hb).
    destruct IH as (beats & -> & Hsub & Hall). cbn [bind].
    eexists; split; [reflexivity|].
    destruct b.
    + split; [now constructor|]. constructor; [now apply Hb|exact Hall].
    + split; [now constructor|exact Hall].
Qed.

(** The beats of the stand-alone analyzer.  With a positive hop the
    detector always returns; every beat is a positive multiple of the hop
    with a whole frame and one more hop of audio after it, and two beats
    are at least one hop apart. *)
Theorem gui_beats_positions (self : GuiApp.BPMAnalyzer) (audio_data : list Q)
  (sample_rate : Z) :
  (0 < GuiApp.hop_size self)%Z ->
  exists beats,
    GuiApp._detect_beats self audio_data sample_rate = Ok beats
    /\ StronglySorted (fun a b => (a + GuiApp.hop_size self <= b)%Z) beats
    /\ Forall (fun b =>
         (exists k, (0 < k)%Z /\ b = (k * GuiApp.hop_size self)%Z)
         /\ (b + GuiApp.frame_size self + GuiApp.hop_size self
             < Py.len audio_data)%Z) beats.
Proof.
  intros Hh. unfold GuiApp._detect_beats.
  destruct (range3_steps (Py.len audio_data - GuiApp.frame_size self)
              (GuiApp.hop_size self) Hh) as (idx & -> & Hsorted & Hmult).
  cbn [bind].
  destruct (gui_detect_loop_ok self audio_data idx ltac:(lia))
    as (beats & -> & Hsub & Hall).
  exists beats. split; [reflexivity|]. split.
  - eapply subsequence_strongly_sorted; eassumption.
  - pose proof (subsequence_forall _ _ _ Hsub Hmult) as Hm.
    rewrite Forall_forall in *. intros b Hb.
    destruct (Hall b Hb) as (Hpos & Hin & _).
    destruct (Hm b Hb) as (k & Hk & ->).
    split; [|exact Hin]. exists k. split; [nia|reflexivity].
Qed.

Lemma gui_beats_positions_witness :
  exists beats,
    GuiApp._detect_beats {| GuiApp.frame_size := 2; GuiApp.hop_size := 1 |}
      [0; 0; 1; -(1); 0; 0; 0] 8 = Ok beats
    /\ StronglySorted (fun a b => (a + 1 <= b)%Z) beats
    /\ Forall (fun b =>
         (exists k, (0 < k)%Z /\ b = (k * 1)%Z)
         /\ (b + 2 + 1 < Py.len [0; 0; 1; -(1); 0; 0; 0]%Q)%Z) beats.
Proof.
  apply (gui_beats_positions
           {| GuiApp.frame_size := 2; GuiApp.hop_size := 1 |}
           [0; 0; 1; -(1); 0; 0; 0] 8).
  reflexivity.
Defined.

(** *** Silence *)

Lemma sum_zero (l : list Q) : Forall (fun x => x == 0) l -> Np.sum l == 0.
Proof.
  induction 1 as [|x t Hx Ht IH]; cbn [Np.sum fold_right]; [reflexivity|].
  unfold Np.sum in IH. rewrite Hx, IH. reflexivity.
Qed.

Lemma slice_forall {A : Type} (P : A -> Prop) (l : list A) (i j : Z) :
  Forall P l -> Forall P (Py.slice l i j).
Proof.
  intros H. unfold Py.slice. rewrite Forall_forall in *. intros x Hx.
  apply H. eapply skipn_in, firstn_in, Hx.
Qed.

Lemma gui_energy_silent (frame : list Q) :
  Forall (fun x => x == 0) frame ->
  GuiApp.energy frame = NaN
  \/ exists q, GuiApp.energy frame = Fin q /\ q == 0.
Proof.
  intros H. unfold GuiApp.energy.
  assert (Hs : Np.sum (map (fun x => x * x) frame) == 0).
  { apply sum_zero. rewrite Forall_map. eapply Forall_impl; [|exact H].
    intros x Hx. cbv beta. rewrite Hx. reflexivity. }
  set (s := Np.sum _) in *. unfold F.div.
  destruct (Qeq_bool (inject_Z (Py.len frame)) 0).
  - left. unfold F.sign.
    destruct (Qlt_le_dec 0 s); [lra|]. destruct (Qlt_le_dec s 0); [lra|].
    reflexivity.
  - right. eexists; split; [reflexivity|]. rewrite Hs.
    unfold Qdiv. ring.
Qed.

Lemma gui_gt_silent (frame frame' : list Q) :
  Forall (fun x => x == 0) frame -> Forall (fun x => x == 0) frame' ->
  F.gt (GuiApp.energy frame) (GuiApp.energy frame') = false.
Proof.
  intros H H'.
  destruct (gui_energy_silent frame H) as [->|(q & -> & Hq)];
    [reflexivity|].
  destruct (gui_energy_silent frame' H') as [->|(q' & -> & Hq')];
    [reflexivity|].
  cbn [F.gt]. destruct (Qlt_le_dec q' q); [lra|reflexivity].
Qed.

Lemma gui_detect_loop_silent (self : GuiApp.BPMAnalyzer)
  (audio_data : list Q) (indices : list Z) :
  GuiApp.hop_size self <> 0%Z ->
  Forall (fun x => x == 0) audio_data ->
  GuiApp.detect_loop self audio_data indices = Ok [].
Proof.
  intros Hh Hz.
  destruct (gui_detect_loop_ok self audio_data indices Hh)
    as (beats & -> & _ & Hall).
  destruct beats as [|b bs]; [reflexivity|].
  inversion Hall as [|? ? (_ & _ & Hgt) _]; subst.
  rewrite gui_gt_silent in Hgt by (apply slice_forall; exact Hz).
  discriminate.
Qed.

(** *** The tempo of the mean interval *)

Lemma gui_bpm_in_range (l : list Q) (v : Q) :
  GuiApp.bpm_of_intervals l = Some v -> Spec.in_range v.
Proof.
  unfold GuiApp.bpm_of_intervals. destruct l as [|x t]; [discriminate|].
  destruct (Qeq_bool _ 0); [discriminate|].
  destruct (Qle_bool 40 _) eqn:E1; [|discriminate].
  destruct (Qle_bool _ 220) eqn:E2; [|discriminate].
  cbn [andb]. intros [= <-].
  apply Qle_bool_iff in E1, E2. split; assumption.
Qed.

Lemma gui_calculate_outcome (beats : list Z) (sample_rate : Z) :
  match GuiApp._calculate_bpm beats sample_rate with
  | Ok None => True
  | Ok (Some v) => Spec.in_range v
  | Raise _ => sample_rate = 0%Z
  end.
Proof.
  unfold GuiApp._calculate_bpm, GuiApp.intervals_of.
  destruct (_ <? _)%Z; [exact I|].
  destruct (Py.range2 1 (Py.len beats)); cbn [bind]; [exact I|].
  destruct (Z.eqb_spec sample_rate 0); cbn [bind]; [assumption|].
  destruct (map _ _); [exact I|].
  destruct (GuiApp.bpm_of_intervals _) eqn:E; [|exact I].
  eapply gui_bpm_in_range, E.
Qed.

Lemma gui_analyze_cases (self : GuiApp.BPMAnalyzer) (audio_data : list Q)
  (sample_rate : Z) :
  match GuiApp.analyze_audio_data self audio_data sample_rate with
  | Ok None => True
  | Ok (Some v) =>
    Spec.in_range v /\ (GuiApp.frame_size self <= Py.len audio_data)%Z
  | Raise _ =>
    (GuiApp.hop_size self = 0%Z \/ sample_rate = 0%Z)
    /\ (GuiApp.frame_size self <= Py.len audio_data)%Z
  end.
Proof.
  unfold GuiApp.analyze_audio_data.
  destruct (Z.ltb_spec (Py.len audio_data) (GuiApp.frame_size self));
    [exact I|].
  destruct (Z.eq_dec (GuiApp.hop_size self) 0) as [Hh|Hh].
  - destruct (GuiApp._detect_beats _ _ _) as [beats|e]; cbn [bind].
    + destruct beats as [|b bs]; [exact I|].
      pose proof (gui_calculate_outcome (b :: bs) sample_rate) as Hc.
      destruct (GuiApp._calculate_bpm _ _) as [[v|]|e]; auto.
    + auto.
  - unfold GuiApp._detect_beats.
    destruct (range3_ok 0 (Py.len audio_data - GuiApp.frame_size self) _ Hh)
      as [idx ->]. cbn [bind].
    destruct (gui_detect_loop_ok self audio_data idx Hh) as (beats & -> & _).
    cbn [bind]. destruct beats as [|b bs]; [exact I|].
    pose proof (gui_calculate_outcome (b :: bs) sample_rate) as Hc.
    destruct (GuiApp._calculate_bpm _ _) as [[v|]|e]; auto.
Qed.

(** What a call of the stand-alone [analyze_audio_data] can give: no tempo,
    or one within [40, 220]; it raises only with a zero hop or a zero
    sample rate, and never on a buffer shorter than a frame. *)
Theorem gui_analyze_outcome (self : GuiApp.BPMAnalyzer) (audio_data : list Q)
  (sample_rate : Z) :
  match GuiApp.analyze_audio_data self audio_data sample_rate with
  | Ok None => True
  | Ok (Some v) =>
    Spec.in_range v /\ (GuiApp.frame_size self <= Py.len audio_data)%Z
  | Raise _ =>
    (GuiApp.hop_size self = 0%Z \/ sample_rate = 0%Z)
    /\ (GuiApp.frame_size self <= Py.len audio_data)%Z
  end.
Proof. apply gui_analyze_cases. Qed.

(** Silence gives no tempo in the stand-alone analyzer, whatever the
    length of the buffer, the empty buffer included. *)
Theorem gui_analyze_silence (self : GuiApp.BPMAnalyzer) (audio_data : list Q)
  (sample_rate : Z) :
  GuiApp.hop_size self <> 0%Z ->
  Forall (fun x => x == 0) audio_data ->
  GuiApp.analyze_audio_data self audio_data sample_rate = Ok None.
Proof.
  intros Hh Hz. unfold GuiApp.analyze_audio_data, GuiApp._detect_beats.
  destruct (_ <? _)%Z; [reflexivity|].
  destruct (range3_ok 0 (Py.len audio_data - GuiApp.frame_size self) _ Hh)
    as [idx ->]. cbn [bind].
  now rewrite gui_detect_loop_silent.
Qed.

Lemma gui_analyze_silence_witness :
  GuiApp.analyze_audio_data {| GuiApp.frame_size := 2; GuiApp.hop_size := 1 |}
    [0; 0; 0; 0; 0; 0] 8 = Ok None.
Proof.
  apply (gui_analyze_silence
           {| GuiApp.frame_size := 2; GuiApp.hop_size := 1 |}
           [0; 0; 0; 0; 0; 0] 8).
  - discriminate.
  - repeat constructor.
Defined.

(** *** A steady pulse *)

Lemma nth_steady_positions (p0 d : Z) (n k : nat) :
  (k < n)%nat ->
  nth k (steady_positions p0 d n) 0%Z = (p0 + Z.of_nat k * d)%Z.
Proof.
  intros H. unfold steady_positions.
  rewrite (nth_indep _ 0%Z ((fun k => (p0 + Z.of_nat k * d)%Z) 0%nat))
    by (rewrite length_map, length_seq; exact H).
  rewrite (map_nth (fun k => (p0 + Z.of_nat k * d)%Z)).
  rewrite seq_nth by exact H. reflexivity.
Qed.

Lemma gui_steady_intervals (p0 d sample_rate : Z) (n : nat) :
  (2 <= n)%nat -> sample_rate <> 0%Z ->
  exists intervals,
    GuiApp.intervals_of (steady_positions p0 d n) sample_rate = Ok intervals
    /\ intervals <> []
    /\ Forall (fun x => x = inject_Z d / inject_Z sample_rate) intervals.
Proof.
  intros Hn Hsr. unfold GuiApp.intervals_of.
  assert (Hlen : Py.len (steady_positions p0 d n) = Z.of_nat n).
  { unfold Py.len, steady_positions. now rewrite length_map, length_seq. }
  rewrite Hlen.
  destruct (Py.range2 1 (Z.of_nat n)) as [|i0 rest] eqn:Er.
  { exfalso. assert (Hin : In 1%Z (Py.range2 1 (Z.of_nat n)))
      by (apply in_range2_iff; lia).
    rewrite Er in Hin. destruct Hin. }
  destruct (Z.eqb_spec sample_rate 0); [congruence|].
  eexists; split; [reflexivity|]. split; [discriminate|].
  apply Forall_forall. intros x Hx. apply in_map_iff in Hx.
  destruct Hx as (i & <- & Hi). rewrite <- Er in Hi.
  apply in_range2_iff in Hi.
  rewrite !nth_steady_positions by lia.
  f_equal. f_equal. rewrite !Z2Nat.id by lia. ring.
Qed.

Lemma gui_filtered_intervals_spec (intervals : list Q) :
  intervals <> [] ->
  GuiApp.filtered_intervals intervals <> []
  /\ forall x, In x (GuiApp.filtered_intervals intervals) -> In x intervals.
Proof.
  intros Hne. unfold GuiApp.filtered_intervals.
  destruct (filter _ intervals) as [|y t] eqn:Ef.
  - split; [exact Hne|auto].
  - split; [discriminate|]. intros x Hx. rewrite <- Ef in Hx.
    apply filter_In in Hx. tauto.
Qed.

Lemma gui_bpm_of_constant (intervals : list Q) (x : Q) :
  intervals <> [] -> Forall (fun y => y == x) intervals -> 0 < x ->
  (40 <= 60 / x <= 220 ->
   exists v, GuiApp.bpm_of_intervals (GuiApp.filtered_intervals intervals)
             = Some v /\ v == 60 / x)
  /\ (60 / x < 40 \/ 220 < 60 / x ->
      GuiApp.bpm_of_intervals (GuiApp.filtered_intervals intervals) = None).
Proof.
  intros Hne Hall Hx.
  destruct (gui_filtered_intervals_spec intervals Hne) as [Hf Hin].
  set (kept := GuiApp.filtered_intervals intervals) in *.
  assert (Hm : Np.mean kept == x).
  { apply mean_of_equals; [exact Hf|].
    rewrite Forall_forall in *. intros y Hy. apply Hall, Hin, Hy. }
  unfold GuiApp.bpm_of_intervals.
  destruct kept as [|k0 ks] eqn:Ek; [congruence|]. rewrite <- Ek in *.
  destruct (Qeq_bool (Np.mean kept) 0) eqn:E0.
  { apply Qeq_bool_iff in E0. exfalso. lra. }
  assert (Hb : 60 / Np.mean kept == 60 / x) by now rewrite Hm.
  split.
  - intros [H1 H2]. rewrite !Qle_bool_true by (rewrite Hb; assumption).
    cbn [andb]. eexists; split; [reflexivity|exact Hb].
  - intros [H|H].
    + rewrite (Qle_bool_false 40) by (rewrite Hb; exact H). reflexivity.
    + rewrite (Qle_bool_false _ 220) by (rewrite Hb; exact H).
      now rewrite andb_false_r.
Qed.



(** ** The comparison report *)

Lemma filter_length_mono {A : Type} (f g : A -> bool) (l : list A) :
  (forall x, f x = true -> g x = true) ->
  (length (filter f l) <= length (filter g l))%nat.
Proof.
  intros H. induction l as [|x t IH]; cbn [filter]; [lia|].
  destruct (f x) eqn:Ef.
  - rewrite (H x Ef). cbn [length]. lia.
  - destruct (g x); cbn [length]; lia.
Qed.

Lemma within_percent_mono (ref p q : Q) (mic_bpms : list Q) :
  p <= q ->
  (0 <= within_percent ref p mic_bpms <= within_percent ref q mic_bpms)%Z
  /\ (within_percent ref q mic_bpms <= Py.len mic_bpms)%Z.
Proof.
  intros Hpq. unfold within_percent, Py.len. split; [split; [lia|]|].
  - apply inj_le, filter_length_mono. intros x Hx.
    apply Qle_bool_iff in Hx. apply Qle_bool_iff. lra.
  - apply inj_le, filter_length_le.
Qed.

Lemma consistency_mono (w w' : Z) (mic_bpms : list Q) :
  mic_bpms <> [] -> (w <= w')%Z ->
  consistency w mic_bpms <= consistency w' mic_bpms.
Proof.
  intros Hne Hw. unfold consistency.
  pose proof (inject_len_pos mic_bpms Hne) as Hpos.
  assert (inject_Z w <= inject_Z w') by now rewrite <- Zle_Qle.
  apply Qmult_le_compat_r; [|lra].
  apply Qmult_le_compat_r; [assumption|].
  apply Qlt_le_weak, Qinv_lt_0_compat, Hpos.
Qed.

Lemma consistency_zero (mic_bpms : list Q) : consistency 0 mic_bpms == 0.
Proof. unfold consistency. change (inject_Z 0) with 0. unfold Qdiv. ring. Qed.

Lemma consistency_full (mic_bpms : list Q) :
  mic_bpms <> [] -> consistency (Py.len mic_bpms) mic_bpms == 100.
Proof.
  intros Hne. unfold consistency.
  pose proof (inject_len_pos mic_bpms Hne) as Hpos.
  field. lra.
Qed.

Lemma positive_bpms_positive (pairs : list (Q * Q)) :
  Forall (fun b => 0 < b) (positive_bpms pairs).
Proof.
  unfold positive_bpms. apply Forall_forall. intros b Hb.
  apply in_map_iff in Hb. destruct Hb as (p & <- & Hp).
  apply filter_In in Hp. destruct Hp as [_ Hp].
  destruct (Qlt_le_dec 0 (snd p)); [assumption|discriminate].
Qed.

Lemma sum_positive (l : list Q) :
  l <> [] -> Forall (fun b => 0 < b) l -> 0 < Np.sum l.
Proof.
  intros Hne H. induction H as [|x t Hx Ht IH]; [congruence|].
  cbn [Np.sum fold_right]. destruct t as [|y t'].
  - cbn. lra.
  - assert (0 < Np.sum (y :: t')) by (apply IH; discriminate).
    unfold Np.sum in *. lra.
Qed.

Lemma mean_positive (l : list Q) :
  l <> [] -> Forall (fun b => 0 < b) l -> 0 < Np.mean l.
Proof.
  intros Hne H. unfold Np.mean.
  apply Qlt_shift_div_l; [apply inject_len_pos, Hne|].
  pose proof (sum_positive l Hne H). lra.
Qed.

Section ComparisonFacts.

Variable sqrtQ : Q -> Q.
Hypothesis sqrtQ_nonneg : forall x, 0 <= sqrtQ x.

(** The figures of the comparison report.  A report is made exactly when
    the recording has a positive reading from the mic position on and the
    reference tempo is positive.  Its reference and its mean reading are
    positive, the deviation in percent is not negative, the stability
    score lies within [0, 100], and the three consistency figures are
    percentages that grow with the tolerance:
    0 <= within 2% <= within 5% <= within 10% <= 100. *)
Theorem comparison_report_figures
  (recorded_mic_bpm_data time_bpm_pairs : list (Q * Q))
  (reference start_ref start_mic : Q) :
  match _perform_detailed_bpm_comparison sqrtQ recorded_mic_bpm_data
          time_bpm_pairs reference start_ref start_mic with
  | Some m =>
    0 < reference_bpm m
    /\ 0 < avg_mic_bpm m
    /\ 0 <= bpm_percent_diff m
    /\ 0 <= stability_score m <= 100
    /\ 0 <= consistency_2 m
    /\ consistency_2 m <= consistency_5 m
    /\ consistency_5 m <= consistency_10 m
    /\ consistency_10 m <= 100
  | None =>
    positive_bpms (from_position start_mic recorded_mic_bpm_data) = []
    \/ match positive_bpms (from_position start_ref time_bpm_pairs) with
       | [] => reference <= 0
       | _ => False
       end
  end.
Proof.
  unfold _perform_detailed_bpm_comparison.
  set (mic_bpms := positive_bpms (from_position start_mic _)).
  set (ref_bpms := positive_bpms (from_position start_ref _)).
  assert (Hmic : Forall (fun b => 0 < b) mic_bpms)
    by apply positive_bpms_positive.
  assert (Href : Forall (fun b => 0 < b) ref_bpms)
    by apply positive_bpms_positive.
  destruct mic_bpms as [|b bs] eqn:Em; [now left|]. rewrite <- Em in *.
  assert (Hne : mic_bpms <> []) by (rewrite Em; discriminate).
  set (ref := match ref_bpms with [] => reference | _ => Np.mean ref_bpms end).
  destruct (Qlt_le_dec 0 ref) as [Hpos|Hle].
  - cbn [reference_bpm avg_mic_bpm bpm_percent_diff stability_score
         consistency_2 consistency_5 consistency_10].
    split; [exact Hpos|]. split; [now apply mean_positive|].
    split.
    { apply Qmult_le_0_compat; [|lra].
      apply Qle_shift_div_l; [exact Hpos|].
      pose proof (Qabs_nonneg (Np.mean mic_bpms - ref)). lra. }
    split.
    { pose proof (sqrtQ_nonneg
        (Np.mean (map (fun x => (x - Np.mean mic_bpms)
                                * (x - Np.mean mic_bpms)) mic_bpms))) as Hs.
      unfold std.
      destruct (Q.min_spec 100 (sqrtQ
        (Np.mean (map (fun x => (x - Np.mean mic_bpms)
                                * (x - Np.mean mic_bpms)) mic_bpms)) * 10))
        as [[H1 H2]|[H1 H2]]; rewrite H2; split; lra. }
    destruct (within_percent_mono ref 2 5 mic_bpms ltac:(lra))
      as [[H0 H25] _].
    destruct (within_percent_mono ref 5 10 mic_bpms ltac:(lra))
      as [[_ H510] H10].
    split.
    { rewrite <- (consistency_zero mic_bpms). now apply consistency_mono. }
    split; [now apply consistency_mono|].
    split; [now apply consistency_mono|].
    rewrite <- (consistency_full mic_bpms Hne). now apply consistency_mono.
  - right. unfold ref in Hle. destruct ref_bpms as [|r rs] eqn:Er;
      [exact Hle|].
    rewrite <- Er in *.
    assert (0 < Np.mean ref_bpms)
      by (apply mean_positive; [rewrite Er; discriminate|exact Href]).
    lra.
Qed.

End ComparisonFacts.

Lemma comparison_report_figures_witness :
  match _perform_detailed_bpm_comparison Qabs
          [(0, 0); (1, 118); (2, 121); (3, 130)] [(0, 120); (3, 120)]
          120 0 0 with
  | Some m =>
    0 < reference_bpm m
    /\ 0 < avg_mic_bpm m
    /\ 0 <= bpm_percent_diff m
    /\ 0 <= stability_score m <= 100
    /\ 0 <= consistency_2 m
    /\ consistency_2 m <= consistency_5 m
    /\ consistency_5 m <= consistency_10 m
    /\ consistency_10 m <= 100
  | None =>
    positive_bpms (from_position 0 [(0, 0); (1, 118); (2, 121); (3, 130)]) = []
    \/ match positive_bpms (from_position 0 [(0, 120); (3, 120)]) with
       | [] => 120 <= 0
       | _ => False
       end
  end.
Proof.
  apply (comparison_report_figures Qabs Qabs_nonneg
           [(0, 0); (1, 118); (2, 121); (3, 130)] [(0, 120); (3, 120)]
           120 0 0).
Defined.

(** ** The tempo shown during playback *)

Lemma current_bpm_loop_passed (pre post : list (Q * Q)) (current_time : Q)
  (current_bpm : option Q) :
  Forall (fun p => fst p <= current_time) pre ->
  current_bpm_loop (pre ++ post) current_time current_bpm
  = current_bpm_loop post current_time
      (fold_left (fun _ p => Some (snd p)) pre current_bpm).
Proof.
  intros H. revert current_bpm.
  induction H as [|[t b] pre' Ht Hpre IH]; intros current_bpm;
    [reflexivity|].
  cbn [app current_bpm_loop fold_left]. cbn [fst] in Ht.
  destruct (Qlt_le_dec current_time t); [lra|]. apply IH.
Qed.

Lemma current_bpm_loop_stops (post : list (Q * Q)) (current_time : Q)
  (current_bpm : option Q) :
  match post with
  | [] => True
  | p :: _ => current_time < fst p
  end ->
  current_bpm_loop post current_time current_bpm = current_bpm.
Proof.
  destruct post as [|[t b] rest]; [reflexivity|].
  cbn [current_bpm_loop fst]. intros H.
  destruct (Qlt_le_dec current_time t); [reflexivity|lra].
Qed.

Lemma fold_left_last_bpm (pre : list (Q * Q)) (p : Q * Q)
  (current_bpm : option Q) :
  fold_left (fun _ q => Some (snd q)) (pre ++ [p]) current_bpm = Some (snd p).
Proof. now rewrite fold_left_app. Qed.

Lemma firstn_succ_nth {A : Type} (l : list A) (k : nat) (d : A) :
  (k < length l)%nat -> firstn (S k) l = firstn k l ++ [nth k l d].
Proof.
  revert k. induction l as [|x t IH]; intros k H; [cbn in H; lia|].
  destruct k as [|k]; [reflexivity|].
  cbn [firstn nth app]. f_equal. apply IH. cbn in H. lia.
Qed.

Lemma skipn_head_nth {A : Type} (l : list A) (k : nat) (d : A) :
  (k < length l)%nat -> exists rest, skipn k l = nth k l d :: rest.
Proof.
  revert k. induction l as [|x t IH]; intros k H; [cbn in H; lia|].
  destruct k as [|k]; [eexists; reflexivity|].
  cbn [skipn nth]. apply IH. cbn in H. lia.
Qed.

Lemma current_bpm_segment (time_bpm_pairs : list (Q * Q))
  (current_time : Q) :
  StronglySorted Qle (map fst time_bpm_pairs) ->
  (forall k : nat,
     (k < length time_bpm_pairs)%nat ->
     fst (nth k time_bpm_pairs (0, 0)) <= current_time ->
     ((S k < length time_bpm_pairs)%nat ->
      current_time < fst (nth (S k) time_bpm_pairs (0, 0))) ->
     current_bpm_at time_bpm_pairs current_time
     = Some (snd (nth k time_bpm_pairs (0, 0))))
  /\ ((forall p, In p time_bpm_pairs -> current_time < fst p) ->
      current_bpm_at time_bpm_pairs current_time = None).
Proof.
  intros Hs. split.
  - intros k Hk Hle Hnext. unfold current_bpm_at.
    rewrite <- (firstn_skipn (S k) time_bpm_pairs) at 1.
    rewrite current_bpm_loop_passed.
    + rewrite current_bpm_loop_stops.
      * rewrite (firstn_succ_nth _ _ (0, 0)) by exact Hk.
        apply fold_left_last_bpm.
      * destruct (Nat.lt_ge_cases (S k) (length time_bpm_pairs)) as [Hl|Hl].
        -- destruct (skipn_head_nth time_bpm_pairs (S k) (0, 0) Hl)
             as [rest ->].
           now apply Hnext.
        -- now rewrite skipn_all2.
    + apply Forall_forall. intros p Hp.
      destruct (In_nth _ _ (0, 0) Hp) as (j & Hj & <-).
      rewrite length_firstn in Hj.
      rewrite nth_firstn. destruct (Nat.ltb_spec j (S k)); [|lia].
      apply Qle_trans with (fst (nth k time_bpm_pairs (0, 0))); [|exact Hle].
      change (fst (0, 0)) with 0 in *.
      rewrite <- !(map_nth fst).
      apply sorted_nth; [exact Hs|]. rewrite length_map. lia.
  - intros H. unfold current_bpm_at. apply current_bpm_loop_stops.
    destruct time_bpm_pairs as [|p rest]; [exact I|].
    apply H. now left.
Qed.

(** While a file plays, the display shows the tempo of the segment being
    played: with the pairs in order of time, a playback position from the
    time of pair [k] up to the time of the next pair shows the tempo of
    pair [k]; a position before every pair shows none. *)
Theorem playback_shows_segment_bpm (time_bpm_pairs : list (Q * Q))
  (current_time : Q) :
  StronglySorted Qle (map fst time_bpm_pairs) ->
  (forall k : nat,
     (k < length time_bpm_pairs)%nat ->
     fst (nth k time_bpm_pairs (0, 0)) <= current_time ->
     ((S k < length time_bpm_pairs)%nat ->
      current_time < fst (nth (S k) time_bpm_pairs (0, 0))) ->
     current_bpm_at time_bpm_pairs current_time
     = Some (snd (nth k time_bpm_pairs (0, 0))))
  /\ ((forall p, In p time_bpm_pairs -> current_time < fst p) ->
      current_bpm_at time_bpm_pairs current_time = None).
Proof. apply current_bpm_segment. Qed.

Lemma playback_shows_segment_bpm_witness :
  current_bpm_at [(0, 90); (3, 120); (6, 100)] 4 = Some 120.
Proof.
  destruct (playback_shows_segment_bpm [(0, 90); (3, 120); (6, 100)] 4)
    as [H _].
  - repeat (constructor; try (cbn; lra)).
  - apply (H 1%nat).
    + cbn. lia.
    + cbn. lra.
    + intros _. cbn. lra.
Defined.

(** ** The tempo axis of the charts *)

Lemma np_min_spec (x : Q) (l : list Q) :
  Forall (fun y => np_min x l <= y) (x :: l)
  /\ forall lo, Forall (fun y => lo <= y) (x :: l) -> lo <= np_min x l.
Proof.
  unfold np_min. revert x. induction l as [|y t IH]; intros x.
  - cbn. split; [constructor; [lra|constructor]|].
    intros lo H. now inversion H.
  - cbn [fold_left]. destruct (IH (Qmin x y)) as [H1 H2].
    inversion H1 as [|? ? Hm Ht]; subst. split.
    + constructor; [|constructor; [|exact Ht]].
      * pose proof (Q.le_min_l x y). lra.
      * pose proof (Q.le_min_r x y). lra.
    + intros lo H. inversion H as [|? ? Hx Hr]; subst.
      inversion Hr as [|? ? Hy Hr']; subst.
      apply H2. constructor; [|exact Hr'].
      now apply Q.min_glb.
Qed.

Lemma np_max_spec (x : Q) (l : list Q) :
  Forall (fun y => y <= np_max x l) (x :: l)
  /\ forall hi, Forall (fun y => y <= hi) (x :: l) -> np_max x l <= hi.
Proof.
  unfold np_max. revert x. induction l as [|y t IH]; intros x.
  - cbn. split; [constructor; [lra|constructor]|].
    intros hi H. now inversion H.
  - cbn [fold_left]. destruct (IH (Qmax x y)) as [H1 H2].
    inversion H1 as [|? ? Hm Ht]; subst. split.
    + constructor; [|constructor; [|exact Ht]].
      * pose proof (Q.le_max_l x y). lra.
      * pose proof (Q.le_max_r x y). lra.
    + intros hi H. inversion H as [|? ? Hx Hr]; subst.
      inversion Hr as [|? ? Hy Hr']; subst.
      apply H2. constructor; [|exact Hr'].
      now apply Q.max_lub.
Qed.

(** The tempo axis of a chart of estimates, each 0 or within [40, 220]:
    it never leaves [40, 220], every estimate within [40, 220] lies inside
    it, and with one such estimate the lower limit is below the upper one.
    A zero estimate is always below the axis, and when every estimate is
    zero, as the reference chart allows, the axis is turned over: from 40
    down to 10. *)
Theorem chart_axis_holds_estimates (x : Q) (l : list Q) :
  Forall estimate (x :: l) ->
  let min_bpm := fst (ylim x l) in
  let max_bpm := snd (ylim x l) in
  40 <= min_bpm
  /\ max_bpm <= 220
  /\ (forall b, In b (x :: l) -> Spec.in_range b -> min_bpm <= b <= max_bpm)
  /\ ((exists b, In b (x :: l) /\ Spec.in_range b) -> min_bpm < max_bpm)
  /\ (Forall (fun b => b == 0) (x :: l) -> min_bpm == 40 /\ max_bpm == 10).
Proof.
  intros Hest. unfold ylim. cbn [fst snd].
  destruct (np_min_spec x l) as [Hmin1 Hmin2].
  destruct (np_max_spec x l) as [Hmax1 Hmax2].
  set (lo := np_min x l) in *. set (hi := np_max x l) in *.
  assert (Hvis : forall b, In b (x :: l) -> Spec.in_range b ->
            Qmax 40 (lo - 10) <= b <= Qmin 220 (hi + 10)).
  { intros b Hb [Hb1 Hb2]. rewrite Forall_forall in Hmin1, Hmax1.
    pose proof (Hmin1 b Hb). pose proof (Hmax1 b Hb). split.
    - apply Q.max_lub; lra.
    - apply Q.min_glb; lra. }
  split; [apply Q.le_max_l|]. split; [apply Q.le_min_l|].
  split; [exact Hvis|]. split.
  - intros (b & Hb & Hr). destruct Hr as [Hb1 Hb2].
    rewrite Forall_forall in Hmin1, Hmax1.
    pose proof (Hmin1 b Hb). pose proof (Hmax1 b Hb).
    destruct (Q.max_spec 40 (lo - 10)) as [[_ ->]|[_ ->]];
      destruct (Q.min_spec 220 (hi + 10)) as [[_ ->]|[_ ->]]; lra.
  - intros Hz.
    assert (Hlo : lo == 0).
    { apply Qle_antisym.
      - rewrite Forall_forall in Hmin1. inversion Hz; subst.
        pose proof (Hmin1 x (or_introl eq_refl)). lra.
      - apply Hmin2. eapply Forall_impl; [|exact Hz].
        intros b Hb. cbv beta in Hb. lra. }
    assert (Hhi : hi == 0).
    { apply Qle_antisym.
      - apply Hmax2. eapply Forall_impl; [|exact Hz].
        intros b Hb. cbv beta in Hb. lra.
      - rewrite Forall_forall in Hmax1. inversion Hz; subst.
        pose proof (Hmax1 x (or_introl eq_refl)). lra. }
    destruct (Q.max_spec 40 (lo - 10)) as [[? ->]|[? ->]];
      destruct (Q.min_spec 220 (hi + 10)) as [[? ->]|[? ->]];
      split; lra.
Qed.

Lemma chart_axis_holds_estimates_witness :
  fst (ylim 0 [90; 120]) <= 90 <= snd (ylim 0 [90; 120]).
Proof.
  destruct (chart_axis_holds_estimates 0 [90; 120]) as (_ & _ & H & _).
  - constructor; [left; reflexivity|].
    constructor; [right; split; discriminate|].
    constructor; [right; split; discriminate|constructor].
  - apply (H 90).
    + right. left. reflexivity.
    + split; discriminate.
Defined.

(** ** The range selector *)

Lemma range_order (self : range_selector) (kind : handle) (val : Q) :
  let self' := _on_ref_range_change self kind val in
  ref_range_start self' <= ref_range_end self'
  /\ (kind = handle_start -> ref_range_start self' == val)
  /\ (kind = handle_other -> ref_range_end self' == val).
Proof.
  unfold _on_ref_range_change.
  destruct kind; [destruct (Qlt_le_dec _ val)|destruct (Qlt_le_dec val _)];
    cbn [ref_range_start ref_range_end];
    (split; [lra|split; intros; [reflexivity||discriminate
                                 |reflexivity||discriminate]]).
Qed.

(** Whatever handle is moved and wherever, the selected range stays in
    order: its start is never after its end. *)
Theorem range_change_keeps_order (self : range_selector) (kind : handle)
  (val : Q) :
  let self' := _on_ref_range_change self kind val in
  ref_range_start self' <= ref_range_end self'
  /\ (kind = handle_start -> ref_range_start self' == val)
  /\ (kind = handle_other -> ref_range_end self' == val).
Proof. apply range_order. Qed.

Lemma canvas_rel_bounds (winfo_width x : Z) :
  let w := Z.max 1 winfo_width in
  let usable := Z.max 1 (w - 2 * 10) in
  let pos := Z.max 10 (Z.min (w - 10) x) in
  0 <= inject_Z (pos - 10) / inject_Z usable <= 1.
Proof.
  intros w usable pos.
  assert (Hu : 0 < inject_Z usable)
    by (change 0 with (inject_Z 0); rewrite <- Zlt_Qlt; unfold usable; lia).
  assert (H0 : 0 <= inject_Z (pos - 10))
    by (change 0 with (inject_Z 0); rewrite <- Zle_Qle; unfold pos; lia).
  assert (H1 : inject_Z (pos - 10) <= inject_Z usable)
    by (rewrite <- Zle_Qle; unfold pos, usable, w; lia).
  split.
  - apply Qle_shift_div_l; [exact Hu|lra].
  - apply Qle_shift_div_r; [exact Hu|lra].
Qed.

(** Dragging on the canvas selects a time of the audio: for a duration
    that is not negative the value lies within [0, duration], it does not
    decrease as the pointer moves right, it is 0 at or left of the left
    margin and, on a canvas wider than the two margins, the whole duration
    at or right of the right margin; and after the drag the selected range
    ends at that value, in order. *)
Theorem canvas_drag_selects_time (self : range_selector)
  (winfo_width x : Z) (duration : Q) :
  0 <= duration ->
  let v := _value_from_canvas_x winfo_width x duration in
  let self' := _on_range_canvas_drag self winfo_width x duration in
  0 <= v <= duration
  /\ (forall x', (x <= x')%Z ->
        v <= _value_from_canvas_x winfo_width x' duration)
  /\ ((x <= 10)%Z -> v == 0)
  /\ ((20 < winfo_width)%Z -> (winfo_width - 10 <= x)%Z -> v == duration)
  /\ ref_range_start self' <= ref_range_end self'
  /\ ref_range_end self' == v.
Proof.
  intros Hd v self'.
  assert (Hval : forall y,
    _value_from_canvas_x winfo_width y duration
    == inject_Z (Z.max 10 (Z.min (Z.max 1 winfo_width - 10) y) - 10)
       / inject_Z (Z.max 1 (Z.max 1 winfo_width - 2 * 10)) * duration
    /\ 0 <= _value_from_canvas_x winfo_width y duration <= duration).
  { intros y. unfold _value_from_canvas_x.
    pose proof (canvas_rel_bounds winfo_width y) as Hr. cbv zeta in Hr.
    set (rel := inject_Z _ / inject_Z _) in *.
    assert (0 <= rel * duration) by (apply Qmult_le_0_compat; lra).
    assert (rel * duration <= duration) by nra.
    destruct (Q.min_spec duration (rel * duration)) as [[? E]|[? E]];
      destruct (Q.max_spec 0 (Qmin duration (rel * duration)))
        as [[? E']|[? E']]; rewrite E' in *; try rewrite E in *;
      split; try split; lra. }
  set (usable := Z.max 1 (Z.max 1 winfo_width - 2 * 10)) in *.
  assert (Hu : 0 < inject_Z usable)
    by (change 0 with (inject_Z 0); rewrite <- Zlt_Qlt; unfold usable; lia).
  destruct (Hval x) as [Ev Hb]. fold v in Ev, Hb.
  split; [exact Hb|]. split.
  { intros x' Hx. destruct (Hval x') as [Ev' _]. rewrite Ev, Ev'.
    apply Qmult_le_compat_r; [|exact Hd].
    apply Qmult_le_compat_r;
      [|apply Qlt_le_weak, Qinv_lt_0_compat, Hu].
    rewrite <- Zle_Qle. lia. }
  split.
  { intros Hx. rewrite Ev.
    replace (Z.max 10 (Z.min (Z.max 1 winfo_width - 10) x) - 10)%Z with 0%Z
      by lia.
    change (inject_Z 0) with 0. unfold Qdiv. ring. }
  split.
  { intros Hw Hx. rewrite Ev.
    replace (Z.max 10 (Z.min (Z.max 1 winfo_width - 10) x) - 10)%Z
      with usable by (unfold usable; lia).
    field. lra. }
  unfold self', _on_range_canvas_drag. fold v.
  destruct (range_order self handle_other v) as (H1 & _ & H2).
  split; [exact H1|]. now apply H2.
Qed.

Lemma canvas_drag_selects_time_witness :
  0 <= _value_from_canvas_x 220 110 60 <= 60.
Proof.
  destruct (canvas_drag_selects_time
              {| ref_range_start_var := 0; ref_range_end_var := 60;
                 ref_range_start := 0; ref_range_end := 60 |}
              220 110 60) as [H _].
  - discriminate.
  - exact H.
Defined.

(** ** The analysis of an audio file by the core analyzer *)

Lemma normalized_in_unit (audio : AudioSegment) :
  (1 <= sample_width audio)%Z ->
  Forall (fun s =>
            (- 2 ^ (sample_width audio * 8 - 1) <= s
             < 2 ^ (sample_width audio * 8 - 1))%Z)
         (array_of_samples audio) ->
  Forall (fun x => - (1) <= x /\ x < 1) (normalized_samples audio).
Proof.
  intros Hw H. unfold normalized_samples, max_val. rewrite Forall_map.
  eapply Forall_impl; [|exact H]. intros s [H1 H2]. cbv beta.
  set (e := (sample_width audio * 8 - 1)%Z) in *.
  destruct (Z.ltb_spec e 0); [unfold e in *; lia|].
  assert (Hpos : 0 < inject_Z (2 ^ e)).
  { change 0 with (inject_Z 0). rewrite <- Zlt_Qlt.
    apply Z.pow_pos_nonneg; lia. }
  assert (Q1 : - inject_Z (2 ^ e) <= inject_Z s)
    by (rewrite <- inject_Z_opp, <- Zle_Qle; exact H1).
  assert (Q2 : inject_Z s < inject_Z (2 ^ e))
    by (rewrite <- Zlt_Qlt; exact H2).
  split.
  - apply Qle_shift_div_l; [exact Hpos|]. lra.
  - apply Qlt_shift_div_r; [exact Hpos|]. lra.
Qed.

Section AudioFileFacts.

Variable sqrtQ : Q -> Q.
Variable magnitude_spectrum : list fval -> list fval.


End AudioFileFacts.


(** ** The deviation heatmap *)

Lemma linspace_item (start stop : Q) (num i : Z) :
  (0 <= i < num)%Z ->
  Py.item (linspace start stop num) i
  = start + inject_Z i * ((stop - start) / inject_Z (num - 1)).
Proof.
  intros Hi. unfold Py.item, linspace.
  rewrite nth_map_range by lia. now rewrite Z2Nat.id by lia.
Qed.

Lemma cell_mask_nth (times : list Q) (left right : Q) (is_last : bool)
  (j : nat) :
  (j < length times)%nat ->
  (nth j (cell_mask times left right is_last) false = true
   <-> left <= nth j times 0
       /\ if is_last then nth j times 0 <= right else nth j times 0 < right).
Proof.
  intros Hj. unfold cell_mask.
  rewrite (nth_indep _ false
             ((fun t => Qle_bool left t
                        && (if is_last then Qle_bool t right
                            else if Qlt_le_dec t right then true else false))
                0)) by (now rewrite length_map).
  rewrite (map_nth (fun t => Qle_bool left t
                     && (if is_last then Qle_bool t right
                         else if Qlt_le_dec t right then true else false))).
  set (t := nth j times 0). rewrite andb_true_iff, Qle_bool_iff.
  destruct is_last.
  - now rewrite Qle_bool_iff.
  - destruct (Qlt_le_dec t right) as [Hlt|Hge].
    + split; intros [H1 _]; split; auto.
    + split; intros [H1 H2]; [discriminate|exfalso; lra].
Qed.

Lemma last_index (P : Z -> Prop) (n : Z) :
  (forall i, P i \/ ~ P i) -> (0 <= n)%Z -> P 0%Z ->
  exists i, (0 <= i <= n)%Z /\ P i
            /\ forall i', (i < i' <= n)%Z -> ~ P i'.
Proof.
  intros Hdec Hn H0.
  rewrite <- (Z2Nat.id n Hn). clear Hn.
  induction (Z.to_nat n) as [|m IH].
  - exists 0%Z. split; [lia|]. split; [exact H0|]. intros i' Hi'. lia.
  - destruct IH as (i & Hi & HP & Hmax).
    destruct (Hdec (Z.of_nat (S m))) as [Hs|Hs].
    + exists (Z.of_nat (S m)). split; [lia|]. split; [exact Hs|].
      intros i' Hi'. lia.
    + exists i. split; [lia|]. split; [exact HP|].
      intros i' Hi'. destruct (Z.eq_dec i' (Z.of_nat (S m))) as [->|Hne];
        [exact Hs|]. apply Hmax. lia.
Qed.

Lemma cell_count_pos (valid_times : list Q) (segment_count : Z) :
  (0 < segment_count)%Z -> (0 < cell_count valid_times segment_count)%Z.
Proof.
  intros H. unfold cell_count. destruct (_ <=? _)%Z; lia.
Qed.

Lemma last_nth (l : list Q) : last l 0 = nth (length l - 1) l 0.
Proof.
  induction l as [|x t IH]; [reflexivity|].
  destruct t as [|y t']; [reflexivity|].
  change (last (x :: y :: t') 0) with (last (y :: t') 0). rewrite IH.
  cbn [length]. replace (S (S (length t')) - 1)%nat with
    (S (S (length t') - 1))%nat by lia.
  reflexivity.
Qed.

(** Every reading is counted in exactly one cell of the heatmap: with the
    times in order, each reading lies in the mask of one cell and of no
    other; the cell count is the requested one, or the number of readings
    when there are fewer. *)
Theorem heatmap_cells_partition (valid_times : list Q) (segment_count : Z) :
  (0 < segment_count)%Z -> valid_times <> [] ->
  StronglySorted Qle valid_times ->
  let count := cell_count valid_times segment_count in
  (0 < count <= segment_count)%Z
  /\ forall j : nat, (j < length valid_times)%nat ->
     exists i : Z,
       (0 <= i < count)%Z
       /\ forall i' : Z, (0 <= i' < count)%Z ->
          (nth j (mask_of valid_times count i') false = true <-> i' = i).
Proof.
  intros Hsc Hne Hs count.
  assert (Hc : (0 < count)%Z) by now apply cell_count_pos.
  split.
  { split; [exact Hc|]. unfold count, cell_count.
    destruct (Z.leb_spec segment_count (Py.len valid_times)); [lia|].
    unfold Py.len in *. destruct valid_times; [congruence|].
    cbn [length] in *. lia. }
  intros j Hj.
  set (s := nth 0 valid_times 0). set (e := last valid_times 0).
  set (t := nth j valid_times 0).
  assert (Hst : s <= t) by (apply sorted_nth; [exact Hs|lia]).
  assert (Hte : t <= e).
  { unfold e. rewrite last_nth. apply sorted_nth; [exact Hs|lia]. }
  set (step := (e - s) / inject_Z (count + 1 - 1)).
  assert (Hcq : 0 < inject_Z count)
    by (change 0 with (inject_Z 0); now rewrite <- Zlt_Qlt).
  assert (Hstep : 0 <= step).
  { unfold step. replace (count + 1 - 1)%Z with count by lia.
    apply Qle_shift_div_l; [exact Hcq|]. lra. }
  set (B := fun i : Z => s + inject_Z i * step).
  assert (HB0 : B 0%Z == s) by (unfold B; change (inject_Z 0) with 0; ring).
  assert (HBc : B count == e).
  { unfold B, step. replace (count + 1 - 1)%Z with count by lia.
    field. lra. }
  assert (Hmono : forall a b, (a <= b)%Z -> B a <= B b).
  { intros a b Hab. unfold B.
    assert (inject_Z a <= inject_Z b) by now rewrite <- Zle_Qle.
    nra. }
  assert (Hmask : forall i, (0 <= i < count)%Z ->
    (nth j (mask_of valid_times count i) false = true
     <-> B i <= t
         /\ if (i <? count - 1)%Z then t < B (i + 1)%Z else t <= B (i + 1)%Z)).
  { intros i Hi. unfold mask_of. rewrite cell_mask_nth by exact Hj.
    rewrite !linspace_item by lia. fold s e step t.
    destruct (i <? count - 1)%Z; cbn [negb]; reflexivity. }
  destruct (last_index (fun i => B i <= t) (count - 1)) as (i & Hi & HP & Hmax).
  { intros i. destruct (Qlt_le_dec t (B i)); [right; lra|now left]. }
  { lia. }
  { cbv beta. lra. }
  cbv beta in HP, Hmax.
  exists i. split; [lia|]. intros i' Hi'. rewrite (Hmask i' Hi').
  split.
  - intros [H1 H2].
    destruct (Z.lt_trichotomy i' i) as [Hlt|[->|Hgt]]; [|reflexivity|].
    + exfalso. destruct (Z.ltb_spec i' (count - 1)); [|lia].
      pose proof (Hmono (i' + 1)%Z i ltac:(lia)). lra.
    + exfalso. apply (Hmax i'); [lia|exact H1].
  - intros ->. split; [exact HP|].
    destruct (Z.ltb_spec i (count - 1)).
    + destruct (Qlt_le_dec t (B (i + 1)%Z)) as [Hlt|Hge]; [exact Hlt|].
      exfalso. apply (Hmax (i + 1)%Z); [lia|exact Hge].
    + replace (i + 1)%Z with count by lia. lra.
Qed.

Lemma heatmap_cells_partition_witness :
  exists i : Z,
    (0 <= i < 2)%Z
    /\ forall i' : Z, (0 <= i' < 2)%Z ->
       (nth 1 (mask_of [0; 4; 10] 2 i') false = true <-> i' = i).
Proof.
  destruct (heatmap_cells_partition [0; 4; 10] 2) as [_ H].
  - lia.
  - discriminate.
  - repeat (constructor; try (cbn; lra)).
  - apply (H 1%nat). cbn. lia.
Defined.

(** *** A uniform deviation *)

Lemma select_related (p : Q) (mask : list bool) (mic ref : list Q) :
  Forall2 (fun m r => m == (1 + p) * r /\ 0 < r) mic ref ->
  Forall2 (fun m r => m == (1 + p) * r /\ 0 < r)
    (select mask mic) (select mask ref).
Proof.
  intros H. revert mask. unfold select.
  induction H as [|m r mic' ref' Hmr Hrest IH]; intros [|b mask];
    cbn [List.combine filter map]; try constructor.
  destruct b; cbn [fst filter map snd]; [constructor|]; auto.
Qed.

Lemma select_nonempty {A : Type} (mask : list bool) (array : list A) :
  length mask = length array ->
  existsb (fun b => b) mask = true -> select mask array <> [].
Proof.
  revert array. unfold select.
  induction mask as [|b mask IH]; intros [|x array] Hl Hex;
    cbn in Hl, Hex; try discriminate.
  cbn [List.combine filter]. destruct b; cbn [fst map]; [discriminate|].
  apply IH; [lia|exact Hex].
Qed.

Lemma related_sums (p : Q) (mic ref : list Q) :
  Forall2 (fun m r => m == (1 + p) * r /\ 0 < r) mic ref ->
  length (List.combine mic ref) = length ref
  /\ Np.sum (map (fun q => fst q - snd q) (List.combine mic ref))
     == p * Np.sum ref
  /\ Forall (fun r => 0 < r) ref.
Proof.
  induction 1 as [|m r mic' ref' [Hm Hr] Hrest (IH1 & IH2 & IH3)].
  - split; [reflexivity|]. split; [cbn; ring|constructor].
  - split; [cbn [List.combine length]; now rewrite IH1|]. split.
    + cbn [List.combine map Np.sum fold_right fst snd].
      unfold Np.sum in IH2. rewrite IH2, Hm. ring.
    + now constructor.
Qed.

Lemma cell_percent_uniform (p : Q) (mask : list bool) (mic ref : list Q)
  (sheet_bpm : Q) :
  length mask = length ref ->
  Forall2 (fun m r => m == (1 + p) * r /\ 0 < r) mic ref ->
  cell_percent mask mic ref sheet_bpm
  == if existsb (fun b => b) mask then p * 100 else 0.
Proof.
  intros Hl H. unfold cell_percent.
  destruct (existsb (fun b => b) mask) eqn:Ex; [|reflexivity].
  pose proof (select_nonempty mask ref Hl Ex) as Hne.
  pose proof (select_related p mask mic ref H) as Hrel.
  set (seg_mic := select mask mic) in *.
  set (seg_ref := select mask ref) in *.
  destruct (related_sums p seg_mic seg_ref Hrel) as (Hlen & Hsum & Hpos).
  pose proof (mean_positive seg_ref Hne Hpos) as Hmean.
  assert (Hany : existsb (fun r => negb (Qeq_bool r 0)) seg_ref = true).
  { destruct seg_ref as [|r rest]; [congruence|].
    inversion Hpos; subst. cbn [existsb].
    destruct (Qeq_bool r 0) eqn:E; [|reflexivity].
    apply Qeq_bool_iff in E. lra. }
  rewrite Hany.
  destruct (Qlt_le_dec 0 (Np.mean seg_ref)); [|lra].
  pose proof (inject_len_pos seg_ref Hne) as Hn.
  assert (Hd : Np.mean (map (fun q => fst q - snd q)
                          (List.combine seg_mic seg_ref))
               == p * Np.mean seg_ref).
  { unfold Np.mean, Py.len in *. rewrite length_map, Hlen, Hsum.
    field. lra. }
  rewrite Hd. field. lra.
Qed.

(** A performance that is everywhere the same fraction [p] faster than
    the reference (slower for a negative [p]) shows exactly [100 p]
    percent in every cell of the heatmap that holds a reading, and 0 in
    the cells that hold none. *)
Theorem heatmap_uniform_deviation (p : Q)
  (valid_times valid_bpms ref_series : list Q) (sheet_bpm : Q)
  (segment_count : Z) :
  (0 < segment_count)%Z -> valid_times <> [] ->
  length valid_times = length ref_series ->
  Forall2 (fun m r => m == (1 + p) * r /\ 0 < r) valid_bpms ref_series ->
  let count := cell_count valid_times segment_count in
  exists cells,
    plot_deviation_heatmap valid_times valid_bpms ref_series sheet_bpm
      segment_count = Ok cells
    /\ Py.len cells = count
    /\ forall i : Z, (0 <= i < count)%Z ->
       Py.item cells i
       == if existsb (fun b => b) (mask_of valid_times count i)
          then p * 100 else 0.
Proof.
  intros Hsc Hne Hlen Hrel count.
  pose proof (cell_count_pos valid_times segment_count Hsc) as Hc.
  fold count in Hc.
  destruct valid_times as [|t0 ts]; [congruence|].
  destruct valid_bpms as [|m0 ms].
  { inversion Hrel; subst. discriminate. }
  unfold plot_deviation_heatmap. fold count.
  destruct (Z.ltb_spec (count + 1) 0); [lia|].
  eexists; split; [reflexivity|]. split.
  - unfold Py.len. rewrite length_map, range_length. lia.
  - intros i Hi. unfold Py.item. rewrite nth_map_range by lia.
    rewrite Z2Nat.id by lia.
    apply cell_percent_uniform; [|exact Hrel].
    unfold mask_of, cell_mask. now rewrite length_map.
Qed.

Lemma heatmap_uniform_deviation_witness :
  exists cells,
    plot_deviation_heatmap [0; 4; 10] [105; 126; 84] [100; 120; 80] 100 2
    = Ok cells
    /\ Py.len cells = cell_count [0; 4; 10]%Q 2
    /\ forall i : Z, (0 <= i < cell_count [0; 4; 10]%Q 2)%Z ->
       Py.item cells i
       == if existsb (fun b => b)
               (mask_of [0; 4; 10] (cell_count [0; 4; 10]%Q 2) i)
          then (1 # 20) * 100 else 0.
Proof.
  apply (heatmap_uniform_deviation (1 # 20) [0; 4; 10] [105; 126; 84]
           [100; 120; 80] 100 2).
  - lia.
  - discriminate.
  - reflexivity.
  - repeat (constructor; try (split; [reflexivity|reflexivity])).
Defined.

(** ** Writing a recording and reading it back *)

Lemma truncate_spec (q : Q) :
  (0 <= q -> inject_Z (truncate q) <= q /\ q < inject_Z (truncate q) + 1)
  /\ (q <= 0 -> inject_Z (truncate q) - 1 < q /\ q <= inject_Z (truncate q)).
Proof.
  destruct q as [n d]. unfold truncate, Qle, Qlt. cbn.
  pose proof (Z.quot_rem' n (Z.pos d)) as E.
  split; intros H.
  - assert (Hn : (0 <= n)%Z) by lia.
    pose proof (Z.rem_bound_pos n (Z.pos d) Hn ltac:(lia)) as Hr.
    nia.
  - assert (Hn : (n <= 0)%Z) by lia.
    pose proof (Z.rem_bound_pos_neg n (Z.pos d) ltac:(lia) Hn) as Hr.
    nia.
Qed.

Lemma clip_bounds (x : Q) :
  - (1) <= clip x <= 1 /\ (- (1) <= x <= 1 -> clip x == x).
Proof.
  unfold clip.
  destruct (Q.max_spec (- (1)) x) as [[H1 E1]|[H1 E1]];
    destruct (Q.min_spec 1 (Qmax (- (1)) x)) as [[H2 E2]|[H2 E2]];
    rewrite E2; rewrite ?E1 in *; repeat split; try lra; intros; lra.
Qed.

Lemma pcm16_close (x : Q) :
  (- 32767 <= pcm16 x <= 32767)%Z
  /\ Qabs (inject_Z (pcm16 x) / 32768 - clip x) < 1 # 16384.
Proof.
  unfold pcm16. destruct (clip_bounds x) as [[Hc1 Hc2] _].
  set (c := clip x) in *. set (t := truncate (c * 32767)).
  destruct (truncate_spec (c * 32767)) as [Hpos Hneg]. fold t in Hpos, Hneg.
  assert (Hq : inject_Z t - 1 < c * 32767 < inject_Z t + 1
               /\ - 32767 - 1 < inject_Z t < 32767 + 1).
  { destruct (Qlt_le_dec (c * 32767) 0) as [Hlt|Hge].
    - destruct (Hneg ltac:(lra)). split; split; lra.
    - destruct (Hpos Hge). split; split; lra. }
  destruct Hq as [[Hq1 Hq2] [Hq3 Hq4]]. split.
  - assert (- 32768 < t < 32768)%Z; [|lia].
    split; rewrite Zlt_Qlt.
    + change (inject_Z (-32768)) with (- 32768). lra.
    + change (inject_Z 32768) with 32768. lra.
  - apply Qabs_Qlt_condition. split.
    + apply Qlt_minus_iff.
      setoid_replace (inject_Z t / 32768 - c + - - (1 # 16384))
        with ((inject_Z t + 1 - c * 32767 + (1 - c)) / 32768) by field.
      apply Qlt_shift_div_l; [reflexivity|]. lra.
    + apply Qlt_minus_iff.
      setoid_replace ((1 # 16384) + - (inject_Z t / 32768 - c))
        with ((c * 32767 - (inject_Z t - 1) + (1 + c)) / 32768) by field.
      apply Qlt_shift_div_l; [reflexivity|]. lra.
Qed.

(** A recording survives the file: every input sample is written as a
    16-bit value that fits without wrapping, and read back (scaled by
    2^15, as [analyze_audio_file] does) it lies within [-1, 1) and closer
    than 2^-14 to the input sample clipped to [-1, 1]; a sample within
    [-1, 1] is its own clipping. *)
Theorem recording_round_trip (indata : list Q) (rate : Z) :
  Forall (fun s => (- 32767 <= s <= 32767)%Z)
    (array_of_samples (recorded indata rate))
  /\ Forall (fun y => - (1) <= y /\ y < 1)
       (normalized_samples (recorded indata rate))
  /\ Forall2 (fun y x => Qabs (y - clip x) < 1 # 16384)
       (normalized_samples (recorded indata rate)) indata
  /\ Forall (fun x => - (1) <= x <= 1 -> clip x == x) indata.
Proof.
  unfold recorded, normalized_samples, max_val.
  cbn [array_of_samples sample_width].
  change (2 * 8 - 1 <? 0)%Z with false. cbv iota.
  change (inject_Z (2 ^ (2 * 8 - 1))) with 32768.
  split; [|split; [|split]].
  - rewrite Forall_map. apply Forall_forall. intros x _.
    apply (pcm16_close x).
  - rewrite !Forall_map. apply Forall_forall. intros x _.
    destruct (pcm16_close x) as [[H1 H2] _].
    assert (- 32767 <= inject_Z (pcm16 x)).
    { change (- 32767) with (inject_Z (- 32767)). now rewrite <- Zle_Qle. }
    assert (inject_Z (pcm16 x) <= 32767).
    { change 32767 with (inject_Z 32767). now rewrite <- Zle_Qle. }
    split.
    + apply Qle_shift_div_l; [reflexivity|]. lra.
    + apply Qlt_shift_div_r; [reflexivity|]. lra.
  - rewrite map_map. induction indata as [|x t IH]; [constructor|].
    cbn [map]. constructor; [|exact IH]. apply (pcm16_close x).
  - apply Forall_forall. intros x _. apply (clip_bounds x).
Qed.

(** ** Playing an analyzed file *)

Section PlaybackFacts.

Variable sqrtQ : Q -> Q.
Variable magnitude_spectrum : list fval -> list fval.

(** While an analyzed file plays, the display follows its segments: for a
    non-empty file, a positive segment length and a positive frame rate,
    a playback position within segment [k] (from [k] segment lengths on,
    before [k + 1] segment lengths) shows the tempo found for
    segment [k]. *)
Theorem playback_follows_file_segments (samples : list Q)
  (frame_rate segment_samples : Z) (current_time : Q) (k : nat) :
  samples <> [] -> (0 < segment_samples)%Z -> (0 < frame_rate)%Z ->
  let time_bpm_pairs :=
    fst (_analyze_file_thread sqrtQ magnitude_spectrum samples frame_rate
           segment_samples) in
  let segment_seconds := inject_Z segment_samples / inject_Z frame_rate in
  (k < length time_bpm_pairs)%nat ->
  inject_Z (Z.of_nat k) * segment_seconds <= current_time ->
  current_time < inject_Z (Z.of_nat k + 1) * segment_seconds ->
  current_bpm_at time_bpm_pairs current_time
  = Some (snd (nth k time_bpm_pairs (0, 0))).
Proof.
  intros Hne Hs Hr time_bpm_pairs d Hk Hlo Hhi.
  destruct (file_analysis_pairs sqrtQ magnitude_spectrum samples frame_rate
              segment_samples Hne Hs ltac:(lia))
    as (pairs & avg & E & _ & Ht & _).
  unfold time_bpm_pairs in *. rewrite E in *. cbn [fst] in *.
  assert (Hrq : 0 < inject_Z frame_rate)
    by (change 0 with (inject_Z 0); now rewrite <- Zlt_Qlt).
  assert (Hsq : 0 < inject_Z segment_samples)
    by (change 0 with (inject_Z 0); now rewrite <- Zlt_Qlt).
  assert (Hd : 0 < d) by (unfold d; apply Qlt_shift_div_l; lra).
  assert (Htime : forall j, (j < length pairs)%nat ->
            fst (nth j pairs (0, 0)) == inject_Z (Z.of_nat j) * d).
  { intros j Hj. change 0 with (fst (0, 0)) at 1.
    change (fst (nth j pairs (fst (0, 0), 0)))
      with (fst (nth j pairs (0, 0))).
    rewrite <- (map_nth fst). rewrite Ht. cbn [fst].
    rewrite nth_map_range by (unfold Py.len; lia).
    unfold d. rewrite inject_Z_mult. field. lra. }
  destruct (current_bpm_segment pairs current_time) as [H _].
  - rewrite Ht. unfold Py.range. rewrite map_map.
    assert (Hsorted : forall n a,
      StronglySorted Qle
        (map (fun x => inject_Z (Z.of_nat x * segment_samples)
                       / inject_Z frame_rate) (seq a n))).
    { intros n. induction n as [|n IH]; intros a; cbn [seq map];
        constructor; [apply IH|].
      apply Forall_forall. intros y Hy. apply in_map_iff in Hy.
      destruct Hy as (j & <- & Hj). apply in_seq in Hj.
      apply Qle_shift_div_l; [exact Hrq|].
      setoid_replace (inject_Z (Z.of_nat a * segment_samples)
                      / inject_Z frame_rate * inject_Z frame_rate)
        with (inject_Z (Z.of_nat a * segment_samples)) by (field; lra).
      rewrite <- Zle_Qle. nia. }
    apply Hsorted.
  - apply (H k Hk).
    + rewrite (Htime k Hk). exact Hlo.
    + intros Hk'. rewrite (Htime (S k) Hk').
      rewrite Nat2Z.inj_succ, <- Z.add_1_r. exact Hhi.
Qed.

End PlaybackFacts.

Lemma playback_follows_file_segments_witness :
  current_bpm_at
    (fst (_analyze_file_thread (fun x => x) (fun _ => [])
            [0; 0; 0; 0; 0; 0; 0] 1 3)) 4
  = Some (snd (nth 1 (fst (_analyze_file_thread (fun x => x) (fun _ => [])
                             [0; 0; 0; 0; 0; 0; 0] 1 3)) (0, 0))).
Proof.
  apply (playback_follows_file_segments (fun x => x) (fun _ => [])
           [0; 0; 0; 0; 0; 0; 0] 1 3 4 1).
  - discriminate.
  - lia.
  - lia.
  - vm_compute. lia.
  - vm_compute. discriminate.
  - vm_compute. reflexivity.
Defined.

(** ** Reading 24-bit samples *)

Lemma land_shiftl_small (a n b : Z) :
  (0 <= n)%Z -> (0 <= b < 2 ^ n)%Z -> Z.land (Z.shiftl a n) b = 0%Z.
Proof.
  intros Hn Hb. apply Z.bits_inj'. intros m Hm.
  rewrite Z.land_spec, Z.bits_0.
  destruct (Z.lt_ge_cases m n) as [Hlt|Hge].
  - now rewrite Z.shiftl_spec_low.
  - assert (Hbit : Z.testbit b m = false).
    { apply Z.testbit_false; [exact Hm|].
      rewrite Z.div_small; [reflexivity|].
      destruct Hb as [Hb0 Hb1].
      split; [exact Hb0|]. apply Z.lt_le_trans with (2 ^ n)%Z; [exact Hb1|].
      apply Z.pow_le_mono_r; lia. }
    rewrite Hbit. apply andb_false_r.
Qed.

Lemma lor_shiftl_small (a n b : Z) :
  (0 <= n)%Z -> (0 <= b < 2 ^ n)%Z ->
  Z.lor (Z.shiftl a n) b = (a * 2 ^ n + b)%Z.
Proof.
  intros Hn Hb. pose proof (Z.add_lor_land (Z.shiftl a n) b) as H.
  rewrite land_shiftl_small in H by assumption.
  rewrite Z.add_0_r in H. rewrite H.
  now rewrite Z.shiftl_mul_pow2 by exact Hn.
Qed.

Lemma land_sign_bit (x : Z) :
  (0 <= x < 2 ^ 24)%Z ->
  (Z.land x 0x800000 =? 0)%Z = (x <? 2 ^ 23)%Z.
Proof.
  intros Hx. change 0x800000%Z with (2 ^ 23)%Z.
  assert (Hbit : Z.b2z (Z.testbit x 23) = ((x / 2 ^ 23) mod 2)%Z)
    by (apply Z.testbit_spec'; lia).
  destruct (Z.ltb_spec x (2 ^ 23)) as [Hlt|Hge].
  - assert (Ht : Z.testbit x 23 = false).
    { rewrite Z.div_small in Hbit by lia.
      destruct (Z.testbit x 23); [discriminate|reflexivity]. }
    apply Z.eqb_eq. apply Z.bits_inj'. intros m Hm.
    rewrite Z.land_spec, Z.bits_0, Z.pow2_bits_eqb by lia.
    destruct (Z.eqb_spec 23 m) as [<-|Hne];
      [now rewrite Ht|apply andb_false_r].
  - assert (Ht : Z.testbit x 23 = true).
    { assert (Hq : (x / 2 ^ 23 = 1)%Z).
      { change (2 ^ 24)%Z with (2 * 2 ^ 23)%Z in Hx.
        assert (1 <= x / 2 ^ 23)%Z by (apply Z.div_le_lower_bound; lia).
        assert (x / 2 ^ 23 < 2)%Z by (apply Z.div_lt_upper_bound; lia).
        lia. }
      rewrite Hq in Hbit. destruct (Z.testbit x 23);
        [reflexivity|discriminate]. }
    apply Z.eqb_neq. intros E.
    apply (f_equal (fun v => Z.testbit v 23)) in E.
    rewrite Z.land_spec, Z.bits_0, Z.pow2_bits_eqb, Ht in E by lia.
    discriminate.
Qed.

Lemma sample24_value (b0 b1 b2 : Z) :
  byte b0 -> byte b1 -> byte b2 ->
  sample24 b0 b1 b2
  = ((b0 + 256 * b1 + 65536 * b2)
     - (if (b2 <? 128) then 0 else 16777216))%Z.
Proof.
  unfold byte. intros H0 H1 H2. unfold sample24.
  assert (E1 : Z.lor (Z.shiftl b2 16) (Z.shiftl b1 8)
               = (b2 * 2 ^ 16 + b1 * 2 ^ 8)%Z).
  { rewrite (Z.shiftl_mul_pow2 b1 8) by lia.
    apply lor_shiftl_small; [lia|].
    change (2 ^ 16)%Z with 65536%Z. change (2 ^ 8)%Z with 256%Z. lia. }
  assert (E2 : Z.lor (Z.lor (Z.shiftl b2 16) (Z.shiftl b1 8)) b0
               = (b0 + 256 * b1 + 65536 * b2)%Z).
  { rewrite E1.
    replace (b2 * 2 ^ 16 + b1 * 2 ^ 8)%Z
      with ((b2 * 2 ^ 8 + b1) * 2 ^ 8)%Z
      by (change (2 ^ 16)%Z with (2 ^ 8 * 2 ^ 8)%Z; ring).
    rewrite <- (Z.shiftl_mul_pow2 _ 8) by lia.
    rewrite lor_shiftl_small by (change (2 ^ 8)%Z with 256%Z; lia).
    change (2 ^ 8)%Z with 256%Z. ring. }
  rewrite E2.
  rewrite land_sign_bit by (change (2 ^ 24)%Z with 16777216%Z; lia).
  change (2 ^ 23)%Z with 8388608%Z. change 0x1000000%Z with 16777216%Z.
  destruct (Z.ltb_spec (b0 + 256 * b1 + 65536 * b2) 8388608);
    destruct (Z.ltb_spec b2 128); lia.
Qed.

Lemma sample24_range (b0 b1 b2 : Z) :
  byte b0 -> byte b1 -> byte b2 ->
  (- 8388608 <= sample24 b0 b1 b2 < 8388608)%Z.
Proof.
  intros H0 H1 H2. rewrite sample24_value by assumption.
  unfold byte in *. destruct (Z.ltb_spec b2 128); lia.
Qed.

(** The three bytes of a 24-bit sample are read as the two's complement
    number they encode: the value is the unsigned number of the bytes,
    less 2^24 when the top bit of the high byte is set, so it lies within
    [-2^23, 2^23), and scaled by 2^23 within [-1, 1); and every number of
    that range is read back from its own three bytes. *)
Theorem sample24_twos_complement (b0 b1 b2 : Z) :
  byte b0 -> byte b1 -> byte b2 ->
  sample24 b0 b1 b2
  = ((b0 + 256 * b1 + 65536 * b2)
     - (if (b2 <? 128) then 0 else 16777216))%Z
  /\ (- 8388608 <= sample24 b0 b1 b2 < 8388608)%Z
  /\ Forall (fun x => - (1) <= x /\ x < 1) (normalize24 [sample24 b0 b1 b2])
  /\ bytes24 (sample24 b0 b1 b2) = [b0; b1; b2]
  /\ forall v, (- 8388608 <= v < 8388608)%Z ->
       Forall byte (bytes24 v)
       /\ sample24 (v mod 256) ((v / 256) mod 256) ((v / 65536) mod 256) = v.
Proof.
  intros H0 H1 H2. pose proof (sample24_value b0 b1 b2 H0 H1 H2) as E.
  unfold byte in *.
  assert (Hr : (- 8388608 <= sample24 b0 b1 b2 < 8388608)%Z).
  { rewrite E. destruct (Z.ltb_spec b2 128); lia. }
  split; [exact E|]. split; [exact Hr|]. split; [|split].
  - constructor; [|constructor]. split.
    + apply Qle_shift_div_l; [reflexivity|].
      change (- (1) * 8388608) with (inject_Z (- 8388608)).
      rewrite <- Zle_Qle. lia.
    + apply Qlt_shift_div_r; [reflexivity|].
      change (1 * 8388608) with (inject_Z 8388608).
      rewrite <- Zlt_Qlt. lia.
  - unfold bytes24. rewrite E.
    destruct (Z.ltb_spec b2 128); repeat f_equal;
      Z.to_euclidean_division_equations; lia.
  - intros v Hv.
    assert (Hb : byte (v mod 256) /\ byte ((v / 256) mod 256)
                 /\ byte ((v / 65536) mod 256)).
    { unfold byte. repeat split; apply Z.mod_pos_bound; lia. }
    destruct Hb as (B0 & B1 & B2). split.
    + unfold bytes24.
      constructor; [exact B0|].
      constructor; [exact B1|].
      constructor; [exact B2|constructor].
    + rewrite sample24_value by assumption.
      destruct (Z.ltb_spec ((v / 65536) mod 256) 128);
        Z.to_euclidean_division_equations; lia.
Qed.

Lemma sample24_twos_complement_witness :
  sample24 0xFF 0xFF 0xFF = (- 1)%Z.
Proof.
  destruct (sample24_twos_complement 0xFF 0xFF 0xFF) as [E _];
    try (unfold byte; lia).
  exact E.
Defined.

(** The data of a 24-bit file is read only in whole samples: a number of
    data bytes that is not a multiple of three ends the analysis with an
    error; otherwise there is one sample for every three bytes, each
    within [-2^23, 2^23). *)
Theorem samples24_whole_samples (audio_data : list Z) :
  Forall byte audio_data ->
  match samples24 audio_data with
  | Some samples =>
    (Py.len audio_data = 3 * Py.len samples)%Z
    /\ Forall (fun s => (- 8388608 <= s < 8388608)%Z) samples
  | None => (Py.len audio_data mod 3 <> 0)%Z
  end.
Proof.
  assert (H : forall n l, (length l <= n)%nat -> Forall byte l ->
    match samples24 l with
    | Some samples =>
      (Py.len l = 3 * Py.len samples)%Z
      /\ Forall (fun s => (- 8388608 <= s < 8388608)%Z) samples
    | None => (Py.len l mod 3 <> 0)%Z
    end).
  { induction n as [|n IH]; intros l Hl Hb.
    - destruct l; [|cbn in Hl; lia]. cbn. split; [reflexivity|constructor].
    - destruct l as [|b0 [|b1 [|b2 rest]]].
      + cbn. split; [reflexivity|constructor].
      + cbn. discriminate.
      + cbn. discriminate.
      + inversion Hb as [|? ? B0 Hb1]; subst.
        inversion Hb1 as [|? ? B1 Hb2]; subst.
        inversion Hb2 as [|? ? B2 Hrest]; subst.
        cbn [samples24].
        specialize (IH rest ltac:(cbn in Hl; lia) Hrest).
        unfold Py.len in *. cbn [length].
        destruct (samples24 rest) as [samples|].
        * destruct IH as [IH1 IH2]. split; [cbn [length]; lia|].
          constructor; [|exact IH2].
          apply (sample24_range b0 b1 b2); assumption.
        * replace (Z.of_nat (S (S (S (length rest)))))
            with (Z.of_nat (length rest) + 1 * 3)%Z by lia.
          now rewrite Z.mod_add by lia. }
  intros Hb. apply (H (length audio_data)); [lia|exact Hb].
Qed.

Lemma samples24_whole_samples_witness :
  match samples24 [0; 0; 0x80; 0xFF; 0xFF; 0x7F]%Z with
  | Some samples =>
    (Py.len [0; 0; 0x80; 0xFF; 0xFF; 0x7F]%Z = 3 * Py.len samples)%Z
    /\ Forall (fun s => (- 8388608 <= s < 8388608)%Z) samples
  | None => (Py.len [0; 0; 0x80; 0xFF; 0xFF; 0x7F]%Z mod 3 <> 0)%Z
  end.
Proof.
  apply (samples24_whole_samples [0; 0; 0x80; 0xFF; 0xFF; 0x7F]%Z).
  repeat constructor; unfold byte; lia.
Defined.

(** ** The file analysis of the stand-alone application *)

Lemma standalone_loop (self : GuiApp.BPMAnalyzer) (samples : list Q)
  (sample_rate segment_size : Z) (indices : list Z) :
  GuiApp.hop_size self <> 0%Z -> sample_rate <> 0%Z ->
  exists pairs,
    StandAlone.file_loop self samples sample_rate segment_size indices
    = Ok pairs
    /\ subsequence (map fst pairs) (map (fun i => inject_Z (i * 5)) indices)
    /\ Forall (fun p => Spec.in_range (snd p)) pairs.
Proof.
  intros Hh Hr. induction indices as [|i rest IH];
    cbn [StandAlone.file_loop].
  - exists []. repeat split; constructor.
  - pose proof (gui_analyze_cases self
                  (Py.slice samples (i * segment_size)
                     (Z.min ((i + 1) * segment_size) (Py.len samples)))
                  sample_rate) as Hc.
    destruct (GuiApp.analyze_audio_data _ _ _) as [[b|]|e]; cbn [bind].
    + destruct IH as (pairs & -> & Hsub & Hall). cbn [bind].
      eexists; split; [reflexivity|]. cbn [map fst]. split.
      * now constructor.
      * constructor; [apply Hc|exact Hall].
    + destruct IH as (pairs & -> & Hsub & Hall). cbn [bind].
      eexists; split; [reflexivity|]. cbn [map]. split.
      * now constructor.
      * exact Hall.
    + exfalso. destruct Hc as [[Hc|Hc] _]; congruence.
Qed.

(** The stand-alone application always finishes the analysis of decoded
    samples at a non-zero sample rate (with a non-zero hop).  It keeps a
    pair only for a segment with a tempo, at the time 5 i of segment i, so
    the times are multiples of five seconds in increasing order; every
    tempo lies within [40, 220], and so does the overall tempo, the mean
    of the kept ones, which exists exactly when a pair is kept. *)
Theorem standalone_file_outcome (self : GuiApp.BPMAnalyzer)
  (samples : list Q) (sample_rate : Z) :
  GuiApp.hop_size self <> 0%Z -> sample_rate <> 0%Z ->
  exists (time_bpm_pairs : list (Q * Q)) (bpm_result : option Q),
    StandAlone._analyze_file_thread self samples sample_rate
    = Ok (time_bpm_pairs, bpm_result)
    /\ subsequence (map fst time_bpm_pairs)
         (map (fun i => inject_Z (i * 5))
            (Py.range (Z.max 1 (Py.len samples / (sample_rate * 5)))))
    /\ Forall (fun p => Spec.in_range (snd p)) time_bpm_pairs
    /\ match bpm_result with
       | Some b =>
         time_bpm_pairs <> [] /\ Spec.in_range b
         /\ b == Np.mean (map snd time_bpm_pairs)
       | None => time_bpm_pairs = []
       end.
Proof.
  intros Hh Hr. unfold StandAlone._analyze_file_thread.
  destruct (Z.eqb_spec (sample_rate * 5) 0); [lia|].
  set (total := Z.max 1 (Py.len samples / (sample_rate * 5))).
  destruct (standalone_loop self samples sample_rate (sample_rate * 5)
              (Py.range total) Hh Hr) as (pairs & -> & Hsub & Hall).
  cbn [bind]. destruct pairs as [|p ps] eqn:Ep.
  - pose proof (gui_analyze_cases self samples sample_rate) as Hc.
    destruct (GuiApp.analyze_audio_data _ _ _) as [[b|]|e]; cbn [bind].
    + exists [(0, b)], (Some b). split; [reflexivity|]. split.
      * cbn [map fst].
        assert (Hin : exists rest, Py.range total = 0%Z :: rest).
        { unfold Py.range.
          destruct (Z.to_nat total) as [|k] eqn:Ek; [lia|].
          cbn [seq map]. eexists; reflexivity. }
        destruct Hin as [rest ->]. cbn [map].
        change (inject_Z (0 * 5)) with 0. constructor.
        clear. induction rest; cbn [map]; constructor; assumption.
      * split; [constructor; [apply Hc|constructor]|].
        split; [discriminate|]. split; [apply Hc|].
        unfold Np.mean. cbn. field.
    + exists [], None. split; [reflexivity|]. split; [exact Hsub|].
      split; [constructor|reflexivity].
    + exfalso. destruct Hc as [[Hc|Hc] _]; congruence.
  - rewrite <- Ep in *.
    exists pairs, (Some (Np.mean (map snd pairs))).
    split; [rewrite Ep; reflexivity|]. split; [exact Hsub|].
    split; [exact Hall|]. split; [rewrite Ep; discriminate|].
    split; [|reflexivity].
    apply (mean_bounds 40 220).
    + rewrite Ep. discriminate.
    + rewrite Forall_map. exact Hall.
Qed.

Lemma standalone_file_outcome_witness :
  exists (time_bpm_pairs : list (Q * Q)) (bpm_result : option Q),
    StandAlone._analyze_file_thread
      {| GuiApp.frame_size := 2; GuiApp.hop_size := 1 |}
      [0; 0; 1; -(1); 0; 0; 0] 1
    = Ok (time_bpm_pairs, bpm_result)
    /\ subsequence (map fst time_bpm_pairs)
         (map (fun i => inject_Z (i * 5))
            (Py.range (Z.max 1 (Py.len [0; 0; 1; -(1); 0; 0; 0]%Q
                                / (1 * 5)))))
    /\ Forall (fun p => Spec.in_range (snd p)) time_bpm_pairs
    /\ match bpm_result with
       | Some b =>
         time_bpm_pairs <> [] /\ Spec.in_range b
         /\ b == Np.mean (map snd time_bpm_pairs)
       | None => time_bpm_pairs = []
       end.
Proof.
  apply (standalone_file_outcome
           {| GuiApp.frame_size := 2; GuiApp.hop_size := 1 |}
           [0; 0; 1; -(1); 0; 0; 0] 1).
  - discriminate.
  - discriminate.
Defined.
